(** * ACE Superstore sales analysis: a shallow embedding of [sales_analysis.py]

    The script is a linear pandas pipeline:
    [clean_and_prepare_data] derives the per-row fields and joins the store
    table, five [analyze_*] functions build grouped summaries, and
    [generate_insights_report] reads the summaries back by label.

    Numeric columns are pandas [float64] or [int64] columns.  They are
    modelled by [num]: an exact rational for every finite value, plus the
    three special values the script can produce ([inf], [-inf], [NaN]).  A
    missing cell is [NaN], as in pandas.  Finite arithmetic is exact: the
    model has no binary rounding, no overflow to an infinity, no integer
    wrap-around and no sign on zero, and [.round(2)] rounds the exact
    decimal.  The theorems on amounts are written so as to hold of the
    binary arithmetic as well: they speak of order, of bounds and of which
    cells are counted, on amounts of a stated range, and commit to no
    last digit and to no sign of an infinity; the lemmas that lead to them
    are facts of the exact arithmetic. *)

From Stdlib Require Import QArith Qround Qabs ZArith List String Ascii Bool.
From Stdlib Require Import Lia Lqa Permutation Sorted.
Import ListNotations.

Local Open Scope string_scope.
Local Open Scope list_scope.
Local Open Scope Q_scope.

(** ** Floating-point values *)

Inductive num : Type :=
| Fin (q : Q)
| PInf
| NInf
| NaN.

Definition isnan (x : num) : bool :=
  match x with NaN => true | _ => false end.

Definition notna (x : num) : bool := negb (isnan x).

Definition isfinite (x : num) : bool :=
  match x with Fin _ => true | _ => false end.

(** The sign of a rational: [Gt] positive, [Eq] zero, [Lt] negative. *)
Definition Qsgn (q : Q) : comparison := Qcompare q 0.

Definition fneg (x : num) : num :=
  match x with
  | Fin q => Fin (- q)
  | PInf => NInf
  | NInf => PInf
  | NaN => NaN
  end.

Definition fadd (x y : num) : num :=
  match x, y with
  | NaN, _ | _, NaN => NaN
  | Fin a, Fin b => Fin (a + b)
  | PInf, NInf | NInf, PInf => NaN
  | PInf, _ | _, PInf => PInf
  | NInf, _ | _, NInf => NInf
  end.

Definition fsub (x y : num) : num := fadd x (fneg y).

(** An infinity scaled by a finite factor [q]: [inf * 0] is [NaN]. *)
Definition scale_inf (pos : bool) (q : Q) : num :=
  match Qsgn q with
  | Eq => NaN
  | Gt => if pos then PInf else NInf
  | Lt => if pos then NInf else PInf
  end.

Definition fmul (x y : num) : num :=
  match x, y with
  | NaN, _ | _, NaN => NaN
  | Fin a, Fin b => Fin (a * b)
  | PInf, Fin b => scale_inf true b
  | NInf, Fin b => scale_inf false b
  | Fin a, PInf => scale_inf true a
  | Fin a, NInf => scale_inf false a
  | PInf, PInf | NInf, NInf => PInf
  | PInf, NInf | NInf, PInf => NInf
  end.

(** Division of float64 arrays raises nothing: [x / 0] is an infinity and
    [0 / 0] is [NaN].  The zero of the model has no sign and the infinity
    takes the sign of [x]; with a negative zero in the file it is the
    opposite one. *)
Definition fdiv (x y : num) : num :=
  match x, y with
  | NaN, _ | _, NaN => NaN
  | Fin a, Fin b =>
      if Qeq_bool b 0 then scale_inf true a else Fin (a / b)
  | Fin _, (PInf | NInf) => Fin 0
  | PInf, Fin b => if Qle_bool 0 b then PInf else NInf
  | NInf, Fin b => if Qle_bool 0 b then NInf else PInf
  | (PInf | NInf), (PInf | NInf) => NaN
  end.

(** Comparisons; every comparison with [NaN] is false. *)
Definition fle (x y : num) : bool :=
  match x, y with
  | NaN, _ | _, NaN => false
  | NInf, _ => true
  | _, PInf => true
  | Fin a, Fin b => Qle_bool a b
  | _, _ => false
  end.

Definition flt (x y : num) : bool :=
  match x, y with
  | NaN, _ | _, NaN => false
  | Fin a, Fin b => negb (Qle_bool b a)
  | NInf, NInf | PInf, PInf => false
  | NInf, _ => true
  | _, PInf => true
  | _, _ => false
  end.

Definition fabs (x : num) : num :=
  match x with
  | Fin q => Fin (Qabs q)
  | PInf | NInf => PInf
  | NaN => NaN
  end.

(** Equality of values, up to the representation of a rational. *)
Definition feq (x y : num) : Prop :=
  match x, y with
  | Fin a, Fin b => a == b
  | PInf, PInf | NInf, NInf | NaN, NaN => True
  | _, _ => False
  end.

Infix "=f=" := feq (at level 70, no associativity).

(** ** Rounding to two decimals

    [DataFrame.round(2)] scales by 100, rounds to the nearest integer with
    ties to the even one, and scales back; special values are unchanged.
    The model rounds the exact decimal: a decimal tie such as 0.545, whose
    binary value lies off the tie, can come out a hundredth apart. *)

Definition rint (q : Q) : Z :=
  let f := Qfloor q in
  match Qcompare (q - inject_Z f) (1 # 2) with
  | Lt => f
  | Gt => (f + 1)%Z
  | Eq => if Z.even f then f else (f + 1)%Z
  end.

Definition Qround2 (q : Q) : Q := inject_Z (rint (q * 100)) / 100.

Definition round2 (x : num) : num :=
  match x with
  | Fin q => Fin (Qround2 q)
  | _ => x
  end.

(** ** Column reductions

    [sum], [mean] and [count] skip missing cells ([skipna=True]); the sum of
    no cells is 0 and the mean of no cells is [NaN]. *)

Definition dropna (l : list num) : list num := filter notna l.

Definition total (l : list num) : num := fold_right fadd (Fin 0) l.

Definition col_sum (l : list num) : num := total (dropna l).

Definition col_mean (l : list num) : num :=
  match dropna l with
  | [] => NaN
  | v => fdiv (total v) (Fin (inject_Z (Z.of_nat (List.length v))))
  end.

Definition notnull {A : Type} (o : option A) : bool :=
  match o with Some _ => true | None => false end.

Definition col_count {A : Type} (l : list (option A)) : nat :=
  List.length (filter notnull l).

(** ** The two input tables *)

(** A row of the retail dataset.  Text cells are [None] when missing. *)
Record sale : Type := {
  Order_ID : option string;
  Order_Date : option Z;
  Customer_ID : option string;
  Product_ID : option string;
  Product_Name : option string;
  Category : option string;
  Sub_Category : option string;
  City : option string;
  Postal_Code : option string;
  Region : option string;
  Quantity : num;
  Sales : num;
  Cost_Price : num;
  Discount : num;
  Order_Mode : option string
}.

(** A row of the store-locations table, restricted to the three columns the
    script selects: [stores_df[['City', 'Postal Code', 'Region']]]. *)
Record store : Type := {
  store_City : option string;
  store_Postal_Code : option string;
  store_Region : option string
}.

(** A row of the prepared table: the sale, the four derived numeric columns,
    and the columns added by the merge and the two classifications. *)
Record prepared : Type := {
  base : sale;
  Revenue : num;
  Profit_Margin : num;
  Total_Revenue : num;
  Total_Sales : num;
  Region_store : option string;
  Region_Final : option string;
  Segment : string
}.

(** ** [clean_and_prepare_data] *)

Definition opt_eqb (a b : option string) : bool :=
  match a, b with
  | Some x, Some y => String.eqb x y
  | None, None => true
  | _, _ => false
  end.

(** The join key; pandas matches a missing key with a missing key. *)
Definition key_match (s : sale) (t : store) : bool :=
  opt_eqb (City s) (store_City t) && opt_eqb (Postal_Code s) (store_Postal_Code t).

(** [Series.fillna(other)]: a missing cell takes the cell of [other]. *)
Definition fillna (x other : option string) : option string :=
  match x with
  | Some _ => x
  | None => other
  end.

Definition startswith (x p : string) : bool := String.prefix p x.

Definition isin (x : string) (l : list string) : bool :=
  existsb (String.eqb x) l.

(** [pd.notna(x) and test(x)] *)
Definition notna_and (x : option string) (test : string -> bool) : bool :=
  match x with
  | Some s => test s
  | None => false
  end.

(** The lambda applied to the [Category] column. *)
Definition segment_of (x : option string) : string :=
  if notna_and x (fun s => startswith s "Food") then "Food & Beverages"
  else if notna_and x (fun s => isin s ["Home"; "Kitchen"; "Home Appliances"])
  then "Home & Living"
  else if notna_and x (fun s => isin s ["Health"; "Beauty"; "Grooming"])
  then "Health & Beauty"
  else if notna_and x (fun s => startswith s "Clothing") then "Fashion"
  else "Other".

Definition revenue_of (s : sale) : num := fsub (Sales s) (Cost_Price s).

Definition profit_margin_of (s : sale) : num :=
  fmul (fdiv (revenue_of s) (Sales s)) (Fin 100).

Definition total_revenue_of (s : sale) : num := fmul (revenue_of s) (Quantity s).

Definition total_sales_of (s : sale) : num := fmul (Sales s) (Quantity s).

(** The [Region_store] cells a sale receives from the left merge: one per
    matching store row, in store order, or a single missing cell when no
    store row matches. *)
Definition merge_regions (s : sale) (stores : list store) : list (option string) :=
  match filter (key_match s) stores with
  | [] => [None]
  | ms => map store_Region ms
  end.

Definition enrich (s : sale) (region_store : option string) : prepared :=
  {| base := s;
     Revenue := revenue_of s;
     Profit_Margin := profit_margin_of s;
     Total_Revenue := total_revenue_of s;
     Total_Sales := total_sales_of s;
     Region_store := region_store;
     Region_Final := fillna region_store (Region s);
     Segment := segment_of (Category s) |}.

Definition clean_and_prepare_data (sales_df : list sale) (stores_df : list store)
  : list prepared :=
  flat_map (fun s => map (enrich s) (merge_regions s stores_df)) sales_df.

(** ** Grouping

    [df.groupby(key)] drops the rows whose key is missing and lists the
    groups in increasing key order. *)

Section GroupBy.
Context {R K : Type}.
Variable key : R -> option K.
Variable eqb : K -> K -> bool.
Variable leb : K -> K -> bool.

Fixpoint insert_key (k : K) (l : list K) : list K :=
  match l with
  | [] => [k]
  | h :: t => if leb k h then k :: l else h :: insert_key k t
  end.

Definition sort_keys (l : list K) : list K := fold_right insert_key [] l.

Fixpoint unique (l : list K) : list K :=
  match l with
  | [] => []
  | k :: t => k :: filter (fun k' => negb (eqb k k')) (unique t)
  end.

Definition key_cells (rows : list R) : list K :=
  flat_map (fun r => match key r with Some k => [k] | None => [] end) rows.

Definition has_key (k : K) (r : R) : bool :=
  match key r with
  | Some k' => eqb k k'
  | None => false
  end.

Definition groupby (rows : list R) : list (K * list R) :=
  map (fun k => (k, filter (has_key k) rows))
      (sort_keys (unique (key_cells rows))).
End GroupBy.

Definition pair_eqb (a b : string * string) : bool :=
  String.eqb (fst a) (fst b) && String.eqb (snd a) (snd b).

(** Tuples compare lexicographically. *)
Definition pair_leb (a b : string * string) : bool :=
  if String.eqb (fst a) (fst b) then String.leb (snd a) (snd b)
  else String.leb (fst a) (fst b).

Definition both (a b : option string) : option (string * string) :=
  match a, b with
  | Some x, Some y => Some (x, y)
  | _, _ => None
  end.

(** ** Sorting a table by a column

    [sort_values(col, ascending)] computes a row order from the column and
    takes the rows in that order.  pandas sorts the non-missing cells with
    [numpy.argsort] (for a descending sort it reverses the cells, sorts them
    in increasing order and reverses the result) and puts the rows with a
    missing cell last.  The script keeps the default [kind='quicksort'], for
    which numpy promises a sorted order and nothing about equal cells, so
    [argsort] is a parameter of the development. *)

(** [a[mask]] *)
Definition bool_index {A : Type} (a : list A) (mask : list bool) : list A :=
  map fst (filter snd (combine a mask)).

(** [frame.iloc[indexer]]; an [argsort] result is always in range. *)
Definition iloc {A : Type} (frame : list A) (indexer : list nat) : list A :=
  flat_map (fun i => match nth_error frame i with
                     | Some r => [r]
                     | None => []
                     end) indexer.

Definition head {A : Type} (n : nat) (frame : list A) : list A := firstn n frame.

Section Sorting.
Variable argsort : list num -> list nat.

Definition nargsort (items : list num) (ascending : bool) : list nat :=
  let idx := seq 0 (List.length items) in
  let mask := map isnan items in
  let non_nans := bool_index items (map negb mask) in
  let non_nan_idx := bool_index idx (map negb mask) in
  let nan_idx := bool_index idx mask in
  let non_nans := if ascending then non_nans else rev non_nans in
  let non_nan_idx := if ascending then non_nan_idx else rev non_nan_idx in
  let indexer := iloc non_nan_idx (argsort non_nans) in
  let indexer := if ascending then indexer else rev indexer in
  indexer ++ nan_idx.

Definition sort_values {A : Type} (col : A -> num) (ascending : bool)
           (frame : list A) : list A :=
  iloc frame (nargsort (map col frame) ascending).
End Sorting.

(** ** The grouped summaries *)

Module Summary.
(** A row of the regional or the segment summary, after the renaming of the
    columns. *)
Record row : Type := {
  index : string;
  Total_Sales : num;
  Total_Revenue : num;
  Avg_Discount_Rate : num;
  Order_Count : nat
}.
End Summary.

Module Product.
Record row : Type := {
  index : string * string;
  Total_Revenue : num;
  Total_Sales : num;
  Quantity : num;
  Profit_Margin : num
}.
End Product.

Module Margins.
Record row : Type := {
  index : string;
  Profit_Margin : num;
  Total_Revenue : num;
  Total_Sales : num;
  Order_ID : nat
}.
End Margins.

Module Channel.
Record row : Type := {
  index : string;
  Total_Sales : num;
  Total_Revenue : num;
  Order_ID : nat;
  Discount : num;
  Sales_pct : num;
  Revenue_pct : num
}.
End Channel.

(** [.agg({...}).round(2)] on one group; the count column is an integer
    column and is left as it is by the rounding. *)
Definition summary_agg (g : string * list prepared) : Summary.row :=
  let rows := snd g in
  {| Summary.index := fst g;
     Summary.Total_Sales := round2 (col_sum (map Total_Sales rows));
     Summary.Total_Revenue := round2 (col_sum (map Total_Revenue rows));
     Summary.Avg_Discount_Rate :=
       round2 (col_mean (map (fun r => Discount (base r)) rows));
     Summary.Order_Count := col_count (map (fun r => Order_ID (base r)) rows) |}.

Definition product_agg (g : (string * string) * list prepared) : Product.row :=
  let rows := snd g in
  {| Product.index := fst g;
     Product.Total_Revenue := round2 (col_sum (map Total_Revenue rows));
     Product.Total_Sales := round2 (col_sum (map Total_Sales rows));
     Product.Quantity := round2 (col_sum (map (fun r => Quantity (base r)) rows));
     Product.Profit_Margin := round2 (col_mean (map Profit_Margin rows)) |}.

Definition margins_agg (g : string * list prepared) : Margins.row :=
  let rows := snd g in
  {| Margins.index := fst g;
     Margins.Profit_Margin := round2 (col_mean (map Profit_Margin rows));
     Margins.Total_Revenue := round2 (col_sum (map Total_Revenue rows));
     Margins.Total_Sales := round2 (col_sum (map Total_Sales rows));
     Margins.Order_ID := col_count (map (fun r => Order_ID (base r)) rows) |}.

(** The channel table: first the aggregation, where the two percentage
    columns are still empty, then the percentages, computed from the rounded
    sums and their column total. *)
Definition channel_agg (g : string * list prepared) : Channel.row :=
  let rows := snd g in
  {| Channel.index := fst g;
     Channel.Total_Sales := round2 (col_sum (map Total_Sales rows));
     Channel.Total_Revenue := round2 (col_sum (map Total_Revenue rows));
     Channel.Order_ID := col_count (map (fun r => Order_ID (base r)) rows);
     Channel.Discount := round2 (col_mean (map (fun r => Discount (base r)) rows));
     Channel.Sales_pct := NaN;
     Channel.Revenue_pct := NaN |}.

Definition percent_of (x sum : num) : num := round2 (fmul (fdiv x sum) (Fin 100)).

Definition with_percentages (sales_sum revenue_sum : num) (r : Channel.row)
  : Channel.row :=
  {| Channel.index := Channel.index r;
     Channel.Total_Sales := Channel.Total_Sales r;
     Channel.Total_Revenue := Channel.Total_Revenue r;
     Channel.Order_ID := Channel.Order_ID r;
     Channel.Discount := Channel.Discount r;
     Channel.Sales_pct := percent_of (Channel.Total_Sales r) sales_sum;
     Channel.Revenue_pct := percent_of (Channel.Total_Revenue r) revenue_sum |}.

Definition analyze_order_mode (df : list prepared) : list Channel.row :=
  let order_mode_analysis :=
    map channel_agg
        (groupby (fun r => Order_Mode (base r)) String.eqb String.leb df) in
  let sales_sum := col_sum (map Channel.Total_Sales order_mode_analysis) in
  let revenue_sum := col_sum (map Channel.Total_Revenue order_mode_analysis) in
  map (with_percentages sales_sum revenue_sum) order_mode_analysis.

Section Analyses.
Variable argsort : list num -> list nat.

Definition regional_summary (df : list prepared) : list Summary.row :=
  sort_values argsort Summary.Total_Revenue false
    (map summary_agg (groupby Region_Final String.eqb String.leb df)).

Definition segment_summary (df : list prepared) : list Summary.row :=
  sort_values argsort Summary.Total_Revenue false
    (map summary_agg
         (groupby (fun r => Some (Segment r)) String.eqb String.leb df)).

Definition analyze_by_region_segment (df : list prepared)
  : list Summary.row * list Summary.row :=
  (regional_summary df, segment_summary df).

Definition product_revenue (df : list prepared) : list Product.row :=
  map product_agg
      (groupby (fun r => both (Product_Name (base r)) (Category (base r)))
               pair_eqb pair_leb df).

Definition top_products (df : list prepared) : list Product.row :=
  head 5 (sort_values argsort Product.Total_Revenue false (product_revenue df)).

Definition bottom_products (df : list prepared) : list Product.row :=
  head 5 (sort_values argsort Product.Total_Revenue true (product_revenue df)).

Definition analyze_products (df : list prepared)
  : list Product.row * list Product.row * list Product.row :=
  (top_products df, bottom_products df, product_revenue df).

Definition analyze_categories_margins (df : list prepared) : list Margins.row :=
  sort_values argsort Margins.Profit_Margin false
    (map margins_agg
         (groupby (fun r => Category (base r)) String.eqb String.leb df)).
End Analyses.

(** ** The report

    [generate_insights_report] formats the summaries into text.  What can
    stop it is a lookup: a positional access into an index that is too
    short, a label that is not in the channel table, or the formatting of a
    missing date.  The model performs the lookups in the order of the source
    and returns the values that the text is built from. *)

Inductive error : Type :=
| KeyError (label : string)
| IndexError
| ValueError.

Inductive result (A : Type) : Type :=
| Ok (a : A)
| Err (e : error).

Arguments Ok {A} a.
Arguments Err {A} e.

Definition bind {A B : Type} (c : result A) (k : A -> result B) : result B :=
  match c with
  | Ok a => k a
  | Err e => Err e
  end.

Notation "x <- c ;; k" := (bind c (fun x => k))
  (at level 61, c at next level, right associativity).

(** [index[i]] *)
Definition index_at {A : Type} (l : list A) (i : nat) : result A :=
  match nth_error l i with
  | Some a => Ok a
  | None => Err IndexError
  end.

(** [index[-1]] *)
Definition index_last {A : Type} (l : list A) : result A :=
  match rev l with
  | a :: _ => Ok a
  | [] => Err IndexError
  end.

(** [order_mode_analysis.loc[label, column]]; the column always exists. *)
Definition loc (label : string) (frame : list Channel.row) : result Channel.row :=
  match find (fun r => String.eqb (Channel.index r) label) frame with
  | Some r => Ok r
  | None => Err (KeyError label)
  end.

(** [min()] and [max()] of the date column skip missing dates and are [NaT]
    when there is none; [NaT.strftime] raises. *)
Definition fold_dates (f : Z -> Z -> Z) (l : list (option Z)) : option Z :=
  fold_right (fun d acc => match d, acc with
                           | Some x, Some y => Some (f x y)
                           | Some x, None => Some x
                           | None, _ => acc
                           end) None l.

Definition strftime (d : option Z) : result Z :=
  match d with
  | Some x => Ok x
  | None => Err ValueError
  end.

Record report : Type := {
  total_orders : nat;
  first_date : Z;
  last_date : Z;
  top_regions : list Summary.row;
  leading_region : string;
  top_segments : list Summary.row;
  leading_segment : string;
  best_products : list Product.row;
  worst_products : list Product.row;
  top_categories : list Margins.row;
  leading_category : string;
  mean_margin : num;
  channels : list Channel.row;
  online_vs_store : num;
  leader : string;
  balanced : bool;
  online_discount : num;
  in_store_discount : num;
  second_region : string;
  last_region : string;
  second_category : string
}.

Definition generate_insights_report
           (df : list prepared)
           (regional_summary segment_summary : list Summary.row)
           (top_products bottom_products : list Product.row)
           (category_margins : list Margins.row)
           (order_mode_analysis : list Channel.row) : result report :=
  let dates := map (fun r => Order_Date (base r)) df in
  first <- strftime (fold_dates Z.min dates) ;;
  last <- strftime (fold_dates Z.max dates) ;;
  region0 <- index_at regional_summary 0 ;;
  segment0 <- index_at segment_summary 0 ;;
  category0 <- index_at category_margins 0 ;;
  online <- loc "Online" order_mode_analysis ;;
  in_store <- loc "In-Store" order_mode_analysis ;;
  let online_vs_store := fsub (Channel.Sales_pct online) (Channel.Sales_pct in_store) in
  let leader := if flt (Fin 0) online_vs_store then "Online" else "In-Store" in
  region1 <- index_at regional_summary 1 ;;
  region_last <- index_last regional_summary ;;
  category1 <- index_at category_margins 1 ;;
  Ok {| total_orders := List.length df;
        first_date := first;
        last_date := last;
        top_regions := head 3 regional_summary;
        leading_region := Summary.index region0;
        top_segments := head 3 segment_summary;
        leading_segment := Summary.index segment0;
        best_products := top_products;
        worst_products := bottom_products;
        top_categories := head 5 category_margins;
        leading_category := Margins.index category0;
        mean_margin := col_mean (map Profit_Margin df);
        channels := order_mode_analysis;
        online_vs_store := online_vs_store;
        leader := leader;
        balanced := flt (fabs online_vs_store) (Fin 10);
        online_discount := Channel.Discount online;
        in_store_discount := Channel.Discount in_store;
        second_region := Summary.index region1;
        last_region := Summary.index region_last;
        second_category := Margins.index category1 |}.

(** ** [main]

    The run on the two loaded tables, as far as the report.  Reading the
    files, the console output and the charts compute nothing that the
    report uses and are left out.  The script draws the charts before it
    writes the report, and the drawing can fail on its own (a pie chart of
    sales that are negative or add up to nothing): [Err] says that the run
    fails, at the latest in the report, and [Ok] that the report is written
    once the charts are drawn. *)
Definition main (argsort : list num -> list nat)
           (sales_df : list sale) (stores_df : list store) : result report :=
  let df := clean_and_prepare_data sales_df stores_df in
  let '(regional_summary, segment_summary) := analyze_by_region_segment argsort df in
  let '(top_products, bottom_products, _) := analyze_products argsort df in
  let category_margins := analyze_categories_margins argsort df in
  let order_mode_analysis := analyze_order_mode df in
  generate_insights_report df regional_summary segment_summary
                           top_products bottom_products
                           category_margins order_mode_analysis.

(** ** Two sorting orders

    What numpy promises of [argsort]: the result lists every position once
    and the cells read in that order increase.  [argsort_stable] keeps equal
    cells in their input order, [argsort_unstable] reverses them; both meet
    the promise. *)

Definition fleP (a b : num) : Prop := fle a b = true.

Definition argsort_spec (argsort : list num -> list nat) : Prop :=
  forall v, forallb notna v = true ->
    Permutation (argsort v) (seq 0 (List.length v)) /\
    StronglySorted fleP (map (fun i => nth i v NaN) (argsort v)).

(** Insertion sort of the numbered cells; [before a b] decides whether a
    cell [a] is put in front of a cell [b] met later in the input. *)
Fixpoint insert_cell (before : num -> num -> bool)
         (c : nat * num) (l : list (nat * num)) : list (nat * num) :=
  match l with
  | [] => [c]
  | h :: t =>
      if before (snd c) (snd h) then c :: l else h :: insert_cell before c t
  end.

Definition enumerate (v : list num) : list (nat * num) :=
  combine (seq 0 (List.length v)) v.

Definition argsort_by (before : num -> num -> bool) (v : list num) : list nat :=
  map fst (fold_right (insert_cell before) [] (enumerate v)).

Definition argsort_stable : list num -> list nat := argsort_by fle.

Definition argsort_unstable : list num -> list nat := argsort_by flt.

(** * Notions used in the statements *)

(** ** Amounts *)

(** Price, cost and quantity are finite numbers. *)
Definition valid_amounts (s : sale) : bool :=
  isfinite (Sales s) && isfinite (Cost_Price s) && isfinite (Quantity s).

(** Cells read from a file: a finite number or a missing cell. *)
Definition is_cell (x : num) : bool :=
  match x with
  | Fin _ | NaN => true
  | PInf | NInf => false
  end.

Definition file_cells (s : sale) : bool :=
  is_cell (Sales s) && is_cell (Cost_Price s) && is_cell (Quantity s).

Definition Qsum (l : list Q) : Q := fold_right Qplus 0 l.

(** The cells of a column are missing or equal to [d], and one is [d]. *)
Definition uniform (d : Q) (l : list num) : Prop :=
  (forall x, In x l -> x = NaN \/ x =f= Fin d) /\
  (exists x, In x l /\ x =f= Fin d).

(** ** Rows behind a summary row *)

(** The number of prepared rows a sale produces. *)
Definition copies (s : sale) (stores : list store) : nat :=
  Nat.max 1 (List.length (filter (key_match s) stores)).

Definition discounts (rows : list prepared) : list num :=
  map (fun r => Discount (base r)) rows.

Definition order_ids (rows : list prepared) : list (option string) :=
  map (fun r => Order_ID (base r)) rows.

(** The rows with a discount cell, and the rows without one. *)
Definition discounted (rows : list prepared) : list prepared :=
  filter (fun r => notna (Discount (base r))) rows.

Definition undiscounted (rows : list prepared) : list prepared :=
  filter (fun r => isnan (Discount (base r))) rows.

Definition region_rows (df : list prepared) (label : string) : list prepared :=
  filter (has_key Region_Final String.eqb label) df.

Definition segment_rows (df : list prepared) (label : string) : list prepared :=
  filter (has_key (fun r => Some (Segment r)) String.eqb label) df.

Definition channel_rows (df : list prepared) (label : string) : list prepared :=
  filter (has_key (fun r => Order_Mode (base r)) String.eqb label) df.

Definition category_rows (df : list prepared) (label : string) : list prepared :=
  filter (has_key (fun r => Category (base r)) String.eqb label) df.

(** The channel table before the percentage columns are added. *)
Definition order_mode_agg (df : list prepared) : list Channel.row :=
  map channel_agg
      (groupby (fun r => Order_Mode (base r)) String.eqb String.leb df).

(** ** Order of the keys *)

(** Across two adjacent rows the key does not go up: the second key is at
    most the first, or it is missing (rows without a key come last). *)
Definition descends (a b : num) : Prop := fle b a = true \/ isnan b = true.

Definition ascends (a b : num) : Prop := fle a b = true \/ isnan b = true.

Definition never_increases (a b : num) : Prop := flt a b = false.

Definition at_least (a b : num) : Prop := fle b a = true.

(** Two keys tie when neither is below the other. *)
Definition tie (a b : num) : Prop := fle a b = true /\ fle b a = true.

Definition cell_le (c1 c2 : nat * num) : Prop := fleP (snd c1) (snd c2).

Definition in_range {A : Type} (frame : list A) (indexer : list nat) : Prop :=
  Forall (fun i => (i < List.length frame)%nat) indexer.

(** The rows with a key, the rows without, and rows taken in the order
    [argsort] gives for their keys. *)
Definition keyed {A : Type} (col : A -> num) (frame : list A) : list A :=
  filter (fun r => notna (col r)) frame.

Definition unkeyed {A : Type} (col : A -> num) (frame : list A) : list A :=
  filter (fun r => isnan (col r)) frame.

Definition in_order {A : Type} (argsort : list num -> list nat)
           (col : A -> num) (rows : list A) : list A :=
  iloc rows (argsort (map col rows)).

(** ** The lookups of the report *)

(** What the lookups of the report need of the prepared table: a date, two
    regions, a segment, two categories and the two channel labels. *)
Definition report_lookups_ok (df : list prepared) : Prop :=
  (exists d, In (Some d) (map (fun r => Order_Date (base r)) df)) /\
  (2 <= List.length (unique String.eqb (key_cells Region_Final df)))%nat /\
  (1 <= List.length
          (unique String.eqb (key_cells (fun r => Some (Segment r)) df)))%nat /\
  (2 <= List.length
          (unique String.eqb
                  (key_cells (fun r => Category (base r)) df)))%nat /\
  In "Online" (key_cells (fun r => Order_Mode (base r)) df) /\
  In "In-Store" (key_cells (fun r => Order_Mode (base r)) df).

(** Two sales rows with the same date and the same labels. *)
Definition same_labels (s s' : sale) : Prop :=
  Order_Date s = Order_Date s' /\
  Category s = Category s' /\
  City s = City s' /\
  Postal_Code s = Postal_Code s' /\
  Region s = Region s' /\
  Order_Mode s = Order_Mode s'.

(** The same order at another price. *)
Definition reprice (p : num) (s : sale) : sale :=
  {| Order_ID := Order_ID s;
     Order_Date := Order_Date s;
     Customer_ID := Customer_ID s;
     Product_ID := Product_ID s;
     Product_Name := Product_Name s;
     Category := Category s;
     Sub_Category := Sub_Category s;
     City := City s;
     Postal_Code := Postal_Code s;
     Region := Region s;
     Quantity := Quantity s;
     Sales := p;
     Cost_Price := Cost_Price s;
     Discount := Discount s;
     Order_Mode := Order_Mode s |}.

(** ** The range of the amounts

    pandas multiplies and adds in 64-bit integers or in binary floating
    point.  On amounts of at most a million in magnitude, in a table of at
    most a million rows, no integer product or sum wraps around and no
    floating-point one overflows; the order that the exact arithmetic gives
    between two results is then the order of the computed ones, rounding
    being monotone. *)
Definition million : Q := 1000000.

Definition modest (x : num) : bool :=
  match x with
  | Fin q => Qle_bool (Qabs q) million
  | _ => false
  end.

(** Price, cost and quantity are present and modest. *)
Definition modest_amounts (s : sale) : bool :=
  modest (Sales s) && modest (Cost_Price s) && modest (Quantity s).

(** A whole number of hundredths, and a whole number. *)
Definition hundredths (x : num) : bool :=
  match x with
  | Fin q => Qeq_bool (inject_Z (Qfloor (q * 100))) (q * 100)
  | _ => false
  end.

Definition whole (x : num) : bool :=
  match x with
  | Fin q => Qeq_bool (inject_Z (Qfloor q)) q
  | _ => false
  end.

(** An ordinary sale: a whole quantity that is not negative, at a price in
    whole hundredths that covers a cost that is not negative, all modest.
    On such rows every sum of the script is a whole number of hundredths,
    which the binary arithmetic keeps apart from the next one. *)
Definition ordinary_sale (s : sale) : bool :=
  modest_amounts s &&
  hundredths (Sales s) && hundredths (Cost_Price s) && whole (Quantity s) &&
  fle (Fin 0) (Cost_Price s) && fle (Cost_Price s) (Sales s) &&
  fle (Fin 0) (Quantity s).

Definition modest_table {A : Type} (rows : list A) : Prop :=
  (Z.of_nat (List.length rows) <= 1000000)%Z.

(** ** Order of the input rows *)

(** The (product, category) pairs of the input rows, in the order in which
    they first occur. *)
Definition first_seen (sales : list sale) : list (string * string) :=
  unique pair_eqb
         (key_cells (fun s => both (Product_Name s) (Category s)) sales).

(** The same order without its date. *)
Definition undated (s : sale) : sale :=
  {| Order_ID := Order_ID s;
     Order_Date := None;
     Customer_ID := Customer_ID s;
     Product_ID := Product_ID s;
     Product_Name := Product_Name s;
     Category := Category s;
     Sub_Category := Sub_Category s;
     City := City s;
     Postal_Code := Postal_Code s;
     Region := Region s;
     Quantity := Quantity s;
     Sales := Sales s;
     Cost_Price := Cost_Price s;
     Discount := Discount s;
     Order_Mode := Order_Mode s |}.

(** The table with its first order given away: the price of that order
    is 0. *)
Definition first_free (sales : list sale) : list sale :=
  match sales with
  | [] => []
  | s :: rest => reprice (Fin 0) s :: rest
  end.

(** * Sample tables *)

(** An order row; the date is 4 July 2025 as a day number. *)
Definition order (id product category city postal : string)
           (region : option string) (quantity sales cost discount : num)
           (mode : string) : sale :=
  {| Order_ID := Some id;
     Order_Date := Some 20250704%Z;
     Customer_ID := Some "CUST-1";
     Product_ID := Some product;
     Product_Name := Some product;
     Category := Some category;
     Sub_Category := Some "General";
     City := Some city;
     Postal_Code := Some postal;
     Region := region;
     Quantity := quantity;
     Sales := sales;
     Cost_Price := cost;
     Discount := discount;
     Order_Mode := Some mode |}.

Definition shop (city postal : string) (region : option string) : store :=
  {| store_City := Some city;
     store_Postal_Code := Some postal;
     store_Region := region |}.

(** A returned item: quantity -1 at price 2 and cost 1. *)
Definition returned_item : sale :=
  order "R-1" "Kettle" "Kitchen" "Leeds" "LS1" (Some "North")
        (Fin (-1)) (Fin 2) (Fin 1) (Fin 0) "Online".

(** One order in a city that the store table lists twice. *)
Definition leeds_order : sale :=
  order "L-1" "Kettle" "Kitchen" "Leeds" "LS1" (Some "North")
        (Fin 1) (Fin 20) (Fin 12) (Fin 0) "In-Store".

Definition two_leeds_shops : list store :=
  [shop "Leeds" "LS1" (Some "Yorkshire"); shop "Leeds" "LS1" (Some "North East")].

(** An order without a region of its own, in a city with no store. *)
Definition unplaced_order : sale :=
  order "U-1" "Kettle" "Kitchen" "Ripon" "HG4" None
        (Fin 1) (Fin 20) (Fin 12) (Fin 0) "Online".

(** Two online orders, one with a discount of one eighth and one without a
    discount cell. *)
Definition eighth_off : list sale :=
  [order "D-1" "Tea" "Food-Tea" "York" "YO1" (Some "North")
         (Fin 1) (Fin 8) (Fin 4) (Fin (1 # 8)) "Online";
   order "D-2" "Tea" "Food-Tea" "York" "YO1" (Some "North")
         (Fin 1) (Fin 8) (Fin 4) NaN "Online"].

(** Three online orders, two at a discount of 15 percent and one without a
    discount cell. *)
Definition fifteen_off : list sale :=
  [order "E-1" "Tea" "Food-Tea" "York" "YO1" (Some "North")
         (Fin 1) (Fin 8) (Fin 4) (Fin (15 # 100)) "Online";
   order "E-2" "Tea" "Food-Tea" "York" "YO1" (Some "North")
         (Fin 1) (Fin 8) (Fin 4) NaN "Online";
   order "E-3" "Tea" "Food-Tea" "York" "YO1" (Some "North")
         (Fin 1) (Fin 8) (Fin 4) (Fin (15 # 100)) "Online"].

(** An in-store day: two regions, two categories, no online order. *)
Definition in_store_only : list sale :=
  [leeds_order;
   order "Y-1" "Tea" "Food-Tea" "York" "YO1" (Some "Yorkshire")
         (Fin 3) (Fin 100) (Fin 60) (Fin 0) "In-Store"].

(** Two free samples, one per channel: price 0, cost 1. *)
Definition free_samples : list sale :=
  [order "F-1" "Tea" "Food-Tea" "York" "YO1" (Some "Yorkshire")
         (Fin 1) (Fin 0) (Fin 1) (Fin 0) "Online";
   order "F-2" "Tea" "Food-Tea" "York" "YO1" (Some "Yorkshire")
         (Fin 1) (Fin 0) (Fin 1) (Fin 0) "In-Store"].

(** Three channels with sales of 1 each: the shares are 33.33 each and add
    up to 99.99. *)
Definition three_channels : list sale :=
  [order "T-1" "Tea" "Food-Tea" "York" "YO1" None
         (Fin 1) (Fin 1) (Fin 0) (Fin 0) "Online";
   order "T-2" "Tea" "Food-Tea" "York" "YO1" None
         (Fin 1) (Fin 1) (Fin 0) (Fin 0) "In-Store";
   order "T-3" "Tea" "Food-Tea" "York" "YO1" None
         (Fin 1) (Fin 1) (Fin 0) (Fin 0) "Phone"].

(** Four orders in three regions and three categories. *)
Definition small_day : list sale :=
  [order "S-1" "Tea" "Food-Tea" "York" "YO1" (Some "Yorkshire")
         (Fin 3) (Fin 100) (Fin 60) (Fin (1 # 10)) "Online";
   order "S-2" "Kettle" "Kitchen" "Leeds" "LS1" (Some "North")
         (Fin 1) (Fin 20) (Fin 12) (Fin 0) "In-Store";
   order "S-3" "Socks" "Clothing - Men" "Hull" "HU1" (Some "Humber")
         (Fin 5) (Fin 4) (Fin 1) NaN "In-Store";
   order "S-4" "Tea" "Food-Tea" "Hull" "HU1" (Some "Humber")
         (Fin 1) (Fin 100) (Fin 60) (Fin (1 # 10)) "Online"].

(** Two products of the same category with the same revenue, 8 each. *)
Definition tied_products : list sale :=
  [order "P-1" "Kettle" "Kitchen" "Leeds" "LS1" (Some "North")
         (Fin 1) (Fin 20) (Fin 12) (Fin 0) "In-Store";
   order "P-2" "Teapot" "Kitchen" "Leeds" "LS1" (Some "North")
         (Fin 2) (Fin 10) (Fin 6) (Fin 0) "Online"].

(** The small day with a free gift, the only order of its category. *)
Definition gift_day : list sale :=
  small_day ++
  [order "G-1" "Sample" "Gifts" "York" "YO1" (Some "Yorkshire")
         (Fin 1) (Fin 0) (Fin 0) (Fin 0) "Online"].

(** * Further parts of the script *)

(** ** Headline figures

    The figures that [exploratory_analysis] prints and that the executive
    summary of the report repeats: [len(df)], the two [nunique()] counts,
    the two sums and the mean order value.  [nunique] counts the distinct
    cells that are not missing.  The date range and the listing of the
    columns with missing cells are printed only and are left out. *)

Definition nunique (l : list (option string)) : nat :=
  List.length (unique String.eqb (key_cells (fun o => o) l)).

Record key_metrics : Type := {
  metric_orders : nat;
  metric_customers : nat;
  metric_products : nat;
  metric_revenue : num;
  metric_sales : num;
  metric_order_value : num
}.

Definition exploratory_analysis (df : list prepared) : key_metrics :=
  {| metric_orders := List.length df;
     metric_customers := nunique (map (fun r => Customer_ID (base r)) df);
     metric_products := nunique (map (fun r => Product_ID (base r)) df);
     metric_revenue := col_sum (map Total_Revenue df);
     metric_sales := col_sum (map Total_Sales df);
     metric_order_value := col_mean (map Total_Sales df) |}.

(** ** Chart data

    What [create_visualizations] hands to the four panels of the dashboard:
    the regional summary sorted upwards on revenue for the horizontal bars,
    the segment summary, the sales of each channel for the pie, and the
    first eight rows of the category summary.  Drawing is not modelled. *)

Record dashboard : Type := {
  revenue_bars : list Summary.row;
  segment_bars : list Summary.row;
  order_mode_data : list (string * num);
  top_margin_categories : list Margins.row
}.

Definition create_visualizations (argsort : list num -> list nat)
           (regional_summary segment_summary : list Summary.row)
           (category_margins : list Margins.row)
           (order_mode_analysis : list Channel.row) : dashboard :=
  {| revenue_bars := sort_values argsort Summary.Total_Revenue true regional_summary;
     segment_bars := segment_summary;
     order_mode_data :=
       map (fun r => (Channel.index r, Channel.Total_Sales r)) order_mode_analysis;
     top_margin_categories := head 8 category_margins |}.

(** The table behind the sunburst chart:
    [df.groupby(['Category', 'Sub-Category'])['Total Revenue'].sum()], which
    is not rounded. *)
Definition category_revenue (df : list prepared) : list ((string * string) * num) :=
  map (fun g => (fst g, col_sum (map Total_Revenue (snd g))))
      (groupby (fun r => both (Category (base r)) (Sub_Category (base r)))
               pair_eqb pair_leb df).

(** ** The report of a prepared table

    [generate_insights_report] as [main] calls it: on the prepared table and
    on the summaries computed from that table.  [main] draws the charts
    before it asks for the report and the drawing is not modelled, so the
    further statements on the outcome of the report are about this call and
    not about what happens before it. *)
Definition insights_of (argsort : list num -> list nat) (df : list prepared)
  : result report :=
  generate_insights_report df
    (regional_summary argsort df) (segment_summary argsort df)
    (top_products argsort df) (bottom_products argsort df)
    (analyze_categories_margins argsort df) (analyze_order_mode df).

(** ** Notions for the further properties *)

(** The rows that [groupby] keeps: those with a key. *)
Definition keyed_rows {R K : Type} (key : R -> option K) (rows : list R) : list R :=
  filter (fun r => notnull (key r)) rows.

(** The distinct labels of a column, in order of first occurrence. *)
Definition labels {R : Type} (key : R -> option string) (rows : list R)
  : list string :=
  unique String.eqb (key_cells key rows).

Definition has_date (sales : list sale) : Prop :=
  exists s d, In s sales /\ Order_Date s = Some d.

Definition has_channel (label : string) (sales : list sale) : Prop :=
  exists s, In s sales /\ Order_Mode s = Some label.


Definition sum_counts (l : list nat) : nat := fold_right Nat.add 0%nat l.

Definition the_segments : list string :=
  ["Food & Beverages"; "Home & Living"; "Health & Beauty"; "Fashion"; "Other"].

(** * Properties *)

(** ** Facts about the prepared table *)

Lemma in_merge_regions (s : sale) (stores : list store) (x : option string) :
  In x (merge_regions s stores) ->
  (filter (key_match s) stores = [] /\ x = None) \/
  (exists t, In t stores /\ key_match s t = true /\ x = store_Region t).
Proof.
  unfold merge_regions.
  destruct (filter (key_match s) stores) as [|t ms] eqn:E.
  - intros [<- | []]. now left.
  - intros H. right.
    apply in_map_iff in H as (t' & <- & Hin).
    rewrite <- E in Hin. apply filter_In in Hin as [Hs Hk].
    now exists t'.
Qed.

Lemma merge_regions_nonempty (s : sale) (stores : list store) :
  merge_regions s stores <> [].
Proof.
  unfold merge_regions.
  destruct (filter (key_match s) stores); discriminate.
Qed.

Lemma in_clean_inv (sales : list sale) (stores : list store) (r : prepared) :
  In r (clean_and_prepare_data sales stores) ->
  In (base r) sales /\
  In (Region_store r) (merge_regions (base r) stores) /\
  r = enrich (base r) (Region_store r).
Proof.
  unfold clean_and_prepare_data. intros H.
  apply in_flat_map in H as (s & Hs & H).
  apply in_map_iff in H as (x & <- & Hx).
  simpl. auto.
Qed.

Lemma in_clean_intro (sales : list sale) (stores : list store) (s : sale) :
  In s sales ->
  exists r, In r (clean_and_prepare_data sales stores) /\ base r = s.
Proof.
  intros Hs.
  destruct (merge_regions s stores) as [|x xs] eqn:E.
  - now apply merge_regions_nonempty in E.
  - exists (enrich s x). split; [|reflexivity].
    unfold clean_and_prepare_data. apply in_flat_map.
    exists s. split; [assumption|]. rewrite E. now left.
Qed.

(** ** Segment classification *)

Lemma isin_In (x : string) (l : list string) : isin x l = true <-> In x l.
Proof.
  unfold isin. rewrite existsb_exists. split.
  - intros (y & Hy & E). apply String.eqb_eq in E. now subst.
  - intros H. exists x. split; [assumption | apply String.eqb_refl].
Qed.

Lemma isin_not_In (x : string) (l : list string) : isin x l = false <-> ~ In x l.
Proof.
  rewrite <- isin_In. destruct (isin x l); split; congruence.
Qed.

(** C3. The segment is a function of the category cell alone, with the five
    rules taken in order: a category starting with "Food" is "Food &
    Beverages"; Home, Kitchen and Home Appliances are "Home & Living";
    Health, Beauty and Grooming are "Health & Beauty"; a category starting
    with "Clothing" is "Fashion"; every other category, and a missing one, is
    "Other".  Every prepared row carries the segment of its own category. *)
Theorem segment_classification :
  (forall c, startswith c "Food" = true ->
             segment_of (Some c) = "Food & Beverages") /\
  (forall c, In c ["Home"; "Kitchen"; "Home Appliances"] ->
             segment_of (Some c) = "Home & Living") /\
  (forall c, In c ["Health"; "Beauty"; "Grooming"] ->
             segment_of (Some c) = "Health & Beauty") /\
  (forall c, startswith c "Clothing" = true ->
             segment_of (Some c) = "Fashion") /\
  (forall c, startswith c "Food" = false ->
             ~ In c ["Home"; "Kitchen"; "Home Appliances"] ->
             ~ In c ["Health"; "Beauty"; "Grooming"] ->
             startswith c "Clothing" = false ->
             segment_of (Some c) = "Other") /\
  segment_of None = "Other" /\
  segment_of (Some "Food-Snacks") = "Food & Beverages" /\
  segment_of (Some "Electronics") = "Other" /\
  (forall sales stores r,
      In r (clean_and_prepare_data sales stores) ->
      Segment r = segment_of (Category (base r))).
Proof.
  repeat split.
  - intros c H. unfold segment_of. simpl. now rewrite H.
  - intros c H. simpl in H.
    destruct H as [<- | [<- | [<- | []]]]; reflexivity.
  - intros c H. simpl in H.
    destruct H as [<- | [<- | [<- | []]]]; reflexivity.
  - intros c H. unfold segment_of. simpl notna_and. rewrite H.
    destruct c as [|a c]; [discriminate|].
    unfold startswith in H. cbn [prefix] in H.
    destruct (ascii_dec "C"%char a) as [<- | ?]; [|discriminate].
    reflexivity.
  - intros c HF HH HB HC. unfold segment_of, notna_and.
    apply isin_not_In in HH, HB.
    now rewrite HF, HH, HB, HC.
  - intros sales stores r H.
    apply in_clean_inv in H as (_ & _ & ->). reflexivity.
Qed.

(** A run of the classification on a category that only the fourth rule
    accepts. *)
Lemma segment_classification_witness :
  segment_of (Some "Clothing - Kids") = "Fashion".
Proof.
  apply (proj1 (proj2 (proj2 (proj2 segment_classification)))).
  reflexivity.
Defined.

(** ** Derived amounts *)

Lemma fle_Fin (a b : Q) : fle (Fin a) (Fin b) = true <-> a <= b.
Proof. simpl. apply Qle_bool_iff. Qed.

(** Price 100, cost 60, quantity 3: revenue 40 a unit, total revenue 120,
    total sales 300, margin 40 percent. *)
Example derived_amounts :
  let r := enrich (order "E-1" "Tea" "Food-Tea" "York" "YO1" None
                         (Fin 3) (Fin 100) (Fin 60) (Fin 0) "Online") None in
  Revenue r =f= Fin 40 /\ Total_Revenue r =f= Fin 120 /\
  Total_Sales r =f= Fin 300 /\ Profit_Margin r =f= Fin 40.
Proof. repeat split. Qed.

(** C4, as stated, fails: the returned item has finite, modest amounts and a
    non-negative cost, yet its total revenue -1 exceeds its total sales -2. *)
Lemma total_revenue_le_total_sales_fails :
  exists r,
    In r (clean_and_prepare_data [returned_item] []) /\
    valid_amounts (base r) = true /\
    modest_amounts (base r) = true /\
    fle (Fin 0) (Cost_Price (base r)) = true /\
    fle (Total_Revenue r) (Total_Sales r) = false.
Proof.
  exists (enrich returned_item None).
  repeat split. now left.
Qed.

Lemma modest_finite (x : num) : modest x = true -> isfinite x = true.
Proof. now destruct x. Qed.

Lemma modest_cell (x : num) : modest x = true -> is_cell x = true.
Proof. now destruct x. Qed.

Lemma modest_file_cells (s : sale) :
  modest_amounts s = true -> file_cells s = true.
Proof.
  unfold modest_amounts, file_cells. intros H.
  apply andb_prop in H as [H H3]. apply andb_prop in H as [H1 H2].
  now rewrite !modest_cell.
Qed.

Lemma modest_valid (s : sale) :
  modest_amounts s = true -> valid_amounts s = true.
Proof.
  unfold modest_amounts, valid_amounts. intros H.
  apply andb_prop in H as [H H3]. apply andb_prop in H as [H1 H2].
  now rewrite !modest_finite.
Qed.

(** C4, amended. For every prepared row whose price, cost and quantity are
    present and modest, whose cost is non-negative and whose quantity is
    non-negative, total revenue [(sales - cost) * quantity] is at most total
    sales [sales * quantity]. *)
Theorem total_revenue_le_total_sales
        (sales : list sale) (stores : list store) (r : prepared) :
  In r (clean_and_prepare_data sales stores) ->
  modest_amounts (base r) = true ->
  fle (Fin 0) (Cost_Price (base r)) = true ->
  fle (Fin 0) (Quantity (base r)) = true ->
  fle (Total_Revenue r) (Total_Sales r) = true.
Proof.
  intros Hin Hv Hc Hq. apply modest_valid in Hv.
  apply in_clean_inv in Hin as (_ & _ & E).
  rewrite E. clear E. cbn [Total_Revenue Total_Sales enrich base] in *.
  unfold total_revenue_of, total_sales_of, revenue_of.
  unfold valid_amounts in Hv.
  destruct (Sales (base r)) as [a| | |]; try discriminate.
  destruct (Cost_Price (base r)) as [c| | |]; try discriminate.
  destruct (Quantity (base r)) as [q| | |]; try discriminate.
  apply fle_Fin in Hc, Hq. cbn [fsub fneg fadd fmul]. apply fle_Fin.
  apply Qmult_le_compat_r; [lra | assumption].
Qed.

Lemma total_revenue_le_total_sales_witness :
  let s := order "A-1" "Tea" "Food-Tea" "York" "YO1" None
                 (Fin 3) (Fin 100) (Fin 60) (Fin 0) "Online" in
  fle (Total_Revenue (enrich s None)) (Total_Sales (enrich s None)) = true.
Proof.
  intros s.
  apply (total_revenue_le_total_sales [s] [] (enrich s None));
    [now left | reflexivity | reflexivity | reflexivity].
Defined.

(** ** The left join *)

Lemma merge_regions_length (s : sale) (stores : list store) :
  List.length (merge_regions s stores) = copies s stores.
Proof.
  unfold merge_regions, copies.
  destruct (filter (key_match s) stores) as [|t ms]; [reflexivity|].
  rewrite length_map. simpl. lia.
Qed.

Lemma map_const_repeat {A B : Type} (b : B) (l : list A) :
  map (fun _ => b) l = repeat b (List.length l).
Proof. induction l as [|a l IH]; simpl; congruence. Qed.

Lemma clean_bases (sales : list sale) (stores : list store) :
  map base (clean_and_prepare_data sales stores)
  = flat_map (fun s => repeat s (copies s stores)) sales.
Proof.
  unfold clean_and_prepare_data.
  induction sales as [|s sales IH]; [reflexivity|].
  simpl. rewrite map_app, IH, map_map. f_equal.
  cbn [base enrich]. rewrite map_const_repeat.
  now rewrite merge_regions_length.
Qed.

(** C6, as stated, fails: with two store rows for the same city and postal
    code, the single order comes out of the join twice. *)
Lemma left_join_duplicates_rows :
  map base (clean_and_prepare_data [leeds_order] two_leeds_shops)
  = [leeds_order; leeds_order] /\
  map base (clean_and_prepare_data [leeds_order] two_leeds_shops)
  <> [leeds_order].
Proof.
  split; [reflexivity | discriminate].
Qed.

(** C6, amended. The join drops no transaction row, matched or not, and adds
    no foreign row; the prepared table has exactly the original rows, in
    their order, when no transaction matches more than one store row
    (otherwise a transaction is repeated once per matching store row). *)
Theorem left_join_preserves_rows (sales : list sale) (stores : list store) :
  (forall s, In s sales -> In s (map base (clean_and_prepare_data sales stores))) /\
  (forall r, In r (clean_and_prepare_data sales stores) -> In (base r) sales) /\
  ((forall s, In s sales ->
              (List.length (filter (key_match s) stores) <= 1)%nat) ->
   map base (clean_and_prepare_data sales stores) = sales) /\
  map base (clean_and_prepare_data sales stores)
  = flat_map (fun s => repeat s (copies s stores)) sales.
Proof.
  split; [|split; [|split; [|apply clean_bases]]].
  - intros s Hs.
    destruct (in_clean_intro sales stores s Hs) as (r & Hr & <-).
    now apply in_map.
  - intros r Hr. now apply in_clean_inv in Hr.
  - intros Hu. rewrite clean_bases.
    induction sales as [|s sales IH]; [reflexivity|].
    simpl. rewrite IH by (intros; apply Hu; now right).
    assert (H : copies s stores = 1%nat).
    { unfold copies. specialize (Hu s (or_introl eq_refl)). lia. }
    now rewrite H.
Qed.

Lemma left_join_preserves_rows_witness :
  map base (clean_and_prepare_data [leeds_order; returned_item]
                                   [shop "Leeds" "LS1" (Some "Yorkshire")])
  = [leeds_order; returned_item].
Proof.
  apply (proj1 (proj2 (proj2 (left_join_preserves_rows
                                [leeds_order; returned_item]
                                [shop "Leeds" "LS1" (Some "Yorkshire")])))).
  intros s [<- | [<- | []]]; vm_compute; lia.
Defined.

(** ** Facts about values, rounding and the reductions *)

Lemma feq_refl (x : num) : x =f= x.
Proof. destruct x; simpl; auto with qarith. Qed.

Lemma feq_sym (x y : num) : x =f= y -> y =f= x.
Proof. destruct x, y; simpl; auto with qarith. Qed.

Lemma feq_trans (x y z : num) : x =f= y -> y =f= z -> x =f= z.
Proof.
  destruct x, y, z; simpl; try tauto. intros H1 H2. now rewrite H1.
Qed.

Lemma rint_comp (p q : Q) : p == q -> rint p = rint q.
Proof.
  intros E. unfold rint.
  rewrite (Qfloor_comp _ _ E).
  assert (E' : p - inject_Z (Qfloor q) == q - inject_Z (Qfloor q))
    by now rewrite E.
  now rewrite (Qcompare_comp _ _ E' _ _ (Qeq_refl (1 # 2))).
Qed.

Lemma Qround2_comp (p q : Q) : p == q -> Qround2 p == Qround2 q.
Proof.
  intros E. unfold Qround2.
  rewrite (rint_comp (p * 100) (q * 100)); [reflexivity | now rewrite E].
Qed.

Lemma round2_feq (x y : num) : x =f= y -> round2 x =f= round2 y.
Proof.
  destruct x, y; simpl; try tauto. apply Qround2_comp.
Qed.

(** Rounding to the nearest integer moves a value by at most one half. *)
Lemma rint_bound (q : Q) : Qabs (inject_Z (rint q) - q) <= 1 # 2.
Proof.
  pose proof (Qfloor_le q) as Hlo.
  pose proof (Qlt_floor q) as Hhi.
  rewrite inject_Z_plus in Hhi. change (inject_Z 1) with 1 in Hhi.
  apply Qabs_Qle_condition. unfold rint.
  destruct (Qcompare (q - inject_Z (Qfloor q)) (1 # 2)) eqn:C.
  - apply Qeq_alt in C.
    destruct (Z.even (Qfloor q)).
    + split; lra.
    + rewrite inject_Z_plus. change (inject_Z 1) with 1. split; lra.
  - apply Qlt_alt in C. split; lra.
  - apply Qgt_alt in C. rewrite inject_Z_plus. change (inject_Z 1) with 1.
    split; lra.
Qed.

(** Rounding to two decimals moves a value by at most half a hundredth. *)
Lemma Qround2_bound (q : Q) : Qabs (Qround2 q - q) <= 1 # 200.
Proof.
  pose proof (rint_bound (q * 100)) as H.
  apply Qabs_Qle_condition in H. apply Qabs_Qle_condition.
  unfold Qround2.
  set (z := inject_Z (rint (q * 100))) in *.
  assert (E : z / 100 == z * (1 # 100)) by (field).
  rewrite E. split; lra.
Qed.

(** A value with at most two decimals is left as it is. *)
Lemma Qround2_hundredths (n : Z) : Qround2 (inject_Z n / 100) == inject_Z n / 100.
Proof.
  unfold Qround2.
  assert (E : inject_Z n / 100 * 100 == inject_Z n) by field.
  rewrite (rint_comp _ _ E).
  unfold rint. rewrite Qfloor_Z.
  assert (C : Qcompare (inject_Z n - inject_Z n) (1 # 2) = Lt).
  { rewrite <- Qlt_alt. lra. }
  rewrite C. reflexivity.
Qed.

Lemma fadd_cell (x y : num) :
  is_cell x = true -> is_cell y = true -> is_cell (fadd x y) = true.
Proof. destruct x, y; simpl; congruence. Qed.

Lemma fsub_cell (x y : num) :
  is_cell x = true -> is_cell y = true -> is_cell (fsub x y) = true.
Proof. destruct x, y; simpl; congruence. Qed.

Lemma fmul_cell (x y : num) :
  is_cell x = true -> is_cell y = true -> is_cell (fmul x y) = true.
Proof. destruct x, y; simpl; congruence. Qed.

Lemma round2_finite (x : num) : isfinite x = true -> isfinite (round2 x) = true.
Proof. destruct x; simpl; congruence. Qed.

Lemma total_finite (l : list num) :
  forallb isfinite l = true -> isfinite (total l) = true.
Proof.
  induction l as [|x l IH]; [reflexivity|].
  simpl. intros H. apply andb_prop in H as [Hx Hl].
  specialize (IH Hl). destruct x; try discriminate.
  destruct (total l); try discriminate. reflexivity.
Qed.

Lemma dropna_cells_finite (l : list num) :
  forallb is_cell l = true -> forallb isfinite (dropna l) = true.
Proof.
  induction l as [|x l IH]; [reflexivity|].
  simpl. intros H. apply andb_prop in H as [Hx Hl].
  destruct x; simpl; try discriminate; auto.
Qed.

(** The sum of a column of file cells is a finite number. *)
Lemma col_sum_finite (l : list num) :
  forallb is_cell l = true -> isfinite (col_sum l) = true.
Proof.
  intros H. apply total_finite. now apply dropna_cells_finite.
Qed.

Lemma col_mean_dropna (l : list num) : col_mean (dropna l) = col_mean l.
Proof.
  unfold col_mean, dropna.
  assert (E : filter notna (filter notna l) = filter notna l).
  { induction l as [|x l IH]; [reflexivity|].
    simpl. destruct (notna x) eqn:N; simpl; [rewrite N|]; congruence. }
  now rewrite E.
Qed.

Lemma total_uniform (d : Q) (l : list num) :
  (forall x, In x l -> x =f= Fin d) ->
  total l =f= Fin (inject_Z (Z.of_nat (List.length l)) * d).
Proof.
  induction l as [|x l IH]; intros H.
  - change (0 == 0 * d). ring.
  - specialize (IH (fun y Hy => H y (or_intror Hy))).
    specialize (H x (or_introl eq_refl)).
    cbn [total fold_right] in *. fold (total l) in *.
    destruct x as [a| | |]; try contradiction.
    destruct (total l) as [b| | |]; try contradiction.
    cbn [feq fadd List.length] in *. rewrite H, IH.
    rewrite Nat2Z.inj_succ. unfold Z.succ. rewrite inject_Z_plus.
    change (inject_Z 1) with 1. ring.
Qed.

(** The mean of such a column is [d], whatever the number of missing
    cells. *)
Lemma col_mean_uniform (d : Q) (l : list num) :
  uniform d l -> col_mean l =f= Fin d.
Proof.
  intros [Hall (x0 & Hx0 & Ex0)].
  assert (Hv : forall x, In x (dropna l) -> x =f= Fin d).
  { intros x Hx. apply filter_In in Hx as [Hx Hn].
    destruct (Hall x Hx) as [-> | E]; [discriminate | assumption]. }
  assert (Hne : In x0 (dropna l)).
  { apply filter_In. split; [assumption|]. now destruct x0. }
  unfold col_mean. destruct (dropna l) as [|y v] eqn:E; [contradiction|].
  pose proof (total_uniform d (y :: v) Hv) as Ht.
  set (n := inject_Z (Z.of_nat (List.length (y :: v)))) in *.
  assert (Hn : 0 < n).
  { unfold n. rewrite <- (Zlt_Qlt 0). simpl List.length. lia. }
  destruct (total (y :: v)) as [t| | |]; try contradiction.
  simpl in Ht. simpl.
  destruct (Qeq_bool n 0) eqn:Z.
  - apply Qeq_bool_iff in Z. lra.
  - simpl. rewrite Ht. field. lra.
Qed.

(** ** Facts about grouping and row selection *)

Section KeyOrder.
Context {K : Type}.
Variable leb : K -> K -> bool.

Lemma insert_key_In (k x : K) (l : list K) :
  In x (insert_key leb k l) <-> x = k \/ In x l.
Proof.
  induction l as [|h t IH]; simpl.
  - intuition.
  - destruct (leb k h); simpl; [intuition|]. rewrite IH. intuition.
Qed.

Lemma sort_keys_In (x : K) (l : list K) : In x (sort_keys leb l) <-> In x l.
Proof.
  induction l as [|h t IH]; simpl; [tauto|].
  rewrite insert_key_In, IH. intuition.
Qed.

Lemma insert_key_length (k : K) (l : list K) :
  List.length (insert_key leb k l) = S (List.length l).
Proof.
  induction l as [|h t IH]; simpl; [reflexivity|].
  destruct (leb k h); simpl; congruence.
Qed.

Lemma sort_keys_length (l : list K) :
  List.length (sort_keys leb l) = List.length l.
Proof.
  induction l as [|h t IH]; simpl; [reflexivity|].
  now rewrite insert_key_length, IH.
Qed.
End KeyOrder.

Lemma unique_incl {K : Type} (eqb : K -> K -> bool) (x : K) (l : list K) :
  In x (unique eqb l) -> In x l.
Proof.
  induction l as [|h t IH]; simpl; [tauto|].
  intros [-> | H]; [now left|].
  apply filter_In in H as [H _]. right. now apply IH.
Qed.

Lemma key_cells_In {R K : Type} (key : R -> option K) (k : K) (rows : list R) :
  In k (key_cells key rows) <-> exists r, In r rows /\ key r = Some k.
Proof.
  unfold key_cells. rewrite in_flat_map. split.
  - intros (r & Hr & H). exists r. split; [assumption|].
    destruct (key r); [|contradiction].
    destruct H as [-> | []]. reflexivity.
  - intros (r & Hr & E). exists r. split; [assumption|].
    rewrite E. now left.
Qed.

(** Every group carries a key that occurs in the table, and holds the rows
    of that key in table order. *)
Lemma groupby_In {R K : Type} (key : R -> option K) (eqb leb : K -> K -> bool)
      (g : K * list R) (rows : list R) :
  In g (groupby key eqb leb rows) ->
  (exists r, In r rows /\ key r = Some (fst g)) /\
  snd g = filter (has_key key eqb (fst g)) rows.
Proof.
  unfold groupby. intros H.
  apply in_map_iff in H as (k & <- & Hk). simpl. split; [|reflexivity].
  apply sort_keys_In, unique_incl in Hk. now apply key_cells_In.
Qed.

Lemma iloc_In {A : Type} (frame : list A) (indexer : list nat) (x : A) :
  In x (iloc frame indexer) -> In x frame.
Proof.
  unfold iloc. intros H. apply in_flat_map in H as (i & _ & H).
  destruct (nth_error frame i) eqn:E; [|contradiction].
  destruct H as [<- | []]. eapply nth_error_In, E.
Qed.

(** Whatever order [argsort] returns, sorting invents no row. *)
Lemma sort_values_In {A : Type} (argsort : list num -> list nat)
      (col : A -> num) (ascending : bool) (frame : list A) (x : A) :
  In x (sort_values argsort col ascending frame) -> In x frame.
Proof. apply iloc_In. Qed.

(** ** Region resolution *)

(** C2, as stated, fails: the order has no store match and no region of its
    own, and its resolved region is missing. *)
Lemma region_resolution_not_total :
  exists r,
    In r (clean_and_prepare_data [unplaced_order] two_leeds_shops) /\
    Region_Final r = None.
Proof.
  exists (enrich unplaced_order None). split; [now left | reflexivity].
Qed.

Lemma filter_nil_iff {A : Type} (f : A -> bool) (l : list A) :
  filter f l = [] <-> (forall x, In x l -> f x = false).
Proof.
  induction l as [|a l IH]; simpl; [tauto|].
  destruct (f a) eqn:E.
  - split; [discriminate|]. intros H. specialize (H a (or_introl eq_refl)).
    congruence.
  - rewrite IH. split.
    + intros H x [<- | Hx]; auto.
    + intros H x Hx. apply H. now right.
Qed.

Lemma merge_regions_match (s : sale) (stores : list store) (t : store) :
  In t stores -> key_match s t = true ->
  In (store_Region t) (merge_regions s stores).
Proof.
  intros Ht Hk. unfold merge_regions.
  assert (Hf : In t (filter (key_match s) stores))
    by (apply filter_In; now split).
  destruct (filter (key_match s) stores) as [|m ms]; [destruct Hf|].
  now apply in_map.
Qed.

Lemma in_clean_enrich (sales : list sale) (stores : list store)
      (s : sale) (x : option string) :
  In s sales -> In x (merge_regions s stores) ->
  In (enrich s x) (clean_and_prepare_data sales stores).
Proof.
  intros Hs Hx. unfold clean_and_prepare_data.
  apply in_flat_map. exists s. split; [assumption|]. now apply in_map.
Qed.

(** C2, amended. Region resolution is a function of the two tables. For
    every prepared row: with no store row for its city and postal code the
    row has no store region and its resolved region is the transaction's
    own region; otherwise the row comes from one of the matching store
    rows, its resolved region is the region of that store row, and the
    transaction's own region when that store row has none.  A store region
    always wins over the transaction's own, and the resolved region is
    missing only when the transaction has no region of its own and the
    store row gives none.  Every matching store row gives the transaction a
    prepared row, resolved in this way. *)
Theorem region_resolution
        (sales : list sale) (stores : list store) (r : prepared) :
  In r (clean_and_prepare_data sales stores) ->
  ((forall t, In t stores -> key_match (base r) t = false) ->
   Region_store r = None /\ Region_Final r = Region (base r)) /\
  ((exists t, In t stores /\ key_match (base r) t = true) ->
   exists t,
     In t stores /\ key_match (base r) t = true /\
     Region_store r = store_Region t /\
     Region_Final r = match store_Region t with
                      | Some reg => Some reg
                      | None => Region (base r)
                      end) /\
  (forall reg, Region_store r = Some reg -> Region_Final r = Some reg) /\
  (Region_Final r = None ->
   Region (base r) = None /\ Region_store r = None) /\
  (forall s t,
      In s sales -> In t stores -> key_match s t = true ->
      exists r',
        In r' (clean_and_prepare_data sales stores) /\
        base r' = s /\ Region_store r' = store_Region t /\
        Region_Final r' = match store_Region t with
                          | Some reg => Some reg
                          | None => Region s
                          end).
Proof.
  intros Hin. apply in_clean_inv in Hin as (_ & Hm & E).
  apply in_merge_regions in Hm.
  assert (EF : Region_Final r = fillna (Region_store r) (Region (base r)))
    by (rewrite E at 1; reflexivity).
  rewrite EF. clear E EF.
  split; [|split; [|split; [|split]]].
  - intros Hno. destruct Hm as [[_ ->] | (t & Ht & Hk & _)]; [now split|].
    rewrite (Hno t Ht) in Hk. discriminate.
  - intros (t0 & Ht0 & Hk0).
    destruct Hm as [[Hnil _] | (t & Ht & Hk & ->)].
    + rewrite filter_nil_iff in Hnil. rewrite (Hnil t0 Ht0) in Hk0.
      discriminate.
    + exists t. repeat split; try assumption.
      now destruct (store_Region t).
  - intros reg ->. reflexivity.
  - destruct (Region_store r); [discriminate|]. intros H. now split.
  - intros s t Hs Ht Hk. exists (enrich s (store_Region t)).
    split; [|split; [reflexivity|split; [reflexivity|]]].
    + apply in_clean_enrich; [assumption|]. now apply merge_regions_match.
    + cbn [Region_Final enrich]. now destruct (store_Region t).
Qed.

(** The order placed in Leeds, with the two store rows of Leeds: the row
    that comes from the second store row resolves to the region of that
    store row. *)
Lemma region_resolution_witness :
  Region_Final (enrich leeds_order (Some "North East")) = Some "North East".
Proof.
  refine (proj1 (proj2 (proj2 (region_resolution
                                 [leeds_order] two_leeds_shops
                                 (enrich leeds_order (Some "North East")) _)))
                "North East" _).
  - right. now left.
  - reflexivity.
Defined.

(** ** The mean discount of a group *)

Lemma regional_summary_In (argsort : list num -> list nat)
      (df : list prepared) (row : Summary.row) :
  In row (regional_summary argsort df) ->
  row = summary_agg (Summary.index row, region_rows df (Summary.index row)).
Proof.
  intros H. apply sort_values_In, in_map_iff in H as (g & <- & Hg).
  apply groupby_In in Hg as [_ E]. destruct g as [k rows].
  simpl in *. now subst.
Qed.

Lemma segment_summary_In (argsort : list num -> list nat)
      (df : list prepared) (row : Summary.row) :
  In row (segment_summary argsort df) ->
  row = summary_agg (Summary.index row, segment_rows df (Summary.index row)).
Proof.
  intros H. apply sort_values_In, in_map_iff in H as (g & <- & Hg).
  apply groupby_In in Hg as [_ E]. destruct g as [k rows].
  simpl in *. now subst.
Qed.

Lemma analyze_order_mode_In (df : list prepared) (row : Channel.row) :
  In row (analyze_order_mode df) ->
  (exists r, In r df /\ Order_Mode (base r) = Some (Channel.index row)) /\
  Channel.Discount row
  = round2 (col_mean (discounts (channel_rows df (Channel.index row)))) /\
  Channel.Order_ID row
  = col_count (order_ids (channel_rows df (Channel.index row))).
Proof.
  unfold analyze_order_mode. intros H.
  apply in_map_iff in H as (c & <- & Hc).
  apply in_map_iff in Hc as (g & <- & Hg).
  apply groupby_In in Hg as [Hk E]. destruct g as [k rows].
  simpl in *. now subst.
Qed.

(** C10, as stated, fails: every discount of the group that is present is
    one eighth, and the mean-discount field of the channel summary is 0.12,
    the mean after [.round(2)]. *)
Lemma mean_discount_field_is_rounded :
  let df := clean_and_prepare_data eighth_off [] in
  exists row,
    In row (analyze_order_mode df) /\
    uniform (1 # 8) (discounts (channel_rows df (Channel.index row))) /\
    Channel.Discount row = Fin (12 # 100) /\
    ~ Channel.Discount row =f= Fin (1 # 8).
Proof.
  intros df.
  exists {| Channel.index := "Online";
            Channel.Total_Sales := Fin (1600 # 100);
            Channel.Total_Revenue := Fin (800 # 100);
            Channel.Order_ID := 2;
            Channel.Discount := Fin (12 # 100);
            Channel.Sales_pct := Fin (10000 # 100);
            Channel.Revenue_pct := Fin (10000 # 100) |}.
  split; [now left|]. split; [|split; [reflexivity|]].
  - split.
    + intros x [<- | [<- | []]]; [right | left]; reflexivity.
    + exists (Fin (1 # 8)). split; [now left | reflexivity].
  - simpl. intros H. discriminate H.
Qed.

Lemma dropna_discounts (rows : list prepared) :
  dropna (discounts rows) = discounts (discounted rows).
Proof.
  unfold dropna, discounts, discounted.
  induction rows as [|r rows IH]; [reflexivity|].
  cbn [map filter]. destruct (notna (Discount (base r))); cbn [map];
    now rewrite IH.
Qed.

Lemma count_discounted (rows : list prepared) :
  col_count (order_ids rows)
  = (col_count (order_ids (discounted rows))
     + col_count (order_ids (undiscounted rows)))%nat.
Proof.
  unfold col_count, order_ids, discounted, undiscounted, notna.
  induction rows as [|r rows IH]; [reflexivity|].
  cbn [map filter].
  destruct (isnan (Discount (base r))); cbn [negb map filter];
    destruct (notnull (Order_ID (base r))); cbn [List.length];
    rewrite IH; lia.
Qed.

(** What the mean-discount field and the order count of a group hold. *)
Lemma discount_fields (d : Q) (n : Z) (rows : list prepared) :
  round2 (col_mean (discounts rows))
  = round2 (col_mean (discounts (discounted rows))) /\
  col_count (order_ids rows)
  = (col_count (order_ids (discounted rows))
     + col_count (order_ids (undiscounted rows)))%nat /\
  (uniform d (discounts rows) -> d == inject_Z n / 100 ->
   round2 (col_mean (discounts rows)) =f= Fin d).
Proof.
  split; [|split].
  - now rewrite <- dropna_discounts, col_mean_dropna.
  - apply count_discounted.
  - intros Hu Hn. apply col_mean_uniform, round2_feq in Hu.
    eapply feq_trans; [exact Hu|].
    simpl. rewrite (Qround2_comp _ _ Hn), Hn. apply Qround2_hundredths.
Qed.

(** C10, amended. In the region, segment and channel summaries the mean
    discount of a group leaves out the rows whose discount is missing, from
    its numerator and from its denominator: the field is the rounded mean
    over the rows of the group that have a discount, as if the other rows
    were not there.  Those other rows are counted all the same: the order
    count of the group is the number of its rows that have an order id,
    with or without a discount.  When the discounts present in the group
    all equal a rate [d] between 0 and 1 in whole hundredths, the field is
    [d], whatever the number of rows without a discount. *)
Theorem mean_discount_skips_nulls
        (argsort : list num -> list nat) (df : list prepared)
        (d : Q) (n : Z) :
  (forall row,
      In row (regional_summary argsort df) ->
      let rows := region_rows df (Summary.index row) in
      Summary.Avg_Discount_Rate row
      = round2 (col_mean (discounts (discounted rows))) /\
      Summary.Order_Count row
      = (col_count (order_ids (discounted rows))
         + col_count (order_ids (undiscounted rows)))%nat /\
      (uniform d (discounts rows) ->
       0 <= d <= 1 -> d == inject_Z n / 100 ->
       Summary.Avg_Discount_Rate row =f= Fin d)) /\
  (forall row,
      In row (segment_summary argsort df) ->
      let rows := segment_rows df (Summary.index row) in
      Summary.Avg_Discount_Rate row
      = round2 (col_mean (discounts (discounted rows))) /\
      Summary.Order_Count row
      = (col_count (order_ids (discounted rows))
         + col_count (order_ids (undiscounted rows)))%nat /\
      (uniform d (discounts rows) ->
       0 <= d <= 1 -> d == inject_Z n / 100 ->
       Summary.Avg_Discount_Rate row =f= Fin d)) /\
  (forall row,
      In row (analyze_order_mode df) ->
      let rows := channel_rows df (Channel.index row) in
      Channel.Discount row
      = round2 (col_mean (discounts (discounted rows))) /\
      Channel.Order_ID row
      = (col_count (order_ids (discounted rows))
         + col_count (order_ids (undiscounted rows)))%nat /\
      (uniform d (discounts rows) ->
       0 <= d <= 1 -> d == inject_Z n / 100 ->
       Channel.Discount row =f= Fin d)).
Proof.
  split; [|split].
  - intros row Hin rows. apply regional_summary_In in Hin.
    pose proof (f_equal Summary.Order_Count Hin) as E1.
    pose proof (f_equal Summary.Avg_Discount_Rate Hin) as E2.
    cbn [summary_agg Summary.Order_Count Summary.Avg_Discount_Rate snd] in E1, E2.
    fold (discounts (region_rows df (Summary.index row))) in E2.
    fold (order_ids (region_rows df (Summary.index row))) in E1.
    fold rows in E1, E2. rewrite E1, E2.
    destruct (discount_fields d n rows) as (F1 & F2 & F3).
    split; [exact F1|]. split; [exact F2|]. intros Hu _. now apply F3.
  - intros row Hin rows. apply segment_summary_In in Hin.
    pose proof (f_equal Summary.Order_Count Hin) as E1.
    pose proof (f_equal Summary.Avg_Discount_Rate Hin) as E2.
    cbn [summary_agg Summary.Order_Count Summary.Avg_Discount_Rate snd] in E1, E2.
    fold (discounts (segment_rows df (Summary.index row))) in E2.
    fold (order_ids (segment_rows df (Summary.index row))) in E1.
    fold rows in E1, E2. rewrite E1, E2.
    destruct (discount_fields d n rows) as (F1 & F2 & F3).
    split; [exact F1|]. split; [exact F2|]. intros Hu _. now apply F3.
  - intros row Hin rows. apply analyze_order_mode_In in Hin as (_ & E2 & E1).
    fold rows in E1, E2. rewrite E1, E2.
    destruct (discount_fields d n rows) as (F1 & F2 & F3).
    split; [exact F1|]. split; [exact F2|]. intros Hu _. now apply F3.
Qed.

(** Two orders at 15 percent and one without a discount cell: the field is
    0.15 and the count is 3. *)
Lemma mean_discount_skips_nulls_witness :
  exists row,
    In row (analyze_order_mode (clean_and_prepare_data fifteen_off [])) /\
    Channel.Discount row =f= Fin (15 # 100) /\
    Channel.Order_ID row = 3%nat.
Proof.
  assert (E : exists row,
             In row (analyze_order_mode (clean_and_prepare_data fifteen_off []))
             /\ Channel.index row = "Online" /\ Channel.Order_ID row = 3%nat)
    by (vm_compute; eexists; split; [left; reflexivity | split; reflexivity]).
  destruct E as (row & Hrow & Hi & Hc).
  exists row. split; [exact Hrow|]. split; [|exact Hc].
  refine (proj2 (proj2 (proj2 (proj2 (mean_discount_skips_nulls
            argsort_stable (clean_and_prepare_data fifteen_off [])
            (15 # 100) 15)) row Hrow)) _ _ _).
  - rewrite Hi. split.
    + intros x [<- | [<- | [<- | []]]];
        ((left; reflexivity) || (right; reflexivity)).
    + exists (Fin (15 # 100)). split; [now left | reflexivity].
  - split; lra.
  - reflexivity.
Defined.

(** ** The run and the two channels *)

Lemma main_eq (argsort : list num -> list nat)
      (sales : list sale) (stores : list store) :
  main argsort sales stores
  = let df := clean_and_prepare_data sales stores in
    generate_insights_report df
      (regional_summary argsort df) (segment_summary argsort df)
      (top_products argsort df) (bottom_products argsort df)
      (analyze_categories_margins argsort df) (analyze_order_mode df).
Proof. reflexivity. Qed.

Lemma loc_absent (label : string) (frame : list Channel.row) :
  (forall r, In r frame -> Channel.index r <> label) ->
  loc label frame = Err (KeyError label).
Proof.
  intros H. unfold loc.
  destruct (find _ frame) as [r|] eqn:E; [|reflexivity].
  apply find_some in E as [Hr Heq]. apply String.eqb_eq in Heq.
  now apply H in Hr.
Qed.

Lemma loc_present (label : string) (frame : list Channel.row) :
  (exists r, In r frame /\ Channel.index r = label) ->
  exists r, loc label frame = Ok r.
Proof.
  intros (r & Hr & E). unfold loc.
  destruct (find _ frame) as [r'|] eqn:F; [now exists r'|].
  apply (find_none _ _ F) in Hr. rewrite E, String.eqb_refl in Hr.
  discriminate.
Qed.

(** The report stops when one of its two channel lookups does. *)
Lemma report_needs_both_channels
      (df : list prepared) (regional segments : list Summary.row)
      (top bottom : list Product.row) (margins : list Margins.row)
      (modes : list Channel.row) :
  loc "Online" modes = Err (KeyError "Online") \/
  loc "In-Store" modes = Err (KeyError "In-Store") ->
  exists e,
    generate_insights_report df regional segments top bottom margins modes
    = Err e.
Proof.
  intros H. unfold generate_insights_report.
  destruct (strftime _); simpl; [|eauto].
  destruct (strftime _); simpl; [|eauto].
  destruct (index_at regional 0); simpl; [|eauto].
  destruct (index_at segments 0); simpl; [|eauto].
  destruct (index_at margins 0); simpl; [|eauto].
  destruct H as [-> | H]; simpl; [eauto|].
  destruct (loc "Online" modes); simpl; [|eauto].
  rewrite H. simpl. eauto.
Qed.

Lemma channel_labels (sales : list sale) (stores : list store) (row : Channel.row) :
  In row (analyze_order_mode (clean_and_prepare_data sales stores)) ->
  exists s, In s sales /\ Order_Mode s = Some (Channel.index row).
Proof.
  intros H. apply analyze_order_mode_In in H as ((r & Hr & E) & _).
  exists (base r). split; [|assumption]. now apply in_clean_inv in Hr.
Qed.

(** C8. When no transaction has the channel "Online", or none has the
    channel "In-Store", the run ends in an error and produces no report. *)
Theorem missing_channel_fails
        (argsort : list num -> list nat)
        (sales : list sale) (stores : list store) :
  (forall s, In s sales -> Order_Mode s <> Some "Online") \/
  (forall s, In s sales -> Order_Mode s <> Some "In-Store") ->
  (exists e, main argsort sales stores = Err e) /\
  (forall rep, main argsort sales stores <> Ok rep).
Proof.
  intros H.
  assert (G : exists e, main argsort sales stores = Err e).
  { rewrite main_eq. cbv zeta. apply report_needs_both_channels.
    destruct H as [H | H]; [left | right]; apply loc_absent;
      intros row Hrow E;
      apply channel_labels in Hrow as (s & Hs & Hm);
      apply (H s Hs); congruence. }
  split; [assumption|].
  destruct G as [e G]. intros rep. rewrite G. discriminate.
Qed.

Lemma missing_channel_fails_witness :
  (exists e, main argsort_stable in_store_only [] = Err e) /\
  (forall rep, main argsort_stable in_store_only [] <> Ok rep).
Proof.
  apply (missing_channel_fails argsort_stable in_store_only []).
  left. intros s [<- | [<- | []]]; discriminate.
Defined.

(** On that table every earlier lookup of the report succeeds, and the
    error is the lookup of the label "Online". *)
Example in_store_only_error :
  main argsort_stable in_store_only [] = Err (KeyError "Online").
Proof. vm_compute. reflexivity. Qed.

(** ** Channel shares *)

Lemma finite_list (xs : list num) :
  forallb isfinite xs = true -> exists qs, xs = map Fin qs.
Proof.
  induction xs as [|x xs IH]; intros H.
  - now exists [].
  - simpl in H. apply andb_prop in H as [Hx Hxs].
    destruct (IH Hxs) as [qs ->]. destruct x as [q| | |]; try discriminate.
    now exists (q :: qs).
Qed.

Lemma col_sum_Fin (qs : list Q) : col_sum (map Fin qs) = Fin (Qsum qs).
Proof.
  unfold col_sum, dropna.
  induction qs as [|q qs IH]; [reflexivity|].
  simpl. fold (total (filter notna (map Fin qs))). now rewrite IH.
Qed.

Lemma Qsum_round_bound (f : Q -> Q) (qs : list Q) :
  Qabs (Qsum (map (fun q => Qround2 (f q)) qs) - Qsum (map f qs))
  <= inject_Z (Z.of_nat (List.length qs)) * (1 # 200).
Proof.
  induction qs as [|q qs IH].
  - apply Qabs_Qle_condition. cbn [map Qsum fold_right List.length].
    change (inject_Z (Z.of_nat 0)) with 0. split; lra.
  - cbn [map Qsum fold_right List.length].
    fold (Qsum (map (fun q => Qround2 (f q)) qs)). fold (Qsum (map f qs)).
    rewrite Nat2Z.inj_succ. unfold Z.succ. rewrite inject_Z_plus.
    change (inject_Z 1) with 1.
    pose proof (Qround2_bound (f q)) as Hq.
    apply Qabs_Qle_condition in Hq, IH. apply Qabs_Qle_condition.
    split; lra.
Qed.

Lemma Qsum_scale (c : Q) (qs : list Q) :
  Qsum (map (fun q => q * c) qs) == Qsum qs * c.
Proof.
  induction qs as [|q qs IH]; simpl; [ring|].
  fold (Qsum (map (fun q => q * c) qs)). fold (Qsum qs). rewrite IH. ring.
Qed.

Lemma Qsum_ext (f g : Q -> Q) (qs : list Q) :
  (forall q, f q == g q) -> Qsum (map f qs) == Qsum (map g qs).
Proof.
  intros H. induction qs as [|q qs IH]; simpl; [reflexivity|].
  fold (Qsum (map f qs)). fold (Qsum (map g qs)). now rewrite IH, H.
Qed.

(** The percentages of a column of finite amounts with a non-zero sum add up
    to 100, within half a hundredth per amount. *)
Lemma percentages_sum (xs : list num) :
  forallb isfinite xs = true ->
  ~ col_sum xs =f= Fin 0 ->
  exists p,
    col_sum (map (fun x => percent_of x (col_sum xs)) xs) = Fin p /\
    Qabs (p - 100) <= inject_Z (Z.of_nat (List.length xs)) * (1 # 200).
Proof.
  intros Hfin Hnz. destruct (finite_list xs Hfin) as [qs ->].
  rewrite col_sum_Fin in *. set (S := Qsum qs) in *.
  assert (HS : ~ S == 0) by exact Hnz.
  assert (HSb : Qeq_bool S 0 = false).
  { destruct (Qeq_bool S 0) eqn:E; [|reflexivity].
    apply Qeq_bool_iff in E. contradiction. }
  assert (E : map (fun x => percent_of x (Fin S)) (map Fin qs)
              = map Fin (map (fun q => Qround2 (q / S * 100)) qs)).
  { rewrite !map_map. apply map_ext. intros q.
    unfold percent_of. cbn [fdiv]. rewrite HSb. reflexivity. }
  rewrite E, col_sum_Fin, length_map.
  eexists. split; [reflexivity|].
  pose proof (Qsum_round_bound (fun q => q / S * 100) qs) as Hb.
  assert (E100 : Qsum (map (fun q => q / S * 100) qs) == 100).
  { rewrite (Qsum_ext _ (fun q => q * (100 / S))) by (intros; now field).
    rewrite Qsum_scale. fold S. now field. }
  rewrite E100 in Hb. exact Hb.
Qed.

Lemma prepared_cells (sales : list sale) (stores : list store) (r : prepared) :
  (forall s, In s sales -> file_cells s = true) ->
  In r (clean_and_prepare_data sales stores) ->
  is_cell (Total_Sales r) = true /\ is_cell (Total_Revenue r) = true.
Proof.
  intros Hc Hr. apply in_clean_inv in Hr as (Hs & _ & ->).
  specialize (Hc _ Hs). unfold file_cells in Hc.
  apply andb_prop in Hc as [Hc Hq]. apply andb_prop in Hc as [Hp Hc].
  cbn [Total_Sales Total_Revenue enrich].
  unfold total_sales_of, total_revenue_of, revenue_of.
  split; auto using fmul_cell, fsub_cell.
Qed.

Lemma forallb_map_In {A : Type} (f : A -> num) (p : num -> bool) (l : list A) :
  (forall x, In x l -> p (f x) = true) -> forallb p (map f l) = true.
Proof.
  intros H. apply forallb_forall. intros y Hy.
  apply in_map_iff in Hy as (x & <- & Hx). auto.
Qed.

(** C7, as stated, fails: the sales of the two channels are both 0, each
    share is [0 / 0], and the shares add up to 0, not to 100. *)
Lemma channel_shares_undefined :
  let t := analyze_order_mode (clean_and_prepare_data free_samples []) in
  map Channel.Sales_pct t = [NaN; NaN] /\
  col_sum (map Channel.Sales_pct t) = Fin 0.
Proof. split; reflexivity. Qed.

Lemma analyze_order_mode_eq (df : list prepared) :
  analyze_order_mode df
  = map (with_percentages
           (col_sum (map Channel.Total_Sales (order_mode_agg df)))
           (col_sum (map Channel.Total_Revenue (order_mode_agg df))))
        (order_mode_agg df).
Proof. reflexivity. Qed.

Lemma order_mode_agg_finite (sales : list sale) (stores : list store) :
  (forall s, In s sales -> file_cells s = true) ->
  let agg := order_mode_agg (clean_and_prepare_data sales stores) in
  forallb isfinite (map Channel.Total_Sales agg) = true /\
  forallb isfinite (map Channel.Total_Revenue agg) = true.
Proof.
  intros Hc agg.
  assert (H : forall c, In c agg ->
            isfinite (Channel.Total_Sales c) = true /\
            isfinite (Channel.Total_Revenue c) = true).
  { intros c Hin. apply in_map_iff in Hin as (g & <- & Hg).
    apply groupby_In in Hg as [_ E].
    assert (Hrows : forall r, In r (snd g) ->
              is_cell (Total_Sales r) = true /\ is_cell (Total_Revenue r) = true).
    { intros r Hr. rewrite E in Hr. apply filter_In in Hr as [Hr _].
      now apply (prepared_cells sales stores). }
    cbn [channel_agg Channel.Total_Sales Channel.Total_Revenue].
    split; apply round2_finite, col_sum_finite, forallb_map_In;
      intros r Hr; now apply Hrows. }
  split; apply forallb_map_In; intros c Hin; now apply H.
Qed.

(** In the exact arithmetic of the model the shares add up to 100 within
    half a hundredth per channel, the rounding of each share. *)
Lemma shares_sum_exact (sales : list sale) (stores : list store) :
  (forall s, In s sales -> file_cells s = true) ->
  let t := analyze_order_mode (clean_and_prepare_data sales stores) in
  (~ col_sum (map Channel.Total_Sales t) =f= Fin 0 ->
   exists p,
     col_sum (map Channel.Sales_pct t) = Fin p /\
     Qabs (p - 100) <= inject_Z (Z.of_nat (List.length t)) * (1 # 200)) /\
  (~ col_sum (map Channel.Total_Revenue t) =f= Fin 0 ->
   exists p,
     col_sum (map Channel.Revenue_pct t) = Fin p /\
     Qabs (p - 100) <= inject_Z (Z.of_nat (List.length t)) * (1 # 200)).
Proof.
  intros Hc t.
  destruct (order_mode_agg_finite sales stores Hc) as [Hs Hr].
  set (agg := order_mode_agg (clean_and_prepare_data sales stores)) in *.
  assert (Et : t = map (with_percentages
                          (col_sum (map Channel.Total_Sales agg))
                          (col_sum (map Channel.Total_Revenue agg))) agg)
    by reflexivity.
  assert (Es : map Channel.Total_Sales t = map Channel.Total_Sales agg)
    by (rewrite Et, map_map; reflexivity).
  assert (Er : map Channel.Total_Revenue t = map Channel.Total_Revenue agg)
    by (rewrite Et, map_map; reflexivity).
  assert (Ps : map Channel.Sales_pct t
               = map (fun x => percent_of x (col_sum (map Channel.Total_Sales agg)))
                     (map Channel.Total_Sales agg))
    by (rewrite Et, !map_map; reflexivity).
  assert (Pr : map Channel.Revenue_pct t
               = map (fun x => percent_of x (col_sum (map Channel.Total_Revenue agg)))
                     (map Channel.Total_Revenue agg))
    by (rewrite Et, !map_map; reflexivity).
  assert (El : List.length t = List.length agg)
    by (rewrite Et; apply length_map).
  rewrite Es, Er, Ps, Pr, El. split; intros Hnz.
  - destruct (percentages_sum _ Hs Hnz) as (p & Hp & Hb).
    exists p. split; [assumption|]. now rewrite length_map in Hb.
  - destruct (percentages_sum _ Hr Hnz) as (p & Hp & Hb).
    exists p. split; [assumption|]. now rewrite length_map in Hb.
Qed.

Lemma ordinary_file_cells (s : sale) :
  ordinary_sale s = true -> file_cells s = true.
Proof.
  unfold ordinary_sale, modest_amounts, file_cells. intros H.
  repeat (apply andb_prop in H as [H ?]).
  now rewrite !modest_cell.
Qed.

(** C7, amended. Each channel's share of the sales total and of the revenue
    total is a percentage rounded to two decimals.  For a table of at most
    a million rows of ordinary sales (modest amounts in whole hundredths, a
    whole quantity that is not negative, a price that covers a cost that is
    not negative), when the total over the channels is not zero the shares
    add up to 100 within a hundredth per channel: half a hundredth for the
    rounding of each share, the rest for the binary arithmetic. *)
Theorem channel_shares_sum (sales : list sale) (stores : list store) :
  (forall s, In s sales -> ordinary_sale s = true) ->
  modest_table (clean_and_prepare_data sales stores) ->
  let t := analyze_order_mode (clean_and_prepare_data sales stores) in
  (~ col_sum (map Channel.Total_Sales t) =f= Fin 0 ->
   exists p,
     col_sum (map Channel.Sales_pct t) = Fin p /\
     Qabs (p - 100) <= inject_Z (Z.of_nat (List.length t)) * (1 # 100)) /\
  (~ col_sum (map Channel.Total_Revenue t) =f= Fin 0 ->
   exists p,
     col_sum (map Channel.Revenue_pct t) = Fin p /\
     Qabs (p - 100) <= inject_Z (Z.of_nat (List.length t)) * (1 # 100)).
Proof.
  intros Ho _ t.
  assert (Hc : forall s, In s sales -> file_cells s = true)
    by (intros s Hs; now apply ordinary_file_cells, Ho).
  destruct (shares_sum_exact sales stores Hc) as [Hs Hr]. fold t in Hs, Hr.
  assert (N : 0 <= inject_Z (Z.of_nat (List.length t))).
  { rewrite <- (Zle_Qle 0). lia. }
  split; intros Hnz.
  - destruct (Hs Hnz) as (p & Hp & Hb). exists p. split; [assumption|]. nra.
  - destruct (Hr Hnz) as (p & Hp & Hb). exists p. split; [assumption|]. nra.
Qed.

Lemma channel_shares_sum_witness :
  let t := analyze_order_mode (clean_and_prepare_data three_channels []) in
  exists p,
    col_sum (map Channel.Sales_pct t) = Fin p /\
    Qabs (p - 100) <= inject_Z (Z.of_nat (List.length t)) * (1 # 100).
Proof.
  refine (proj1 (channel_shares_sum three_channels [] _ _) _).
  - intros s [<- | [<- | [<- | []]]]; reflexivity.
  - unfold modest_table. simpl. lia.
  - vm_compute. intros H. discriminate H.
Defined.

Example three_channels_shares :
  col_sum (map Channel.Sales_pct
               (analyze_order_mode (clean_and_prepare_data three_channels [])))
  =f= Fin (9999 # 100).
Proof. vm_compute. reflexivity. Qed.

(** ** Sorting: what [sort_values] returns for any [argsort] *)

Lemma bool_index_filter {A : Type} (p : A -> bool) (a : list A) :
  bool_index a (map p a) = filter p a.
Proof.
  unfold bool_index. induction a as [|x a IH]; [reflexivity|].
  simpl. destruct (p x); simpl; congruence.
Qed.

Lemma bool_index_In {A : Type} (a : list A) (mask : list bool) (x : A) :
  In x (bool_index a mask) -> In x a.
Proof.
  unfold bool_index. intros H.
  apply in_map_iff in H as ([y b] & <- & H).
  apply filter_In in H as [H _]. now apply in_combine_l in H.
Qed.

Lemma iloc_app {A : Type} (frame : list A) (i j : list nat) :
  iloc frame (i ++ j) = iloc frame i ++ iloc frame j.
Proof. apply flat_map_app. Qed.

Lemma iloc_cons {A : Type} (frame : list A) (k : nat) (i : list nat) :
  iloc frame (k :: i)
  = match nth_error frame k with
    | Some r => r :: iloc frame i
    | None => iloc frame i
    end.
Proof. unfold iloc. simpl. now destruct (nth_error frame k). Qed.

Lemma iloc_rev {A : Type} (frame : list A) (i : list nat) :
  iloc frame (rev i) = rev (iloc frame i).
Proof.
  induction i as [|x i IH]; [reflexivity|].
  simpl rev. rewrite iloc_app, IH, !iloc_cons.
  destruct (nth_error frame x); simpl; [reflexivity | apply app_nil_r].
Qed.

(** Selecting positions by a mask and reading the frame there is selecting
    the rows by the mask. *)
Lemma iloc_bool_index {A : Type} (p : A -> bool) (pre frame : list A) :
  iloc (pre ++ frame)
       (bool_index (seq (List.length pre) (List.length frame)) (map p frame))
  = filter p frame.
Proof.
  revert pre. induction frame as [|x frame IH]; intros pre; [reflexivity|].
  specialize (IH (pre ++ [x])).
  rewrite <- app_assoc, length_app, Nat.add_1_r in IH. simpl app in IH.
  unfold bool_index in *. simpl.
  destruct (p x); simpl; [|exact IH].
  rewrite nth_error_app2 by lia. rewrite Nat.sub_diag. simpl.
  f_equal. exact IH.
Qed.

Lemma nth_error_iloc {A : Type} (frame : list A) (i : list nat) (j : nat) :
  in_range frame i ->
  nth_error (iloc frame i) j
  = match nth_error i j with
    | Some k => nth_error frame k
    | None => None
    end.
Proof.
  intros H. revert j. induction H as [|k i Hk Hi IH]; intros j.
  - now destruct j.
  - apply nth_error_Some in Hk. rewrite iloc_cons.
    destruct (nth_error frame k) as [r|] eqn:E; [|congruence].
    destruct j; simpl; [congruence | apply IH].
Qed.

Lemma iloc_iloc {A : Type} (frame : list A) (i j : list nat) :
  in_range frame i ->
  iloc frame (iloc i j) = iloc (iloc frame i) j.
Proof.
  intros H. induction j as [|k j IH]; [reflexivity|].
  rewrite (iloc_cons i), (iloc_cons (iloc frame i)).
  rewrite (nth_error_iloc frame i k H).
  destruct (nth_error i k) as [m|]; [|assumption].
  rewrite iloc_cons, IH. reflexivity.
Qed.

Lemma mask_in_range {A : Type} (frame : list A) (mask : list bool) :
  in_range frame (bool_index (seq 0 (List.length frame)) mask).
Proof.
  apply Forall_forall. intros i H.
  apply bool_index_In, in_seq in H. lia.
Qed.

Section SortValues.
Context {A : Type}.
Variable argsort : list num -> list nat.
Variable col : A -> num.

Lemma sort_values_eq (ascending : bool) (frame : list A) :
  sort_values argsort col ascending frame
  = (if ascending then in_order argsort col (keyed col frame)
     else rev (in_order argsort col (rev (keyed col frame)))) ++ unkeyed col frame.
Proof.
  unfold sort_values, nargsort.
  set (items := map col frame).
  assert (E1 : map negb (map isnan items)
               = map (fun x => negb (isnan x)) items) by apply map_map.
  assert (E2 : map (fun x => negb (isnan x)) items
               = map (fun r => negb (isnan (col r))) frame) by apply map_map.
  assert (E3 : map isnan items = map (fun r => isnan (col r)) frame)
    by apply map_map.
  assert (E4 : List.length items = List.length frame) by apply length_map.
  rewrite E1, (bool_index_filter _ items), E2, E3, E4.
  subst items. clear E1 E2 E3 E4.
  pose proof (iloc_bool_index (fun r => negb (isnan (col r))) [] frame) as Ek.
  pose proof (iloc_bool_index (fun r => isnan (col r)) [] frame) as Eu.
  simpl app in Ek, Eu. simpl List.length in Ek, Eu.
  set (nn := bool_index (seq 0 (List.length frame))
                        (map (fun x => negb (isnan (col x))) frame)) in *.
  set (na := bool_index (seq 0 (List.length frame))
                        (map (fun x => isnan (col x)) frame)) in *.
  assert (Hnn : in_range frame nn) by apply mask_in_range.
  assert (Ev : filter (fun x => negb (isnan x)) (map col frame)
               = map col (keyed col frame)).
  { unfold keyed, notna. clear. induction frame as [|x l IH]; [reflexivity|].
    simpl. destruct (isnan (col x)); simpl; congruence. }
  rewrite Ev.
  destruct ascending; rewrite iloc_app, Eu; f_equal.
  - rewrite iloc_iloc by assumption. now rewrite Ek.
  - rewrite iloc_rev, iloc_iloc by (now apply Forall_rev).
    rewrite iloc_rev, Ek, <- map_rev. reflexivity.
Qed.
End SortValues.

(** ** The order on values *)

Lemma Qle_bool_false (a b : Q) : Qle_bool a b = false -> b < a.
Proof.
  intros H. apply Qnot_le_lt. intros L.
  apply Qle_bool_iff in L. congruence.
Qed.

Lemma fle_trans (a b c : num) :
  fle a b = true -> fle b c = true -> fle a c = true.
Proof.
  destruct a, b, c; simpl; try congruence.
  rewrite !Qle_bool_iff. apply Qle_trans.
Qed.

Lemma fle_total (a b : num) :
  notna a = true -> notna b = true -> fle a b = false -> fle b a = true.
Proof.
  destruct a, b; unfold notna; simpl; try congruence.
  intros _ _ H. apply Qle_bool_iff, Qlt_le_weak. now apply Qle_bool_false.
Qed.

Lemma flt_fle (a b : num) : flt a b = true -> fle a b = true.
Proof.
  destruct a, b; simpl; try congruence.
  intros H. apply negb_true_iff in H.
  apply Qle_bool_iff, Qlt_le_weak. now apply Qle_bool_false.
Qed.

Lemma not_flt_fle (a b : num) :
  notna a = true -> notna b = true -> flt a b = false -> fle b a = true.
Proof.
  destruct a, b; unfold notna; simpl; try congruence.
  intros _ _ H. now apply negb_false_iff in H.
Qed.

Lemma fle_not_flt (a b : num) : fle b a = true -> flt a b = false.
Proof.
  destruct a, b; simpl; try congruence.
  intros H. now rewrite H.
Qed.

(** ** The two sorting orders meet the promise of [argsort] *)

Section InsertionOrder.
Variable before : num -> num -> bool.
Hypothesis before_le :
  forall a b, notna a = true -> notna b = true ->
              before a b = true -> fle a b = true.
Hypothesis not_before_ge :
  forall a b, notna a = true -> notna b = true ->
              before a b = false -> fle b a = true.

Lemma insert_cell_perm (c : nat * num) (l : list (nat * num)) :
  Permutation (insert_cell before c l) (c :: l).
Proof.
  induction l as [|h t IH]; simpl; [reflexivity|].
  destruct (before (snd c) (snd h)); [reflexivity|].
  rewrite IH. apply perm_swap.
Qed.

Lemma sort_cells_perm (l : list (nat * num)) :
  Permutation (fold_right (insert_cell before) [] l) l.
Proof.
  induction l as [|c l IH]; simpl; [reflexivity|].
  now rewrite insert_cell_perm, IH.
Qed.

Lemma insert_cell_sorted (c : nat * num) (l : list (nat * num)) :
  notna (snd c) = true ->
  Forall (fun x => notna (snd x) = true) l ->
  StronglySorted cell_le l ->
  StronglySorted cell_le (insert_cell before c l).
Proof.
  intros Hc Hl Hs. induction Hs as [|h t Ht IH Hh]; simpl.
  - repeat constructor.
  - apply Forall_cons_iff in Hl as [Hnh Hnt].
    destruct (before (snd c) (snd h)) eqn:B.
    + pose proof (before_le _ _ Hc Hnh B) as L.
      constructor; [now constructor|].
      constructor; [exact L|].
      eapply Forall_impl; [|exact Hh].
      intros x Hx. unfold cell_le, fleP in *. eapply fle_trans; eassumption.
    + pose proof (not_before_ge _ _ Hc Hnh B) as L.
      constructor; [now apply IH|].
      apply Forall_forall. intros x Hx.
      apply (Permutation_in _ (insert_cell_perm c t)) in Hx.
      destruct Hx as [<- | Hx]; [exact L|].
      now apply (proj1 (Forall_forall _ _) Hh).
Qed.

Lemma sort_cells_sorted (l : list (nat * num)) :
  Forall (fun x => notna (snd x) = true) l ->
  StronglySorted cell_le (fold_right (insert_cell before) [] l).
Proof.
  induction l as [|c l IH]; intros H; simpl; [constructor|].
  apply Forall_cons_iff in H as [Hc Hl].
  apply insert_cell_sorted; auto.
  eapply Permutation_Forall; [|exact Hl].
  symmetry. apply sort_cells_perm.
Qed.

Lemma enumerate_fst (s : nat) (v : list num) :
  map fst (combine (seq s (List.length v)) v) = seq s (List.length v).
Proof.
  revert s. induction v as [|x v IH]; intros s; simpl; [reflexivity|].
  now rewrite IH.
Qed.

Lemma enumerate_snd (s : nat) (v : list num) :
  map snd (combine (seq s (List.length v)) v) = v.
Proof.
  revert s. induction v as [|x v IH]; intros s; simpl; [reflexivity|].
  now rewrite IH.
Qed.

Lemma enumerate_nth (v : list num) (i : nat) (x : num) :
  In (i, x) (enumerate v) -> nth i v NaN = x.
Proof.
  unfold enumerate.
  assert (G : forall s, In (i, x) (combine (seq s (List.length v)) v) ->
                        (s <= i)%nat /\ nth (i - s) v NaN = x).
  { induction v as [|y v IH]; intros s H; [contradiction|].
    simpl in H. destruct H as [H | H].
    - inversion H; subst. rewrite Nat.sub_diag. auto.
    - apply IH in H as [Hle E]. split; [lia|].
      replace (i - s)%nat with (S (i - S s)) by lia. exact E. }
  intros H. apply G in H as [_ E]. now rewrite Nat.sub_0_r in E.
Qed.

Theorem argsort_by_spec : argsort_spec (argsort_by before).
Proof.
  intros v Hv. unfold argsort_by.
  set (cells := fold_right (insert_cell before) [] (enumerate v)).
  assert (P : Permutation cells (enumerate v)) by apply sort_cells_perm.
  split.
  - rewrite <- (enumerate_fst 0 v). now apply Permutation_map.
  - assert (Hn : Forall (fun x => notna (snd x) = true) (enumerate v)).
    { apply Forall_forall. intros [i x] H.
      apply in_combine_r in H. simpl.
      now apply (proj1 (forallb_forall _ _) Hv). }
    pose proof (sort_cells_sorted _ Hn) as S. fold cells in S.
    assert (E : map (fun i => nth i v NaN) (map fst cells) = map snd cells).
    { rewrite map_map. apply map_ext_in. intros [i x] H. simpl.
      apply enumerate_nth. now apply (Permutation_in _ P). }
    rewrite E. clear - S.
    induction S as [|c l Hl IH Hc]; simpl; constructor; [assumption|].
    rewrite Forall_map. exact Hc.
Qed.
End InsertionOrder.

Lemma argsort_stable_spec : argsort_spec argsort_stable.
Proof.
  apply argsort_by_spec.
  - intros a b _ _ H. exact H.
  - intros a b Ha Hb H. now apply fle_total.
Qed.

Lemma argsort_unstable_spec : argsort_spec argsort_unstable.
Proof.
  apply argsort_by_spec.
  - intros a b _ _ H. now apply flt_fle.
  - intros a b Ha Hb H. now apply not_flt_fle.
Qed.

(** ** Sorting: the order of the keys *)

Lemma StronglySorted_app {A : Type} (R : A -> A -> Prop) (l1 l2 : list A) :
  StronglySorted R l1 -> StronglySorted R l2 ->
  (forall x y, In x l1 -> In y l2 -> R x y) ->
  StronglySorted R (l1 ++ l2).
Proof.
  intros H1 H2 H. induction H1 as [|a l Hl IH Ha]; [assumption|].
  simpl. constructor.
  - apply IH. intros x y Hx Hy. apply H; [now right | assumption].
  - apply Forall_app. split; [assumption|].
    apply Forall_forall. intros y Hy. apply H; [now left | assumption].
Qed.

Lemma StronglySorted_rev {A : Type} (R : A -> A -> Prop) (l : list A) :
  StronglySorted R l -> StronglySorted (fun x y => R y x) (rev l).
Proof.
  intros H. induction H as [|a l Hl IH Ha]; [constructor|].
  simpl. apply StronglySorted_app; [assumption | repeat constructor |].
  intros x y Hx [<- | []]. apply in_rev in Hx.
  now apply (proj1 (Forall_forall _ _) Ha).
Qed.

Lemma StronglySorted_map {A B : Type} (R : B -> B -> Prop) (f : A -> B)
      (l : list A) :
  StronglySorted (fun x y => R (f x) (f y)) l <-> StronglySorted R (map f l).
Proof.
  split.
  - intros H. induction H as [|a l Hl IH Ha]; simpl; constructor;
      [assumption | now rewrite Forall_map].
  - induction l as [|a l IH]; intros H; [constructor|].
    simpl in H. apply StronglySorted_inv in H as [Hl Ha].
    constructor; [now apply IH | now rewrite Forall_map in Ha].
Qed.

Lemma StronglySorted_impl {A : Type} (R R' : A -> A -> Prop) (l : list A) :
  (forall x y, In x l -> In y l -> R x y -> R' x y) ->
  StronglySorted R l -> StronglySorted R' l.
Proof.
  intros H S. induction S as [|a l Hl IH Ha]; constructor.
  - apply IH. intros x y Hx Hy. apply H; now right.
  - apply Forall_forall. intros y Hy. apply H; [now left | now right |].
    now apply (proj1 (Forall_forall _ _) Ha).
Qed.

Lemma iloc_all {A : Type} (pre rows : list A) :
  iloc (pre ++ rows) (seq (List.length pre) (List.length rows)) = rows.
Proof.
  revert pre. induction rows as [|x rows IH]; intros pre; [reflexivity|].
  specialize (IH (pre ++ [x])).
  rewrite <- app_assoc, length_app, Nat.add_1_r in IH. simpl app in IH.
  simpl List.length. simpl seq. rewrite iloc_cons.
  rewrite nth_error_app2 by lia. rewrite Nat.sub_diag. simpl.
  now rewrite IH.
Qed.

Lemma iloc_keys {A : Type} (col : A -> num) (rows : list A) (i : list nat) :
  in_range rows i ->
  map col (iloc rows i) = map (fun k => nth k (map col rows) NaN) i.
Proof.
  intros H. induction H as [|k i Hk Hi IH]; [reflexivity|].
  rewrite iloc_cons. apply nth_error_Some in Hk.
  destruct (nth_error rows k) as [r|] eqn:E; [|congruence].
  simpl. rewrite IH. f_equal.
  apply (map_nth_error col) in E. symmetry. now apply nth_error_nth.
Qed.

Section OrderedValues.
Context {A : Type}.
Variable argsort : list num -> list nat.
Hypothesis argsort_ok : argsort_spec argsort.
Variable col : A -> num.

Lemma keys_notna (rows : list A) :
  (forall r, In r rows -> notna (col r) = true) ->
  forallb notna (map col rows) = true.
Proof. intros H. now apply forallb_map_In. Qed.

Lemma argsort_in_range (rows : list A) :
  (forall r, In r rows -> notna (col r) = true) ->
  in_range rows (argsort (map col rows)).
Proof.
  intros H. destruct (argsort_ok _ (keys_notna rows H)) as [P _].
  apply Forall_forall. intros i Hi.
  apply (Permutation_in _ P), in_seq in Hi.
  rewrite length_map in Hi. lia.
Qed.

Lemma in_order_perm (rows : list A) :
  (forall r, In r rows -> notna (col r) = true) ->
  Permutation (in_order argsort col rows) rows.
Proof.
  intros H. destruct (argsort_ok _ (keys_notna rows H)) as [P _].
  rewrite length_map in P. unfold in_order, iloc.
  rewrite (Permutation_flat_map _ P).
  exact (eq_ind _ (fun l => Permutation l rows) (Permutation_refl rows) _
                (eq_sym (iloc_all [] rows))).
Qed.

Lemma in_order_sorted (rows : list A) :
  (forall r, In r rows -> notna (col r) = true) ->
  StronglySorted fleP (map col (in_order argsort col rows)).
Proof.
  intros H. destruct (argsort_ok _ (keys_notna rows H)) as [_ S].
  unfold in_order. now rewrite iloc_keys by now apply argsort_in_range.
Qed.

Lemma keyed_notna (frame : list A) :
  forall r, In r (keyed col frame) -> notna (col r) = true.
Proof. intros r H. now apply filter_In in H. Qed.

Lemma rev_keyed_notna (frame : list A) :
  forall r, In r (rev (keyed col frame)) -> notna (col r) = true.
Proof. intros r H. apply in_rev in H. now apply keyed_notna in H. Qed.

Lemma unkeyed_isnan (frame : list A) :
  forall r, In r (unkeyed col frame) -> isnan (col r) = true.
Proof. intros r H. now apply filter_In in H. Qed.

(** Sorting rearranges the rows of the table. *)
Lemma sort_values_perm (ascending : bool) (frame : list A) :
  Permutation (sort_values argsort col ascending frame) frame.
Proof.
  rewrite sort_values_eq.
  assert (P : Permutation (keyed col frame ++ unkeyed col frame) frame).
  { unfold keyed, unkeyed, notna. clear.
    induction frame as [|x l IH]; [reflexivity|].
    simpl. destruct (isnan (col x)); simpl.
    - rewrite <- IH at 3. symmetry. apply Permutation_middle.
    - now constructor. }
  apply Permutation_trans with (2 := P). apply Permutation_app_tail.
  destruct ascending.
  - apply in_order_perm, keyed_notna.
  - eapply Permutation_trans; [symmetry; apply Permutation_rev|].
    eapply Permutation_trans; [apply in_order_perm, rev_keyed_notna|].
    symmetry. apply Permutation_rev.
Qed.

(** After a descending sort every key is at least every later key, the
    missing keys being last; after an ascending sort at most. *)
Lemma sort_values_ordered (ascending : bool) (frame : list A) :
  StronglySorted (if ascending then ascends else descends)
                 (map col (sort_values argsort col ascending frame)).
Proof.
  rewrite sort_values_eq, map_app.
  assert (N : forall y, In y (map col (unkeyed col frame)) -> isnan y = true).
  { intros y Hy. apply in_map_iff in Hy as (r & <- & Hr).
    now apply unkeyed_isnan in Hr. }
  assert (SN : forall R : num -> num -> Prop,
             (forall x y, isnan y = true -> R x y) ->
             StronglySorted R (map col (unkeyed col frame))).
  { intros R HR. induction (map col (unkeyed col frame)) as [|y l IH];
      constructor.
    - apply IH. intros z Hz. apply N. now right.
    - apply Forall_forall. intros z Hz. apply HR, N. now right. }
  destruct ascending.
  - apply StronglySorted_app.
    + eapply StronglySorted_impl; [|apply in_order_sorted, keyed_notna].
      intros x y _ _ H. now left.
    + apply SN. intros x y Hy. now right.
    + intros x y _ Hy. right. now apply N.
  - apply StronglySorted_app.
    + rewrite map_rev.
      eapply StronglySorted_impl;
        [|apply StronglySorted_rev, in_order_sorted, rev_keyed_notna].
      intros x y _ _ H. now left.
    + apply SN. intros x y Hy. now right.
    + intros x y _ Hy. right. now apply N.
Qed.
End OrderedValues.

Lemma descends_never_increases (a b : num) : descends a b -> never_increases a b.
Proof.
  unfold never_increases. intros [H | H]; [now apply fle_not_flt|].
  destruct b; try discriminate. now destruct a.
Qed.

Lemma Sorted_impl {A : Type} (R R' : A -> A -> Prop) (l : list A) :
  (forall x y, In x l -> In y l -> R x y -> R' x y) ->
  Sorted R l -> Sorted R' l.
Proof.
  intros H S. induction S as [|a l Hl IH Ha]; constructor.
  - apply IH. intros x y Hx Hy. apply H; now right.
  - destruct Ha as [|b l Hab]; constructor.
    apply H; [now left | right; now left | assumption].
Qed.

Lemma sort_values_descending {A : Type} (argsort : list num -> list nat)
      (col : A -> num) (frame : list A) :
  argsort_spec argsort ->
  Sorted descends (map col (sort_values argsort col false frame)) /\
  Sorted never_increases (map col (sort_values argsort col false frame)).
Proof.
  intros H.
  assert (S : Sorted descends (map col (sort_values argsort col false frame))).
  { apply StronglySorted_Sorted.
    exact (sort_values_ordered argsort H col false frame). }
  split; [exact S|].
  eapply Sorted_impl; [|exact S].
  intros x y _ _. apply descends_never_increases.
Qed.

Lemma summary_revenue_finite (df : list prepared) (g : string * list prepared) :
  (forall r, In r df -> is_cell (Total_Revenue r) = true) ->
  (forall r, In r (snd g) -> In r df) ->
  isfinite (Summary.Total_Revenue (summary_agg g)) = true.
Proof.
  intros Hc Hg. cbn [summary_agg Summary.Total_Revenue].
  apply round2_finite, col_sum_finite, forallb_map_In.
  intros r Hr. apply Hc, Hg, Hr.
Qed.

Lemma descends_at_least (l : list num) :
  (forall x, In x l -> isfinite x = true) ->
  Sorted descends l -> Sorted at_least l.
Proof.
  intros H. apply Sorted_impl.
  intros x y _ Hy [L | N]; [exact L|].
  apply H in Hy. destruct y; discriminate.
Qed.

(** C9. Each summary is its grouped table, one row per group and no row
    lost or added, put in the order of its key, so that the key does not
    increase from a row to the next: the region and the segment summaries on
    summed total revenue, the category summary on mean profit margin.  A
    category whose mean margin is undefined is listed last; the revenue sums
    of at most a million rows of modest amounts are all defined, so in the
    region and segment summaries every key is at least the next one. *)
Theorem summaries_sorted
        (argsort : list num -> list nat)
        (sales : list sale) (stores : list store) :
  argsort_spec argsort ->
  let df := clean_and_prepare_data sales stores in
  let regional := map Summary.Total_Revenue (regional_summary argsort df) in
  let segments := map Summary.Total_Revenue (segment_summary argsort df) in
  let margins :=
    map Margins.Profit_Margin (analyze_categories_margins argsort df) in
  (Permutation (regional_summary argsort df)
               (map summary_agg
                    (groupby Region_Final String.eqb String.leb df)) /\
   Permutation (segment_summary argsort df)
               (map summary_agg
                    (groupby (fun r => Some (Segment r))
                             String.eqb String.leb df)) /\
   Permutation (analyze_categories_margins argsort df)
               (map margins_agg
                    (groupby (fun r => Category (base r))
                             String.eqb String.leb df))) /\
  (Sorted never_increases regional /\
   Sorted never_increases segments /\
   Sorted never_increases margins) /\
  (Sorted descends regional /\ Sorted descends segments /\
   Sorted descends margins) /\
  ((forall s, In s sales -> modest_amounts s = true) ->
   modest_table df ->
   Sorted at_least regional /\ Sorted at_least segments).
Proof.
  intros H df regional segments margins.
  pose proof (sort_values_descending argsort Summary.Total_Revenue
                (map summary_agg (groupby Region_Final String.eqb String.leb df))
                H) as [R1 R2].
  pose proof (sort_values_descending argsort Summary.Total_Revenue
                (map summary_agg
                     (groupby (fun r => Some (Segment r)) String.eqb String.leb df))
                H) as [S1 S2].
  pose proof (sort_values_descending argsort Margins.Profit_Margin
                (map margins_agg
                     (groupby (fun r => Category (base r)) String.eqb String.leb df))
                H) as [M1 M2].
  split.
  { repeat split; apply (sort_values_perm argsort H). }
  split; [now repeat split|]. split; [now repeat split|].
  intros Hm _.
  assert (Hc : forall r, In r df -> is_cell (Total_Revenue r) = true).
  { intros r Hr. apply (prepared_cells sales stores); [|exact Hr].
    intros s Hs. now apply modest_file_cells, Hm. }
  split.
  - apply descends_at_least; [|exact R1].
    intros x Hx. apply in_map_iff in Hx as (row & <- & Hrow).
    apply regional_summary_In in Hrow. rewrite Hrow.
    apply (summary_revenue_finite df); [assumption|].
    intros r Hr. now apply filter_In in Hr.
  - apply descends_at_least; [|exact S1].
    intros x Hx. apply in_map_iff in Hx as (row & <- & Hrow).
    apply segment_summary_In in Hrow. rewrite Hrow.
    apply (summary_revenue_finite df); [assumption|].
    intros r Hr. now apply filter_In in Hr.
Qed.

Lemma summaries_sorted_witness :
  let df := clean_and_prepare_data small_day [] in
  Permutation (regional_summary argsort_unstable df)
              (map summary_agg (groupby Region_Final String.eqb String.leb df)) /\
  Sorted never_increases
         (map Summary.Total_Revenue (regional_summary argsort_unstable df)) /\
  Sorted at_least
         (map Summary.Total_Revenue (regional_summary argsort_unstable df)).
Proof.
  intros df.
  pose proof (summaries_sorted argsort_unstable small_day []
                               argsort_unstable_spec)
    as [[P _] [[R _] [_ F]]].
  split; [exact P|]. split; [exact R|]. apply F.
  - intros s [<- | [<- | [<- | [<- | []]]]]; reflexivity.
  - unfold modest_table. simpl. lia.
Defined.

Example small_day_regions :
  map Summary.index
      (regional_summary argsort_unstable (clean_and_prepare_data small_day []))
  = ["Yorkshire"; "Humber"; "North"].
Proof. vm_compute. reflexivity. Qed.

(** ** The product slices *)

Lemma sorted_perm_unique {A : Type} (R : A -> A -> Prop) (l1 l2 : list A) :
  Permutation l1 l2 ->
  StronglySorted R l1 -> StronglySorted R l2 ->
  (forall x y, In x l1 -> In y l1 -> R x y -> R y x -> x = y) ->
  l1 = l2.
Proof.
  intros P S1. revert l2 P.
  induction S1 as [|a t1 St1 IH Ha]; intros l2 P S2 Anti.
  - apply Permutation_nil in P. now subst.
  - destruct l2 as [|b t2].
    + symmetry in P. now apply Permutation_nil in P.
    + apply StronglySorted_inv in S2 as [St2 Hb].
      assert (E : a = b).
      { assert (Hab : In a (b :: t2))
          by (apply (Permutation_in _ P); now left).
        assert (Hba : In b (a :: t1))
          by (apply (Permutation_in _ (Permutation_sym P)); now left).
        destruct Hab as [-> | Hab]; [reflexivity|].
        destruct Hba as [-> | Hba]; [reflexivity|].
        apply Anti; [now left | now right | |].
        - now apply (proj1 (Forall_forall _ _) Ha).
        - now apply (proj1 (Forall_forall _ _) Hb). }
      subst b. f_equal. apply Permutation_cons_inv in P.
      apply IH; [assumption | assumption |].
      intros x y Hx Hy. apply Anti; now right.
Qed.

(** Without ties among the keys, every sorting order that meets the promise
    of [argsort] sorts the table in the same way. *)
Lemma sort_values_determined {A : Type} (a1 a2 : list num -> list nat)
      (col : A -> num) (ascending : bool) (frame : list A) :
  argsort_spec a1 -> argsort_spec a2 ->
  (forall x y, In x frame -> In y frame -> tie (col x) (col y) -> x = y) ->
  sort_values a1 col ascending frame = sort_values a2 col ascending frame.
Proof.
  intros H1 H2 Hties.
  assert (G : forall rows,
             (forall r, In r rows -> In r frame) ->
             (forall r, In r rows -> notna (col r) = true) ->
             in_order a1 col rows = in_order a2 col rows).
  { intros rows Hin Hn.
    apply (sorted_perm_unique (fun x y => fleP (col x) (col y))).
    - rewrite (in_order_perm a1 H1 col rows Hn).
      symmetry. exact (in_order_perm a2 H2 col rows Hn).
    - apply StronglySorted_map. exact (in_order_sorted a1 H1 col rows Hn).
    - apply StronglySorted_map. exact (in_order_sorted a2 H2 col rows Hn).
    - intros x y Hx Hy L1 L2.
      apply (Permutation_in _ (in_order_perm a1 H1 col rows Hn)) in Hx, Hy.
      apply Hties; [now apply Hin | now apply Hin | now split]. }
  rewrite !sort_values_eq. f_equal.
  destruct ascending.
  - apply G; [|apply keyed_notna].
    intros r Hr. now apply filter_In in Hr.
  - f_equal. apply G; [|apply rev_keyed_notna].
    intros r Hr. apply in_rev in Hr. now apply filter_In in Hr.
Qed.

Lemma firstn_In {A : Type} (n : nat) (l : list A) (x : A) :
  In x (firstn n l) -> In x l.
Proof.
  revert n. induction l as [|a l IH]; intros [|n] H; simpl in H;
    try contradiction.
  destruct H as [<- | H]; [now left | right; eauto].
Qed.

Lemma StronglySorted_firstn {A : Type} (R : A -> A -> Prop)
      (n : nat) (l : list A) :
  StronglySorted R l -> StronglySorted R (firstn n l).
Proof.
  revert n. induction l as [|a l IH]; intros [|n] S; simpl; try constructor.
  - apply IH. now apply StronglySorted_inv in S.
  - apply StronglySorted_inv in S as [_ S].
    apply Forall_forall. intros y Hy. apply firstn_In in Hy.
    now apply (proj1 (Forall_forall _ _) S).
Qed.

Lemma StronglySorted_split {A : Type} (R : A -> A -> Prop) (n : nat) (l : list A) :
  StronglySorted R l ->
  forall x y, In x (firstn n l) -> In y (skipn n l) -> R x y.
Proof.
  revert n. induction l as [|a l IH]; intros [|n] S x y Hx Hy;
    simpl in Hx, Hy; try contradiction.
  apply StronglySorted_inv in S as [S Ha].
  destruct Hx as [<- | Hx].
  - apply (proj1 (Forall_forall _ _) Ha).
    rewrite <- (firstn_skipn n l). apply in_or_app. now right.
  - now apply (IH n).
Qed.

Lemma head_rest {A : Type} (n : nat) (l : list A) (y : A) :
  In y l -> ~ In y (head n l) -> In y (skipn n l).
Proof.
  intros Hy Hn. unfold head in Hn.
  rewrite <- (firstn_skipn n l) in Hy.
  apply in_app_or in Hy as [Hy | Hy]; [contradiction | assumption].
Qed.

(** C5, as stated, fails: the tied products do not come out in the order of
    the input rows.  The grouped table lists the products by key, so the
    same two orders entered in either order give the same product table and
    the same slices, whatever the sort; with a sort that leaves tied rows in
    place the kettle comes before the teapot also when the teapot was
    ordered first. *)
Lemma tied_products_ignore_row_order :
  let a := clean_and_prepare_data (rev tied_products) [] in
  let b := clean_and_prepare_data tied_products [] in
  first_seen (rev tied_products)
  = [("Teapot", "Kitchen"); ("Kettle", "Kitchen")] /\
  first_seen tied_products
  = [("Kettle", "Kitchen"); ("Teapot", "Kitchen")] /\
  product_revenue a = product_revenue b /\
  map Product.Total_Revenue (product_revenue a) = [Fin 8.00; Fin 8.00] /\
  map Product.index (top_products argsort_stable a)
  = [("Kettle", "Kitchen"); ("Teapot", "Kitchen")] /\
  ~ (exists argsort,
        map Product.index (top_products argsort a)
        = first_seen (rev tied_products) /\
        map Product.index (top_products argsort b)
        = first_seen tied_products).
Proof.
  intros a b.
  assert (E : product_revenue a = product_revenue b) by reflexivity.
  repeat split; try reflexivity.
  intros (argsort & Ha & Hb).
  unfold top_products in Ha, Hb. rewrite E, Hb in Ha.
  vm_compute in Ha. discriminate.
Qed.

(** C5, amended. The top-5 and the bottom-5 are the first five rows of the
    product table sorted on summed revenue, downwards and upwards: each has
    five rows, or all the product rows when there are fewer, taken from the
    product table and in sorted order, and no product left out of the top
    slice has a higher revenue than a row in it, none left out of the
    bottom slice a lower one.  When no two product groups tie on summed
    revenue, the two slices and their order are fixed by the input table:
    every sorting order the library may use returns the same slices.  The
    slices are read off the product table alone: two inputs with the same
    product table have the same slices, whatever the order of their rows. *)
Theorem product_slices_determined
        (a1 a2 : list num -> list nat) (df : list prepared) :
  argsort_spec a1 -> argsort_spec a2 ->
  (List.length (top_products a1 df)
   = Nat.min 5 (List.length (product_revenue df)) /\
   List.length (bottom_products a1 df)
   = Nat.min 5 (List.length (product_revenue df)) /\
   forall x, In x (top_products a1 df) \/ In x (bottom_products a1 df) ->
             In x (product_revenue df)) /\
  (Sorted descends (map Product.Total_Revenue (top_products a1 df)) /\
   Sorted ascends (map Product.Total_Revenue (bottom_products a1 df))) /\
  (forall x y,
      In y (product_revenue df) ->
      (In x (top_products a1 df) -> ~ In y (top_products a1 df) ->
       descends (Product.Total_Revenue x) (Product.Total_Revenue y)) /\
      (In x (bottom_products a1 df) -> ~ In y (bottom_products a1 df) ->
       ascends (Product.Total_Revenue x) (Product.Total_Revenue y))) /\
  ((forall x y,
       In x (product_revenue df) -> In y (product_revenue df) ->
       tie (Product.Total_Revenue x) (Product.Total_Revenue y) -> x = y) ->
   top_products a1 df = top_products a2 df /\
   bottom_products a1 df = bottom_products a2 df) /\
  (forall df',
      product_revenue df' = product_revenue df ->
      top_products a1 df' = top_products a1 df /\
      bottom_products a1 df' = bottom_products a1 df).
Proof.
  intros H1 H2. unfold top_products, bottom_products.
  set (table := product_revenue df).
  set (down := sort_values a1 Product.Total_Revenue false table).
  set (up := sort_values a1 Product.Total_Revenue true table).
  assert (Pd : Permutation down table) by apply (sort_values_perm a1 H1).
  assert (Pu : Permutation up table) by apply (sort_values_perm a1 H1).
  pose proof (sort_values_ordered a1 H1 Product.Total_Revenue false table)
    as Sd.
  pose proof (sort_values_ordered a1 H1 Product.Total_Revenue true table)
    as Su.
  fold down in Sd. fold up in Su.
  split; [|split; [|split; [|split]]].
  - unfold head. rewrite !length_firstn.
    rewrite (Permutation_length Pd), (Permutation_length Pu).
    repeat split.
    intros x [Hx | Hx]; apply firstn_In in Hx.
    + now apply (Permutation_in _ Pd).
    + now apply (Permutation_in _ Pu).
  - unfold head. rewrite <- !firstn_map.
    split; now apply StronglySorted_Sorted, StronglySorted_firstn.
  - intros x y Hy. split; intros Hx Hn.
    + apply (StronglySorted_split _ 5 down
               (proj2 (StronglySorted_map _ _ _) Sd)); [exact Hx|].
      apply head_rest; [|exact Hn].
      now apply (Permutation_in _ (Permutation_sym Pd)).
    + apply (StronglySorted_split _ 5 up
               (proj2 (StronglySorted_map _ _ _) Su)); [exact Hx|].
      apply head_rest; [|exact Hn].
      now apply (Permutation_in _ (Permutation_sym Pu)).
  - intros Hties. unfold down, up.
    now rewrite !(sort_values_determined a1 a2) by assumption.
  - intros df' E. now rewrite E.
Qed.

Lemma product_slices_determined_witness :
  let df := clean_and_prepare_data small_day [] in
  top_products argsort_stable df = top_products argsort_unstable df /\
  bottom_products argsort_stable df = bottom_products argsort_unstable df.
Proof.
  intros df.
  refine (proj1 (proj2 (proj2 (proj2 (product_slices_determined
                   argsort_stable argsort_unstable df
                   argsort_stable_spec argsort_unstable_spec)))) _).
  intros x y Hx Hy. vm_compute in Hx, Hy.
  destruct Hx as [<- | [<- | [<- | []]]];
    destruct Hy as [<- | [<- | [<- | []]]];
    intros [T1 T2]; try reflexivity; vm_compute in T1, T2; discriminate.
Defined.

(** ** When the run succeeds *)

Lemma fold_dates_some (f : Z -> Z -> Z) (l : list (option Z)) :
  (exists x, fold_dates f l = Some x) <-> (exists d, In (Some d) l).
Proof.
  unfold fold_dates. induction l as [|o l IH]; simpl.
  - split; intros [x H]; [discriminate | contradiction].
  - destruct o as [x|].
    + split; intros _; [exists x; now left|].
      destruct (fold_right _ None l); eauto.
    + rewrite IH. split; intros [d H]; exists d; [now right|].
      destruct H as [E | H]; [discriminate | assumption].
Qed.

Lemma strftime_ok (f : Z -> Z -> Z) (l : list (option Z)) :
  (exists x, strftime (fold_dates f l) = Ok x) <-> (exists d, In (Some d) l).
Proof.
  rewrite <- (fold_dates_some f).
  destruct (fold_dates f l) as [x|]; simpl; split; intros [y H];
    try discriminate; eauto.
Qed.

Lemma index_at_ok {A : Type} (l : list A) (i : nat) :
  (exists a, index_at l i = Ok a) <-> (i < List.length l)%nat.
Proof.
  unfold index_at. rewrite <- nth_error_Some.
  destruct (nth_error l i); split; try congruence; eauto.
  intros [a H]. discriminate.
Qed.

Lemma index_last_ok {A : Type} (l : list A) :
  (exists a, index_last l = Ok a) <-> (0 < List.length l)%nat.
Proof.
  unfold index_last. rewrite <- (length_rev l).
  destruct (rev l); simpl; split; try lia; eauto.
  intros [a H]. discriminate.
Qed.

Lemma loc_ok (label : string) (frame : list Channel.row) :
  (exists r, loc label frame = Ok r) <-> In label (map Channel.index frame).
Proof.
  split.
  - unfold loc. intros [r H].
    destruct (find _ frame) as [r'|] eqn:F; [|discriminate].
    apply find_some in F as [Hin E]. apply String.eqb_eq in E.
    rewrite <- E. now apply in_map.
  - intros H. apply in_map_iff in H as (r & E & Hr).
    apply loc_present. eauto.
Qed.

(** The report is produced exactly when its lookups succeed. *)
Lemma report_ok_iff
      (df : list prepared) (regional segments : list Summary.row)
      (top bottom : list Product.row) (margins : list Margins.row)
      (modes : list Channel.row) :
  (exists rep,
      generate_insights_report df regional segments top bottom margins modes
      = Ok rep) <->
  ((exists d, In (Some d) (map (fun r => Order_Date (base r)) df)) /\
   (2 <= List.length regional)%nat /\
   (1 <= List.length segments)%nat /\
   (2 <= List.length margins)%nat /\
   In "Online" (map Channel.index modes) /\
   In "In-Store" (map Channel.index modes)).
Proof.
  rewrite <- (strftime_ok Z.min), <- !loc_ok.
  pose proof (strftime_ok Z.min (map (fun r => Order_Date (base r)) df)) as D1.
  pose proof (strftime_ok Z.max (map (fun r => Order_Date (base r)) df)) as D2.
  pose proof (index_at_ok regional 0) as R0.
  pose proof (index_at_ok regional 1) as R1.
  pose proof (index_last_ok regional) as RL.
  pose proof (index_at_ok segments 0) as S0.
  pose proof (index_at_ok margins 0) as C0.
  pose proof (index_at_ok margins 1) as C1.
  unfold generate_insights_report.
  destruct (strftime (fold_dates Z.min _)) as [d1|e1].
  2:{ split; [intros [rep H]; discriminate|]. intros ([x H] & _). discriminate. }
  destruct (strftime (fold_dates Z.max _)) as [d2|e2].
  2:{ split; [intros [rep H]; discriminate|]. intros (Hd & _).
      apply D1, D2 in Hd as [x H]. discriminate. }
  destruct (index_at regional 0) as [r0|e].
  2:{ split; [intros [rep H]; discriminate|]. intros (_ & Hr & _).
      assert (L : (0 < List.length regional)%nat) by lia.
      apply R0 in L as [x H]. discriminate. }
  destruct (index_at segments 0) as [s0|e].
  2:{ split; [intros [rep H]; discriminate|]. intros (_ & _ & Hs & _).
      apply S0 in Hs as [x H]. discriminate. }
  destruct (index_at margins 0) as [c0|e].
  2:{ split; [intros [rep H]; discriminate|]. intros (_ & _ & _ & Hc & _).
      assert (L : (0 < List.length margins)%nat) by lia.
      apply C0 in L as [x H]. discriminate. }
  destruct (loc "Online" modes) as [on|e].
  2:{ split; [intros [rep H]; discriminate|].
      intros (_ & _ & _ & _ & [x H] & _). discriminate. }
  destruct (loc "In-Store" modes) as [ins|e].
  2:{ split; [intros [rep H]; discriminate|].
      intros (_ & _ & _ & _ & _ & [x H]). discriminate. }
  destruct (index_at regional 1) as [r1|e].
  2:{ split; [intros [rep H]; discriminate|]. intros (_ & Hr & _).
      apply R1 in Hr as [x H]. discriminate. }
  destruct (index_last regional) as [rl|e].
  2:{ split; [intros [rep H]; discriminate|]. intros (_ & Hr & _).
      assert (L : (0 < List.length regional)%nat) by lia.
      apply RL in L as [x H]. discriminate. }
  destruct (index_at margins 1) as [c1|e].
  2:{ split; [intros [rep H]; discriminate|]. intros (_ & _ & _ & Hc & _).
      apply C1 in Hc as [x H]. discriminate. }
  simpl. split; [intros _ | eauto].
  repeat split; eauto.
  - apply R1. eauto.
  - apply S0. eauto.
  - apply C1. eauto.
Qed.

Lemma groupby_keys {R K : Type} (key : R -> option K)
      (eqb leb : K -> K -> bool) (rows : list R) :
  map fst (groupby key eqb leb rows)
  = sort_keys leb (unique eqb (key_cells key rows)).
Proof.
  unfold groupby. rewrite map_map. simpl. apply map_id.
Qed.

Lemma groupby_length {R K : Type} (key : R -> option K)
      (eqb leb : K -> K -> bool) (rows : list R) :
  List.length (groupby key eqb leb rows)
  = List.length (unique eqb (key_cells key rows)).
Proof.
  rewrite <- (length_map fst), groupby_keys. apply sort_keys_length.
Qed.

Lemma unique_In (x : string) (l : list string) :
  In x (unique String.eqb l) <-> In x l.
Proof.
  split; [exact (unique_incl String.eqb x l)|].
  induction l as [|h t IH]; [intros []|].
  simpl. intros [-> | H]; [now left|].
  destruct (String.eqb h x) eqn:E.
  - apply String.eqb_eq in E. now left.
  - right. apply filter_In. split; [now apply IH | now rewrite E].
Qed.

Lemma channel_index (df : list prepared) :
  map Channel.index (analyze_order_mode df)
  = sort_keys String.leb
              (unique String.eqb (key_cells (fun r => Order_Mode (base r)) df)).
Proof.
  rewrite <- groupby_keys. unfold analyze_order_mode. cbv zeta.
  rewrite !map_map. apply map_ext. reflexivity.
Qed.

(** With a sorting order that meets the promise of [argsort], the run
    produces its report exactly when the lookups of the report succeed. *)
Lemma main_ok_iff (argsort : list num -> list nat)
      (sales : list sale) (stores : list store) :
  argsort_spec argsort ->
  (exists rep, main argsort sales stores = Ok rep) <->
  report_lookups_ok (clean_and_prepare_data sales stores).
Proof.
  intros H. rewrite main_eq. cbv zeta.
  set (df := clean_and_prepare_data sales stores).
  rewrite report_ok_iff. unfold report_lookups_ok.
  unfold regional_summary, segment_summary, analyze_categories_margins.
  rewrite !(Permutation_length (sort_values_perm argsort H _ false _)).
  rewrite !length_map, !groupby_length.
  rewrite channel_index, !sort_keys_In, !unique_In.
  reflexivity.
Qed.

Lemma clean_map_labels {B : Type} (g : prepared -> B)
      (sales sales' : list sale) (stores : list store) :
  (forall s s' x, same_labels s s' -> g (enrich s x) = g (enrich s' x)) ->
  Forall2 same_labels sales sales' ->
  map g (clean_and_prepare_data sales stores)
  = map g (clean_and_prepare_data sales' stores).
Proof.
  intros Hg H. unfold clean_and_prepare_data.
  induction H as [|s s' l l' Hs Hl IH]; [reflexivity|].
  simpl. rewrite !map_app, IH, !map_map. f_equal.
  assert (E : merge_regions s stores = merge_regions s' stores).
  { unfold merge_regions.
    rewrite (filter_ext (key_match s) (key_match s')); [reflexivity|].
    intros t. unfold key_match.
    destruct Hs as (_ & _ & -> & -> & _). reflexivity. }
  rewrite E. apply map_ext. intros x. now apply Hg.
Qed.

Lemma key_cells_map {R K : Type} (key : R -> option K) (rows : list R) :
  key_cells key rows = key_cells (fun o => o) (map key rows).
Proof.
  unfold key_cells. induction rows as [|r rows IH]; [reflexivity|].
  simpl. now rewrite IH.
Qed.

(** The lookups of the report read dates and labels, and no amount. *)
Lemma report_lookups_labels (sales sales' : list sale) (stores : list store) :
  Forall2 same_labels sales sales' ->
  report_lookups_ok (clean_and_prepare_data sales stores) ->
  report_lookups_ok (clean_and_prepare_data sales' stores).
Proof.
  intros H. unfold report_lookups_ok.
  rewrite (key_cells_map Region_Final),
          (key_cells_map (fun r => Some (Segment r))),
          (key_cells_map (fun r => Category (base r))),
          (key_cells_map (fun r => Order_Mode (base r))).
  rewrite (key_cells_map Region_Final (clean_and_prepare_data sales' stores)),
          (key_cells_map (fun r => Some (Segment r))
                         (clean_and_prepare_data sales' stores)),
          (key_cells_map (fun r => Category (base r))
                         (clean_and_prepare_data sales' stores)),
          (key_cells_map (fun r => Order_Mode (base r))
                         (clean_and_prepare_data sales' stores)).
  rewrite (clean_map_labels (fun r => Order_Date (base r)) sales sales' stores),
          (clean_map_labels Region_Final sales sales' stores),
          (clean_map_labels (fun r => Some (Segment r)) sales sales' stores),
          (clean_map_labels (fun r => Category (base r)) sales sales' stores),
          (clean_map_labels (fun r => Order_Mode (base r)) sales sales' stores);
    try assumption; try tauto;
    intros s s' x (Hd & Hc & _ & _ & Hr & Hm); cbn [enrich base Region_Final Segment];
    congruence.
Qed.

(** ** A zero sales price *)

(** C1, as stated, fails: the gift has price 0 and cost 0, its margin is
    [NaN], no step raises on it, and the category summary carries [NaN] as
    the mean margin of the category of the gift; the report is then written
    from these tables. *)
Lemma zero_price_not_handled :
  let df := clean_and_prepare_data gift_day [] in
  (exists r, In r df /\ Sales (base r) = Fin 0 /\ Profit_Margin r = NaN) /\
  (exists c, In c (analyze_categories_margins argsort_stable df) /\
             Margins.index c = "Gifts" /\ Margins.Profit_Margin c = NaN) /\
  (exists rep, insights_of argsort_stable df = Ok rep).
Proof.
  intros df. split; [|split].
  - eexists. split; [do 4 right; left; reflexivity|]. split; reflexivity.
  - eexists. split; [do 3 right; left; reflexivity|]. split; reflexivity.
  - eexists. vm_compute. reflexivity.
Qed.

Lemma margin_at_zero_price (s : sale) (a c : Q) :
  Sales s = Fin a -> a == 0 -> Cost_Price s = Fin c ->
  profit_margin_of s
  = match Qcompare c 0 with
    | Eq => NaN
    | Gt => NInf
    | Lt => PInf
    end.
Proof.
  intros Hs Ha Hc. unfold profit_margin_of, revenue_of.
  rewrite Hs, Hc. cbn [fsub fneg fadd fdiv].
  assert (Z : Qeq_bool a 0 = true) by now apply Qeq_bool_iff.
  rewrite Z. unfold scale_inf, Qsgn.
  destruct (Qcompare c 0) eqn:C.
  - apply Qeq_alt in C.
    assert (E : Qcompare (a + - c) 0 = Eq) by (rewrite <- Qeq_alt; lra).
    now rewrite E.
  - apply Qlt_alt in C.
    assert (E : Qcompare (a + - c) 0 = Gt) by (rewrite <- Qgt_alt; lra).
    now rewrite E.
  - apply Qgt_alt in C.
    assert (E : Qcompare (a + - c) 0 = Lt) by (rewrite <- Qlt_alt; lra).
    now rewrite E.
Qed.

Lemma col_mean_all_nan (l : list num) :
  (forall x, In x l -> x = NaN) -> col_mean l = NaN.
Proof.
  intros H. unfold col_mean.
  assert (E : dropna l = []).
  { apply filter_nil_iff. intros x Hx. now rewrite (H x Hx). }
  now rewrite E.
Qed.

Lemma category_margins_In (argsort : list num -> list nat)
      (df : list prepared) (row : Margins.row) :
  In row (analyze_categories_margins argsort df) ->
  Margins.Profit_Margin row
  = round2 (col_mean (map Profit_Margin (category_rows df (Margins.index row)))).
Proof.
  intros H. apply sort_values_In, in_map_iff in H as (g & <- & Hg).
  apply groupby_In in Hg as [_ E]. destruct g as [k rows].
  simpl in *. now subst.
Qed.

Lemma total_with_infinity (l : list num) :
  In NInf l \/ In PInf l -> isfinite (total l) = false.
Proof.
  induction l as [|x l IH]; intros H; [destruct H as [[] | []]|].
  change (total (x :: l)) with (fadd x (total l)).
  assert (C : (x = NInf \/ x = PInf) \/ (In NInf l \/ In PInf l)).
  { destruct H as [[-> | H] | [-> | H]]; auto. }
  destruct C as [[-> | ->] | C].
  - now destruct (total l).
  - now destruct (total l).
  - specialize (IH C). destruct (total l); [discriminate | | |];
      now destruct x.
Qed.

Lemma col_mean_with_infinity (l : list num) :
  In NInf l \/ In PInf l -> isfinite (round2 (col_mean l)) = false.
Proof.
  intros H. unfold col_mean.
  assert (Hd : In NInf (dropna l) \/ In PInf (dropna l)).
  { unfold dropna. destruct H as [H | H]; [left | right];
      apply filter_In; now split. }
  pose proof (total_with_infinity _ Hd) as T.
  destruct (dropna l) as [|x v] eqn:E; [destruct Hd as [[] | []]|].
  destruct (total (x :: v)); [discriminate | | | reflexivity];
    cbn [fdiv]; now destruct (Qle_bool 0 _).
Qed.

(** C1, amended. A sales price of 0 raises no failure.  The profit margin of
    such a row is [NaN] when the cost is 0 as well and an infinity
    otherwise, and the row is kept in the prepared table with that margin.
    The report does not stop on it either: whether
    [generate_insights_report] returns depends on the dates and the labels
    of the table and on no price, cost, quantity or discount.  The mean
    margin of a category is the rounded mean of the margins that are not
    [NaN]: it is [NaN] when every margin of the category is, and it is an
    infinity or [NaN], never a number, when a margin of the category is an
    infinity. *)
Theorem zero_price_margin
        (argsort : list num -> list nat)
        (sales sales' : list sale) (stores : list store) :
  (forall s a c,
      Sales s = Fin a -> a == 0 -> Cost_Price s = Fin c ->
      (c == 0 -> profit_margin_of s = NaN) /\
      (~ c == 0 -> profit_margin_of s = PInf \/ profit_margin_of s = NInf)) /\
  (forall s, In s sales ->
             exists r, In r (clean_and_prepare_data sales stores) /\
                       base r = s /\ Profit_Margin r = profit_margin_of s) /\
  (argsort_spec argsort ->
   Forall2 same_labels sales sales' ->
   (exists rep,
       insights_of argsort (clean_and_prepare_data sales stores) = Ok rep) ->
   exists rep',
     insights_of argsort (clean_and_prepare_data sales' stores) = Ok rep') /\
  (forall row,
      In row (analyze_categories_margins
                argsort (clean_and_prepare_data sales stores)) ->
      let margins :=
        map Profit_Margin
            (category_rows (clean_and_prepare_data sales stores)
                           (Margins.index row)) in
      Margins.Profit_Margin row = round2 (col_mean (dropna margins)) /\
      ((forall x, In x margins -> x = NaN) -> Margins.Profit_Margin row = NaN) /\
      (In NInf margins \/ In PInf margins ->
       isfinite (Margins.Profit_Margin row) = false)).
Proof.
  split; [|split; [|split]].
  - intros s a c Hs Ha Hc.
    rewrite (margin_at_zero_price s a c Hs Ha Hc).
    destruct (Qcompare c 0) eqn:E.
    + split; [reflexivity|]. intros N. apply Qeq_alt in E. contradiction.
    + split; [|auto]. intros Z. rewrite <- Qlt_alt in E. lra.
    + split; [|auto]. intros Z. rewrite <- Qgt_alt in E. lra.
  - intros s Hs. destruct (in_clean_intro sales stores s Hs) as (r & Hr & E).
    exists r. split; [assumption|]. split; [assumption|].
    apply in_clean_inv in Hr as (_ & _ & Er). rewrite Er at 1. now rewrite E.
  - intros Hspec Hl Hok.
    apply (main_ok_iff argsort sales' stores Hspec).
    apply (report_lookups_labels sales sales' stores Hl).
    now apply (main_ok_iff argsort sales stores Hspec).
  - intros row Hrow margins. apply category_margins_In in Hrow.
    fold margins in Hrow. rewrite Hrow. split; [|split].
    + now rewrite col_mean_dropna.
    + intros H. now rewrite (col_mean_all_nan _ H).
    + apply col_mean_with_infinity.
Qed.

Lemma zero_price_margin_witness :
  exists rep,
    insights_of argsort_stable
                (clean_and_prepare_data (first_free small_day) []) = Ok rep.
Proof.
  refine (proj1 (proj2 (proj2 (zero_price_margin
            argsort_stable small_day (first_free small_day) [])))
            argsort_stable_spec _ _).
  - repeat constructor.
  - eexists. vm_compute. reflexivity.
Defined.

(** * Further properties *)

(** ** Groups partition the rows *)

Lemma flat_map_ext_in {A B : Type} (f g : A -> list B) (l : list A) :
  (forall a, In a l -> f a = g a) -> flat_map f l = flat_map g l.
Proof.
  intros H. induction l as [|a l IH]; [reflexivity|].
  simpl. rewrite (H a (or_introl eq_refl)), IH; [reflexivity|].
  intros b Hb. apply H. now right.
Qed.

Section Partition.
Context {R K : Type}.
Variable key : R -> option K.
Variable eqb : K -> K -> bool.
Variable leb : K -> K -> bool.
Hypothesis eqb_eq : forall a b, eqb a b = true <-> a = b.

Lemma eqb_refl_gen (a : K) : eqb a a = true.
Proof using eqb_eq. now apply eqb_eq. Qed.

Lemma unique_In_gen (x : K) (l : list K) : In x (unique eqb l) <-> In x l.
Proof using eqb_eq.
  split; [apply unique_incl|].
  induction l as [|h t IH]; [intros []|].
  simpl. intros [-> | H]; [now left|].
  destruct (eqb h x) eqn:E.
  - apply eqb_eq in E. now left.
  - right. apply filter_In. split; [now apply IH | now rewrite E].
Qed.

Lemma unique_NoDup (l : list K) : NoDup (unique eqb l).
Proof using eqb_eq.
  induction l as [|h t IH]; simpl; constructor.
  - intros H. apply filter_In in H as [_ H].
    now rewrite eqb_refl_gen in H.
  - now apply NoDup_filter.
Qed.

Lemma insert_key_perm (k : K) (l : list K) :
  Permutation (insert_key leb k l) (k :: l).
Proof using Type.
  induction l as [|h t IH]; simpl; [reflexivity|].
  destruct (leb k h); [reflexivity|].
  rewrite IH. apply perm_swap.
Qed.

Lemma sort_keys_perm (l : list K) : Permutation (sort_keys leb l) l.
Proof using Type.
  induction l as [|h t IH]; simpl; [reflexivity|].
  now rewrite insert_key_perm, IH.
Qed.

Lemma group_keys_NoDup (rows : list R) :
  NoDup (map fst (groupby key eqb leb rows)).
Proof using eqb_eq.
  rewrite groupby_keys.
  apply (Permutation_NoDup (Permutation_sym (sort_keys_perm _))).
  apply unique_NoDup.
Qed.

Lemma has_key_iff (k : K) (r : R) : has_key key eqb k r = true <-> key r = Some k.
Proof using eqb_eq.
  unfold has_key. destruct (key r) as [k'|]; [|split; discriminate].
  rewrite eqb_eq. split; congruence.
Qed.

(** The rows of the keys [ks], group after group, are the keyed rows, when
    no key is listed twice and every key of the table is listed. *)
Lemma groups_perm (ks : list K) (rows : list R) :
  NoDup ks ->
  (forall r k, In r rows -> key r = Some k -> In k ks) ->
  Permutation (flat_map (fun k => filter (has_key key eqb k) rows) ks)
              (keyed_rows key rows).
Proof using eqb_eq.
  intros Hnd. induction rows as [|r rows IH]; intros Hall.
  - clear. induction ks as [|k ks IHk]; [reflexivity | exact IHk].
  - assert (IH' := IH (fun r' k Hr => Hall r' k (or_intror Hr))). clear IH.
    assert (Ec : keyed_rows key (r :: rows)
                 = if notnull (key r) then r :: keyed_rows key rows
                   else keyed_rows key rows) by reflexivity.
    rewrite Ec. clear Ec.
    destruct (key r) as [k0|] eqn:Ek; cbn [notnull].
    + assert (Hk0 : In k0 ks) by (apply (Hall r k0); [now left | assumption]).
      apply in_split in Hk0 as (l1 & l2 & ->).
      apply NoDup_remove_2 in Hnd.
      assert (Hoff : forall l, ~ In k0 l ->
                flat_map (fun k => filter (has_key key eqb k) (r :: rows)) l
                = flat_map (fun k => filter (has_key key eqb k) rows) l).
      { intros l Hl. apply flat_map_ext_in. intros k Hk. cbn [filter].
        destruct (has_key key eqb k r) eqn:E; [|reflexivity].
        apply has_key_iff in E. rewrite Ek in E. inversion E. subst.
        contradiction. }
      rewrite !flat_map_app in *. cbn [flat_map] in *.
      rewrite (Hoff l1), (Hoff l2)
        by (intros H; apply Hnd, in_or_app; auto).
      cbn [filter]. rewrite (proj2 (has_key_iff k0 r) Ek).
      rewrite <- IH'. symmetry. apply Permutation_middle.
    + rewrite <- IH'.
      rewrite (flat_map_ext_in
                 (fun k => filter (has_key key eqb k) (r :: rows))
                 (fun k => filter (has_key key eqb k) rows)); [reflexivity|].
      intros k _. cbn [filter].
      destruct (has_key key eqb k r) eqn:E; [|reflexivity].
      apply has_key_iff in E. congruence.
Qed.

Lemma groupby_rows_perm (rows : list R) :
  Permutation (List.concat (map snd (groupby key eqb leb rows)))
              (keyed_rows key rows).
Proof using eqb_eq.
  unfold groupby. rewrite map_map. cbn [snd]. rewrite <- flat_map_concat_map.
  apply groups_perm.
  - apply (Permutation_NoDup (Permutation_sym (sort_keys_perm _))).
    apply unique_NoDup.
  - intros r k Hr Hk. apply sort_keys_In, unique_In_gen, key_cells_In. eauto.
Qed.

Lemma groupby_nonempty (g : K * list R) (rows : list R) :
  In g (groupby key eqb leb rows) -> snd g <> [].
Proof using eqb_eq.
  intros H. apply groupby_In in H as [(r & Hr & Hk) E].
  rewrite E. intros N.
  assert (Hin : In r (filter (has_key key eqb (fst g)) rows))
    by (apply filter_In; split; [assumption | now apply has_key_iff]).
  now rewrite N in Hin.
Qed.
End Partition.

(** X1. [groupby] splits the rows that have a key into groups: no key heads
    two groups, no group is empty, the rows of a group are the rows of the
    table with the key of the group, and the groups together hold every
    keyed row exactly once. *)
Theorem groupby_partitions {R K : Type} (key : R -> option K)
        (eqb leb : K -> K -> bool) (rows : list R) :
  (forall a b, eqb a b = true <-> a = b) ->
  NoDup (map fst (groupby key eqb leb rows)) /\
  (forall g, In g (groupby key eqb leb rows) ->
             snd g <> [] /\
             forall r, In r (snd g) <-> In r rows /\ key r = Some (fst g)) /\
  Permutation (List.concat (map snd (groupby key eqb leb rows)))
              (keyed_rows key rows).
Proof.
  intros H. split; [now apply group_keys_NoDup|].
  split; [|now apply groupby_rows_perm].
  intros g Hg. split; [now apply (groupby_nonempty key eqb leb H g rows)|].
  apply groupby_In in Hg as [_ E]. intros r. rewrite E, filter_In.
  now rewrite (has_key_iff key eqb H).
Qed.

Lemma groupby_partitions_witness :
  Permutation
    (List.concat
       (map snd (groupby (fun o : option string => o) String.eqb String.leb
                         [Some "b"; None; Some "a"; Some "b"])))
    [Some "b"; Some "a"; Some "b"].
Proof.
  exact (proj2 (proj2 (groupby_partitions
                         (fun o : option string => o) String.eqb String.leb
                         [Some "b"; None; Some "a"; Some "b"]
                         String.eqb_eq))).
Defined.

(** ** Labels of the summaries *)

Lemma summary_index_groupby (key : prepared -> option string) (df : list prepared) :
  map Summary.index (map summary_agg (groupby key String.eqb String.leb df))
  = map fst (groupby key String.eqb String.leb df).
Proof. rewrite map_map. apply map_ext. reflexivity. Qed.

Lemma margins_index_groupby (key : prepared -> option string) (df : list prepared) :
  map Margins.index (map margins_agg (groupby key String.eqb String.leb df))
  = map fst (groupby key String.eqb String.leb df).
Proof. rewrite map_map. apply map_ext. reflexivity. Qed.

Lemma group_keys_In (key : prepared -> option string) (df : list prepared)
      (label : string) :
  In label (map fst (groupby key String.eqb String.leb df)) <->
  exists r, In r df /\ key r = Some label.
Proof.
  rewrite groupby_keys, sort_keys_In, unique_In. apply key_cells_In.
Qed.

(** X2. Every summary has one row for each label that occurs in the prepared
    table and no other row: a label heads a row of the regional summary
    exactly when some row resolves to that region, and likewise for the
    categories of the margin summary and the channels of the channel table;
    no label heads two rows. *)
Theorem summary_labels (argsort : list num -> list nat) (df : list prepared) :
  argsort_spec argsort ->
  (NoDup (map Summary.index (regional_summary argsort df)) /\
   forall label,
     In label (map Summary.index (regional_summary argsort df)) <->
     exists r, In r df /\ Region_Final r = Some label) /\
  (NoDup (map Margins.index (analyze_categories_margins argsort df)) /\
   forall label,
     In label (map Margins.index (analyze_categories_margins argsort df)) <->
     exists r, In r df /\ Category (base r) = Some label) /\
  (NoDup (map Channel.index (analyze_order_mode df)) /\
   forall label,
     In label (map Channel.index (analyze_order_mode df)) <->
     exists r, In r df /\ Order_Mode (base r) = Some label).
Proof.
  intros H. split; [|split].
  - pose proof (Permutation_map Summary.index
                  (sort_values_perm argsort H Summary.Total_Revenue false
                     (map summary_agg
                          (groupby Region_Final String.eqb String.leb df)))) as P.
    rewrite summary_index_groupby in P. split.
    + apply (Permutation_NoDup (Permutation_sym P)).
      apply group_keys_NoDup, String.eqb_eq.
    + intros label. rewrite <- group_keys_In. split; apply Permutation_in;
        [exact P | exact (Permutation_sym P)].
  - pose proof (Permutation_map Margins.index
                  (sort_values_perm argsort H Margins.Profit_Margin false
                     (map margins_agg
                          (groupby (fun r => Category (base r))
                                   String.eqb String.leb df)))) as P.
    rewrite margins_index_groupby in P. split.
    + apply (Permutation_NoDup (Permutation_sym P)).
      apply group_keys_NoDup, String.eqb_eq.
    + intros label.
      rewrite <- (group_keys_In (fun r => Category (base r))).
      split; apply Permutation_in; [exact P | exact (Permutation_sym P)].
  - rewrite channel_index, <- groupby_keys. split.
    + apply group_keys_NoDup, String.eqb_eq.
    + intros label. apply (group_keys_In (fun r => Order_Mode (base r))).
Qed.

Lemma summary_labels_witness :
  NoDup (map Summary.index
             (regional_summary argsort_stable
                               (clean_and_prepare_data small_day []))).
Proof.
  exact (proj1 (proj1 (summary_labels argsort_stable
                         (clean_and_prepare_data small_day [])
                         argsort_stable_spec))).
Defined.

Lemma segment_of_range (x : option string) : In (segment_of x) the_segments.
Proof.
  unfold segment_of, the_segments.
  repeat match goal with
         | |- context [if ?c then _ else _] => destruct c
         end; simpl; auto 6.
Qed.

(** X3. The segment summary of a prepared table has at most five rows, each
    headed by one of the five segment names, and none of the names heads two
    rows. *)
Theorem segment_summary_rows (argsort : list num -> list nat)
        (sales : list sale) (stores : list store) :
  argsort_spec argsort ->
  let summary := segment_summary argsort (clean_and_prepare_data sales stores) in
  (forall row, In row summary -> In (Summary.index row) the_segments) /\
  NoDup (map Summary.index summary) /\
  (List.length summary <= 5)%nat.
Proof.
  intros H summary.
  pose proof (Permutation_map Summary.index
                (sort_values_perm argsort H Summary.Total_Revenue false
                   (map summary_agg
                        (groupby (fun r => Some (Segment r))
                                 String.eqb String.leb
                                 (clean_and_prepare_data sales stores))))) as P.
  rewrite summary_index_groupby in P.
  fold (segment_summary argsort (clean_and_prepare_data sales stores)) in P.
  fold summary in P.
  assert (Hin : forall label,
             In label (map Summary.index summary) -> In label the_segments).
  { intros label Hl. apply (Permutation_in _ P) in Hl.
    apply (group_keys_In (fun r => Some (Segment r))) in Hl as (r & Hr & E).
    inversion E as [E']. apply in_clean_inv in Hr as (_ & _ & Er).
    rewrite Er. apply segment_of_range. }
  assert (Hnd : NoDup (map Summary.index summary)).
  { apply (Permutation_NoDup (Permutation_sym P)).
    apply group_keys_NoDup, String.eqb_eq. }
  split; [|split; [exact Hnd|]].
  - intros row Hrow. apply Hin. now apply in_map.
  - rewrite <- (length_map Summary.index).
    apply (NoDup_incl_length Hnd (l' := the_segments)). exact Hin.
Qed.

Lemma segment_summary_rows_witness :
  (List.length (segment_summary argsort_stable
                                (clean_and_prepare_data small_day [])) <= 5)%nat.
Proof.
  exact (proj2 (proj2 (segment_summary_rows argsort_stable small_day []
                                            argsort_stable_spec))).
Defined.

(** ** Counts and sums over the groups *)

Lemma col_count_perm {A : Type} (l l' : list (option A)) :
  Permutation l l' -> col_count l = col_count l'.
Proof.
  intros P. unfold col_count. apply Permutation_length.
  induction P; simpl.
  - reflexivity.
  - destruct (notnull x); [now constructor | assumption].
  - destruct (notnull x), (notnull y); try reflexivity. apply perm_swap.
  - now transitivity (filter notnull l').
Qed.

Lemma col_count_app {A : Type} (l l' : list (option A)) :
  col_count (l ++ l') = (col_count l + col_count l')%nat.
Proof. unfold col_count. now rewrite filter_app, length_app. Qed.

Lemma sum_counts_perm (l l' : list nat) :
  Permutation l l' -> sum_counts l = sum_counts l'.
Proof.
  intros P. unfold sum_counts. induction P; simpl; lia.
Qed.

Lemma group_counts {R K A : Type} (f : R -> option A) (gs : list (K * list R)) :
  sum_counts (map (fun g => col_count (map f (snd g))) gs)
  = col_count (map f (List.concat (map snd gs))).
Proof.
  induction gs as [|g gs IH]; [reflexivity|].
  simpl. now rewrite map_app, col_count_app, IH.
Qed.

Lemma groupby_counts (key : prepared -> option string) (df : list prepared) :
  sum_counts (map (fun g => col_count (order_ids (snd g)))
                  (groupby key String.eqb String.leb df))
  = col_count (order_ids (keyed_rows key df)).
Proof.
  unfold order_ids. rewrite group_counts.
  apply col_count_perm, Permutation_map, groupby_rows_perm, String.eqb_eq.
Qed.

(** X4. No order is counted twice and none is lost between the groups: the
    order counts of a summary add up to the number of orders (rows with an
    order id) that have the label the summary groups on.  Every row has a
    segment, so the counts of the segment summary add up to the number of
    all orders. *)
Theorem order_counts_add_up (argsort : list num -> list nat) (df : list prepared) :
  argsort_spec argsort ->
  sum_counts (map Summary.Order_Count (regional_summary argsort df))
  = col_count (order_ids (keyed_rows Region_Final df)) /\
  sum_counts (map Summary.Order_Count (segment_summary argsort df))
  = col_count (order_ids df) /\
  sum_counts (map Margins.Order_ID (analyze_categories_margins argsort df))
  = col_count (order_ids (keyed_rows (fun r => Category (base r)) df)) /\
  sum_counts (map Channel.Order_ID (analyze_order_mode df))
  = col_count (order_ids (keyed_rows (fun r => Order_Mode (base r)) df)).
Proof.
  intros H. unfold regional_summary, segment_summary, analyze_categories_margins.
  repeat split.
  - rewrite <- groupby_counts.
    rewrite (sum_counts_perm _ _
               (Permutation_map Summary.Order_Count
                  (sort_values_perm argsort H Summary.Total_Revenue false _))).
    now rewrite map_map.
  - assert (E : keyed_rows (fun r => Some (Segment r)) df = df).
    { unfold keyed_rows. clear. induction df as [|r l IH]; [reflexivity|].
      change (r :: filter (fun r0 => notnull (Some (Segment r0))) l = r :: l).
      now rewrite IH. }
    rewrite <- E at 2. rewrite <- groupby_counts.
    rewrite (sum_counts_perm _ _
               (Permutation_map Summary.Order_Count
                  (sort_values_perm argsort H Summary.Total_Revenue false _))).
    now rewrite map_map.
  - rewrite <- groupby_counts.
    rewrite (sum_counts_perm _ _
               (Permutation_map Margins.Order_ID
                  (sort_values_perm argsort H Margins.Profit_Margin false _))).
    now rewrite map_map.
  - rewrite <- groupby_counts. unfold analyze_order_mode. cbv zeta.
    now rewrite !map_map.
Qed.

Lemma order_counts_add_up_witness :
  sum_counts (map Summary.Order_Count
                  (segment_summary argsort_unstable
                                   (clean_and_prepare_data small_day [])))
  = col_count (order_ids (clean_and_prepare_data small_day [])).
Proof.
  exact (proj1 (proj2 (order_counts_add_up
                         argsort_unstable (clean_and_prepare_data small_day [])
                         argsort_unstable_spec))).
Defined.

Lemma finite_is_cell (x : num) : isfinite x = true -> is_cell x = true.
Proof. now destruct x. Qed.

(** ** The derived amounts of a row *)

(** X8. At a positive price and a cost that is not negative the profit
    margin is at most 100, and it is 100 when the cost is 0.  It is not
    negative when the price covers the cost and not positive when the cost
    exceeds the price, so that a negative margin tells a cost above the
    price. *)
Theorem profit_margin_bounds (s : sale) (a c : Q) :
  Sales s = Fin a -> Cost_Price s = Fin c -> 0 < a -> 0 <= c ->
  fle (profit_margin_of s) (Fin 100) = true /\
  (c == 0 -> profit_margin_of s =f= Fin 100) /\
  (c <= a -> fle (Fin 0) (profit_margin_of s) = true) /\
  (a < c -> fle (profit_margin_of s) (Fin 0) = true) /\
  (flt (profit_margin_of s) (Fin 0) = true -> a < c).
Proof.
  intros Hs Hc Ha H0. unfold profit_margin_of, revenue_of.
  rewrite Hs, Hc. cbn [fsub fneg fadd fdiv].
  assert (Z : Qeq_bool a 0 = false).
  { destruct (Qeq_bool a 0) eqn:E; [|reflexivity].
    apply Qeq_bool_iff in E. lra. }
  rewrite Z. cbn [fmul fle flt feq].
  set (t := (a + - c) / a).
  assert (Et : t * a == a - c) by (unfold t; field; lra).
  split; [|split; [|split; [|split]]].
  - apply Qle_bool_iff. nra.
  - intros H. nra.
  - intros H. apply Qle_bool_iff. nra.
  - intros H. apply Qle_bool_iff. nra.
  - intros H. apply negb_true_iff in H.
    destruct (Qlt_le_dec a c) as [L | L]; [exact L|].
    assert (P : 0 <= t * 100) by nra.
    apply Qle_bool_iff in P. rewrite P in H. discriminate.
Qed.

Lemma profit_margin_bounds_witness :
  fle (profit_margin_of (order "E-1" "Tea" "Food-Tea" "York" "YO1" None
                               (Fin 3) (Fin 100) (Fin 60) (Fin 0) "Online"))
      (Fin 100) = true.
Proof.
  apply (profit_margin_bounds _ 100 60);
    [reflexivity | reflexivity | lra | lra].
Defined.






(** ** The first rows of a sorted table *)

(** X10. The two product slices are what their names say.  Each has five
    rows, or all the product rows when there are fewer; every row of the
    top slice has a revenue at least that of every product row left out of
    it, and every row of the bottom slice a revenue at most that of every
    row left out of it. *)
Theorem product_slices_extreme (argsort : list num -> list nat) (df : list prepared) :
  argsort_spec argsort ->
  (List.length (top_products argsort df)
   = Nat.min 5 (List.length (product_revenue df)) /\
   List.length (bottom_products argsort df)
   = Nat.min 5 (List.length (product_revenue df))) /\
  (forall x, In x (top_products argsort df) \/ In x (bottom_products argsort df) ->
             In x (product_revenue df)) /\
  (forall x y,
      In x (top_products argsort df) -> In y (product_revenue df) ->
      ~ In y (top_products argsort df) ->
      descends (Product.Total_Revenue x) (Product.Total_Revenue y)) /\
  (forall x y,
      In x (bottom_products argsort df) -> In y (product_revenue df) ->
      ~ In y (bottom_products argsort df) ->
      ascends (Product.Total_Revenue x) (Product.Total_Revenue y)).
Proof.
  intros H. unfold top_products, bottom_products.
  set (down := sort_values argsort Product.Total_Revenue false (product_revenue df)).
  set (up := sort_values argsort Product.Total_Revenue true (product_revenue df)).
  assert (Pd : Permutation down (product_revenue df))
    by apply (sort_values_perm argsort H).
  assert (Pu : Permutation up (product_revenue df))
    by apply (sort_values_perm argsort H).
  assert (Sd : StronglySorted
                 (fun x y => descends (Product.Total_Revenue x)
                                      (Product.Total_Revenue y)) down).
  { apply StronglySorted_map.
    exact (sort_values_ordered argsort H Product.Total_Revenue false _). }
  assert (Su : StronglySorted
                 (fun x y => ascends (Product.Total_Revenue x)
                                     (Product.Total_Revenue y)) up).
  { apply StronglySorted_map.
    exact (sort_values_ordered argsort H Product.Total_Revenue true _). }
  split; [|split; [|split]].
  - unfold head. rewrite !length_firstn.
    now rewrite (Permutation_length Pd), (Permutation_length Pu).
  - intros x [Hx | Hx]; apply firstn_In in Hx.
    + now apply (Permutation_in _ Pd).
    + now apply (Permutation_in _ Pu).
  - intros x y Hx Hy Hn.
    apply (StronglySorted_split _ 5 down Sd); [exact Hx|].
    apply head_rest; [|exact Hn].
    now apply (Permutation_in _ (Permutation_sym Pd)).
  - intros x y Hx Hy Hn.
    apply (StronglySorted_split _ 5 up Su); [exact Hx|].
    apply head_rest; [|exact Hn].
    now apply (Permutation_in _ (Permutation_sym Pu)).
Qed.

Lemma product_slices_extreme_witness :
  List.length (top_products argsort_unstable
                            (clean_and_prepare_data small_day []))
  = Nat.min 5 (List.length (product_revenue
                              (clean_and_prepare_data small_day []))).
Proof.
  exact (proj1 (proj1 (product_slices_extreme
                         argsort_unstable (clean_and_prepare_data small_day [])
                         argsort_unstable_spec))).
Defined.

(** ** The bars of the dashboard *)

(** X11. The horizontal bars of the dashboard sort the regional summary
    again, upwards.  When the revenue of every region is defined and no two
    regions tie, the bars are the rows of the regional summary in reverse
    order. *)
Theorem revenue_bars_reverse
        (argsort : list num -> list nat) (df : list prepared)
        (segments : list Summary.row) (margins : list Margins.row)
        (modes : list Channel.row) :
  argsort_spec argsort ->
  (forall r, In r df -> is_cell (Total_Revenue r) = true) ->
  (forall x y,
      In x (regional_summary argsort df) -> In y (regional_summary argsort df) ->
      tie (Summary.Total_Revenue x) (Summary.Total_Revenue y) -> x = y) ->
  revenue_bars (create_visualizations argsort (regional_summary argsort df)
                                      segments margins modes)
  = rev (regional_summary argsort df).
Proof.
  intros H Hc Hties. cbn [create_visualizations revenue_bars].
  set (T := regional_summary argsort df) in *.
  assert (Hfin : forall row, In row T -> notna (Summary.Total_Revenue row) = true).
  { intros row Hrow. apply regional_summary_In in Hrow. rewrite Hrow.
    assert (F : isfinite (Summary.Total_Revenue
                            (summary_agg (Summary.index row,
                                          region_rows df (Summary.index row))))
                = true).
    { apply (summary_revenue_finite df); [assumption|].
      intros r Hr. now apply filter_In in Hr. }
    destruct (Summary.Total_Revenue _); try discriminate; reflexivity. }
  assert (Ek : keyed Summary.Total_Revenue T = T).
  { unfold keyed. clear - Hfin. induction T as [|x l IH]; [reflexivity|].
    simpl. rewrite (Hfin x (or_introl eq_refl)). f_equal.
    apply IH. intros row Hrow. apply Hfin. now right. }
  assert (Eu : unkeyed Summary.Total_Revenue T = []).
  { apply filter_nil_iff. intros row Hrow. apply Hfin in Hrow.
    unfold notna in Hrow. now apply negb_true_iff in Hrow. }
  rewrite sort_values_eq, Ek, Eu, app_nil_r.
  apply (sorted_perm_unique
           (fun x y => fleP (Summary.Total_Revenue x) (Summary.Total_Revenue y))).
  - rewrite (in_order_perm argsort H Summary.Total_Revenue T Hfin).
    apply Permutation_rev.
  - apply StronglySorted_map.
    exact (in_order_sorted argsort H Summary.Total_Revenue T Hfin).
  - assert (S := sort_values_ordered argsort H Summary.Total_Revenue false
                   (map summary_agg
                        (groupby Region_Final String.eqb String.leb df))).
    cbn beta iota in S. fold (regional_summary argsort df) in S. fold T in S.
    apply StronglySorted_map in S. apply StronglySorted_rev in S.
    eapply StronglySorted_impl; [|exact S].
    intros x y Hx Hy [L | N]; [exact L|].
    apply in_rev, Hfin in Hx. unfold notna in Hx.
    rewrite N in Hx. discriminate.
  - intros x y Hx Hy L1 L2.
    apply (Permutation_in _ (in_order_perm argsort H Summary.Total_Revenue T Hfin))
      in Hx, Hy.
    apply Hties; [assumption | assumption | now split].
Qed.

Lemma revenue_bars_reverse_witness :
  let df := clean_and_prepare_data small_day [] in
  revenue_bars (create_visualizations argsort_unstable
                  (regional_summary argsort_unstable df) [] [] [])
  = rev (regional_summary argsort_unstable df).
Proof.
  intros df.
  apply (revenue_bars_reverse argsort_unstable df [] [] []
                              argsort_unstable_spec).
  - intros r [<- | [<- | [<- | [<- | []]]]]; reflexivity.
  - intros x y Hx Hy. vm_compute in Hx, Hy.
    destruct Hx as [<- | [<- | [<- | []]]];
      destruct Hy as [<- | [<- | [<- | []]]];
      intros [T1 T2]; try reflexivity; vm_compute in T1, T2; discriminate.
Defined.

(** ** Rounding keeps the order *)

Lemma rint_mono (p q : Q) : p <= q -> (rint p <= rint q)%Z.
Proof.
  intros Hpq.
  destruct (Z_le_gt_dec (rint p) (rint q)) as [L | G]; [exact L|].
  exfalso.
  pose proof (rint_bound p) as Bp. pose proof (rint_bound q) as Bq.
  apply Qabs_Qle_condition in Bp, Bq.
  assert (G' : inject_Z (rint q) + 1 <= inject_Z (rint p)).
  { change 1 with (inject_Z 1). rewrite <- inject_Z_plus, <- Zle_Qle. lia. }
  assert (E : p == q) by lra.
  apply rint_comp in E. lia.
Qed.

Lemma Qround2_mono (p q : Q) : p <= q -> Qround2 p <= Qround2 q.
Proof.
  intros H. unfold Qround2.
  assert (M : (rint (p * 100) <= rint (q * 100))%Z) by (apply rint_mono; lra).
  rewrite Zle_Qle in M.
  assert (E : forall z : Q, z / 100 == z * (1 # 100)) by (intros; field).
  rewrite !E. lra.
Qed.

(** ** What the report says *)

Lemma loc_found (label : string) (frame : list Channel.row) (r : Channel.row) :
  loc label frame = Ok r -> In r frame /\ Channel.index r = label.
Proof.
  unfold loc. destruct (find _ frame) as [r'|] eqn:F; [|discriminate].
  intros E. inversion E. subst r'.
  apply find_some in F as [Hin Heq]. now apply String.eqb_eq in Heq.
Qed.

Lemma index_at_found {A : Type} (l : list A) (i : nat) (a : A) :
  index_at l i = Ok a -> nth_error l i = Some a.
Proof.
  unfold index_at. destruct (nth_error l i); [|discriminate].
  intros E. now inversion E.
Qed.

Lemma index_last_found {A : Type} (l : list A) (a : A) :
  index_last l = Ok a -> exists l', l = l' ++ [a].
Proof.
  unfold index_last. destruct (rev l) as [|b t] eqn:E; [discriminate|].
  intros H. inversion H. subst b. exists (rev t).
  rewrite <- (rev_involutive l), E. reflexivity.
Qed.

(** The lookups behind a report that was produced. *)
Lemma report_inv
      (df : list prepared) (regional segments : list Summary.row)
      (top bottom : list Product.row) (margins : list Margins.row)
      (modes : list Channel.row) (rep : report) :
  generate_insights_report df regional segments top bottom margins modes = Ok rep ->
  exists r0 rl c0 on ins,
    index_at regional 0 = Ok r0 /\ index_last regional = Ok rl /\
    index_at margins 0 = Ok c0 /\
    loc "Online" modes = Ok on /\ loc "In-Store" modes = Ok ins /\
    leading_region rep = Summary.index r0 /\
    last_region rep = Summary.index rl /\
    leading_category rep = Margins.index c0 /\
    online_vs_store rep = fsub (Channel.Sales_pct on) (Channel.Sales_pct ins) /\
    leader rep = (if flt (Fin 0) (online_vs_store rep) then "Online" else "In-Store") /\
    balanced rep = flt (fabs (online_vs_store rep)) (Fin 10).
Proof.
  unfold generate_insights_report.
  destruct (strftime (fold_dates Z.min _)) as [d1|]; [|discriminate].
  destruct (strftime (fold_dates Z.max _)) as [d2|]; [|discriminate].
  destruct (index_at regional 0) as [r0|]; [|discriminate].
  destruct (index_at segments 0) as [s0|]; [|discriminate].
  destruct (index_at margins 0) as [c0|]; [|discriminate].
  destruct (loc "Online" modes) as [on|]; [|discriminate].
  destruct (loc "In-Store" modes) as [ins|]; [|discriminate].
  destruct (index_at regional 1) as [r1|]; [|discriminate].
  destruct (index_last regional) as [rl|]; [|discriminate].
  destruct (index_at margins 1) as [c1|]; [|discriminate].
  simpl. intros E. inversion E. subst rep. clear E.
  exists r0, rl, c0, on, ins. cbn. repeat split; reflexivity.
Qed.

Lemma channel_row_pct (df : list prepared) (r : Channel.row) :
  In r (analyze_order_mode df) ->
  Channel.Sales_pct r
  = percent_of (Channel.Total_Sales r)
               (col_sum (map Channel.Total_Sales (analyze_order_mode df))).
Proof.
  intros H.
  assert (Es : map Channel.Total_Sales (analyze_order_mode df)
               = map Channel.Total_Sales (order_mode_agg df))
    by (rewrite analyze_order_mode_eq, map_map; reflexivity).
  rewrite Es. rewrite analyze_order_mode_eq in H.
  apply in_map_iff in H as (c & <- & _). reflexivity.
Qed.

Lemma percent_of_finite (x S : Q) :
  ~ S == 0 -> percent_of (Fin x) (Fin S) = Fin (Qround2 (x / S * 100)).
Proof.
  intros HS. unfold percent_of. cbn [fdiv].
  destruct (Qeq_bool S 0) eqn:E; [|reflexivity].
  apply Qeq_bool_iff in E. contradiction.
Qed.

(** X12. The channel the report names as leader is "Online" or "In-Store".
    For a table of file cells with a positive sales total, "Online" is named
    only when the summed online sales of the channel table exceed the
    in-store ones, and "In-Store" whenever they do not; with a negative
    total the report names "Online" only when the online sales are the
    lower ones. *)
Theorem report_leader (argsort : list num -> list nat)
        (sales : list sale) (stores : list store) (rep : report) :
  (forall s, In s sales -> file_cells s = true) ->
  insights_of argsort (clean_and_prepare_data sales stores) = Ok rep ->
  let t := analyze_order_mode (clean_and_prepare_data sales stores) in
  exists on ins S,
    In on t /\ Channel.index on = "Online" /\
    In ins t /\ Channel.index ins = "In-Store" /\
    col_sum (map Channel.Total_Sales t) = Fin S /\
    (leader rep = "Online" \/ leader rep = "In-Store") /\
    (0 < S -> leader rep = "Online" ->
     flt (Channel.Total_Sales ins) (Channel.Total_Sales on) = true) /\
    (0 < S -> fle (Channel.Total_Sales on) (Channel.Total_Sales ins) = true ->
     leader rep = "In-Store") /\
    (S < 0 -> leader rep = "Online" ->
     flt (Channel.Total_Sales on) (Channel.Total_Sales ins) = true).
Proof.
  intros Hc Hmain t. unfold insights_of in Hmain.
  apply report_inv in Hmain
    as (r0 & rl & c0 & on & ins & _ & _ & _ & Hon & Hins & _ & _ & _ & Hov & Hl & _).
  apply loc_found in Hon as [Hon Eon], Hins as [Hins Eins].
  fold t in Hon, Hins.
  destruct (order_mode_agg_finite sales stores Hc) as [Hs _].
  cbv zeta in Hs.
  assert (Es : map Channel.Total_Sales t
               = map Channel.Total_Sales
                     (order_mode_agg (clean_and_prepare_data sales stores)))
    by (unfold t; rewrite analyze_order_mode_eq, map_map; reflexivity).
  rewrite <- Es in Hs.
  assert (Fon : isfinite (Channel.Total_Sales on) = true)
    by (apply (proj1 (forallb_forall _ _) Hs); now apply in_map).
  assert (Fins : isfinite (Channel.Total_Sales ins) = true)
    by (apply (proj1 (forallb_forall _ _) Hs); now apply in_map).
  pose proof (total_finite _ (dropna_cells_finite _
               (proj2 (forallb_forall _ _)
                      (fun x Hx => finite_is_cell x
                         (proj1 (forallb_forall _ _) Hs x Hx))))) as FS.
  fold (col_sum (map Channel.Total_Sales t)) in FS.
  pose proof (channel_row_pct _ on Hon) as Pon.
  pose proof (channel_row_pct _ ins Hins) as Pins.
  fold t in Pon, Pins.
  destruct (col_sum (map Channel.Total_Sales t)) as [S| | |]; try discriminate.
  destruct (Channel.Total_Sales on) as [x| | |] eqn:Ex; try discriminate.
  destruct (Channel.Total_Sales ins) as [y| | |] eqn:Ey; try discriminate.
  exists on, ins, S. rewrite Ex, Ey. repeat split; try assumption.
  - rewrite Hl. destruct (flt (Fin 0) (online_vs_store rep)); auto.
  - intros HS Hlead.
    rewrite Hl in Hlead. rewrite Hov, Pon, Pins in Hlead.
    rewrite !percent_of_finite in Hlead by lra.
    cbn [fsub fneg fadd flt] in Hlead.
    destruct (Qle_bool _ 0) eqn:B in Hlead; [discriminate|].
    apply Qle_bool_false in B.
    cbn [flt]. apply negb_true_iff.
    destruct (Qle_bool x y) eqn:L; [|reflexivity]. exfalso.
    apply Qle_bool_iff in L.
    assert (M : x / S * 100 <= y / S * 100).
    { assert (E : forall z, z / S * 100 == z * (100 / S)) by (intros; field; lra).
      rewrite !E. apply Qmult_le_compat_r; [assumption|].
      apply Qlt_le_weak, Qlt_shift_div_l; lra. }
    apply Qround2_mono in M. lra.
  - intros HS L. apply fle_Fin in L.
    rewrite Hl, Hov, Pon, Pins.
    rewrite !percent_of_finite by lra.
    cbn [fsub fneg fadd flt].
    assert (M : x / S * 100 <= y / S * 100).
    { assert (E : forall z, z / S * 100 == z * (100 / S)) by (intros; field; lra).
      rewrite !E. apply Qmult_le_compat_r; [assumption|].
      apply Qlt_le_weak, Qlt_shift_div_l; lra. }
    apply Qround2_mono in M.
    destruct (Qle_bool _ 0) eqn:B; [reflexivity|].
    apply Qle_bool_false in B. lra.
  - intros HS Hlead.
    rewrite Hl in Hlead. rewrite Hov, Pon, Pins in Hlead.
    rewrite !percent_of_finite in Hlead by lra.
    cbn [fsub fneg fadd flt] in Hlead.
    destruct (Qle_bool _ 0) eqn:B in Hlead; [discriminate|].
    apply Qle_bool_false in B.
    cbn [flt]. apply negb_true_iff.
    destruct (Qle_bool y x) eqn:L; [|reflexivity]. exfalso.
    apply Qle_bool_iff in L.
    assert (M : x / S * 100 <= y / S * 100).
    { assert (E : forall z, z / S * 100 == (- z) * (100 / - S))
        by (intros; field; lra).
      rewrite !E. apply Qmult_le_compat_r; [lra|].
      apply Qlt_le_weak, Qlt_shift_div_l; lra. }
    apply Qround2_mono in M. lra.
Qed.

Lemma report_leader_witness :
  exists rep,
    insights_of argsort_stable (clean_and_prepare_data small_day []) = Ok rep /\
    (leader rep = "Online" \/ leader rep = "In-Store").
Proof.
  assert (E : exists rep, insights_of argsort_stable (clean_and_prepare_data small_day []) = Ok rep)
    by (eexists; vm_compute; reflexivity).
  destruct E as [rep E]. exists rep. split; [exact E|].
  destruct (report_leader argsort_stable small_day [] rep) as
      (on & ins & S & _ & _ & _ & _ & _ & Hl & _).
  - intros s [<- | [<- | [<- | [<- | []]]]]; reflexivity.
  - exact E.
  - exact Hl.
Defined.

Lemma descends_refl (v : num) : descends v v.
Proof.
  destruct v; [left | left | left | right]; try reflexivity.
  apply Qle_bool_iff. lra.
Qed.

Lemma sorted_first {A : Type} (R : A -> A -> Prop) (l : list A) (a : A) :
  StronglySorted R l -> nth_error l 0 = Some a ->
  forall x, In x l -> x = a \/ R a x.
Proof.
  intros S E x Hx. destruct l as [|b l]; [discriminate|].
  simpl in E. inversion E. subst b.
  apply StronglySorted_inv in S as [_ F].
  destruct Hx as [<- | Hx]; [now left | right].
  now apply (proj1 (Forall_forall _ _) F).
Qed.

Lemma sorted_last {A : Type} (R : A -> A -> Prop) (l : list A) (a : A) :
  StronglySorted R (l ++ [a]) -> forall x, In x l -> R x a.
Proof.
  induction l as [|b l IH]; intros S x Hx; [contradiction|].
  simpl in S. apply StronglySorted_inv in S as [S F].
  destruct Hx as [<- | Hx]; [|now apply IH].
  apply (proj1 (Forall_forall _ _) F), in_or_app. right. now left.
Qed.

(** X13. The regions and the category that the report singles out are the
    extreme ones: the leading region has a summed revenue at least that of
    every region, the region named for investigation has one at most that
    of every region, and the leading category has a mean margin at least
    that of every category (a category without a defined margin counting as
    lowest). *)
Theorem report_extremes (argsort : list num -> list nat)
        (sales : list sale) (stores : list store) (rep : report) :
  argsort_spec argsort ->
  insights_of argsort (clean_and_prepare_data sales stores) = Ok rep ->
  let df := clean_and_prepare_data sales stores in
  (exists top,
      In top (regional_summary argsort df) /\
      Summary.index top = leading_region rep /\
      forall row, In row (regional_summary argsort df) ->
                  descends (Summary.Total_Revenue top) (Summary.Total_Revenue row)) /\
  (exists low,
      In low (regional_summary argsort df) /\
      Summary.index low = last_region rep /\
      forall row, In row (regional_summary argsort df) ->
                  descends (Summary.Total_Revenue row) (Summary.Total_Revenue low)) /\
  (exists best,
      In best (analyze_categories_margins argsort df) /\
      Margins.index best = leading_category rep /\
      forall row, In row (analyze_categories_margins argsort df) ->
                  descends (Margins.Profit_Margin best) (Margins.Profit_Margin row)).
Proof.
  intros H Hmain df. unfold insights_of in Hmain. fold df in Hmain.
  apply report_inv in Hmain
    as (r0 & rl & c0 & on & ins & Hr0 & Hrl & Hc0 & _ & _ & E0 & El & Ec & _).
  apply index_at_found in Hr0, Hc0. apply index_last_found in Hrl as [l' Hl'].
  assert (SR : StronglySorted
                 (fun x y => descends (Summary.Total_Revenue x)
                                      (Summary.Total_Revenue y))
                 (regional_summary argsort df)).
  { apply StronglySorted_map.
    exact (sort_values_ordered argsort H Summary.Total_Revenue false _). }
  assert (SC : StronglySorted
                 (fun x y => descends (Margins.Profit_Margin x)
                                      (Margins.Profit_Margin y))
                 (analyze_categories_margins argsort df)).
  { apply StronglySorted_map.
    exact (sort_values_ordered argsort H Margins.Profit_Margin false _). }
  split; [|split].
  - exists r0. split; [eapply nth_error_In; exact Hr0|]. split; [now symmetry|].
    intros row Hrow.
    destruct (sorted_first _ _ _ SR Hr0 row Hrow) as [-> | D];
      [apply descends_refl | exact D].
  - exists rl. split; [rewrite Hl'; apply in_or_app; right; now left|].
    split; [now symmetry|].
    intros row Hrow. rewrite Hl' in Hrow, SR.
    apply in_app_or in Hrow as [Hrow | [<- | []]];
      [now apply (sorted_last _ _ _ SR) | apply descends_refl].
  - exists c0. split; [eapply nth_error_In; exact Hc0|]. split; [now symmetry|].
    intros row Hrow.
    destruct (sorted_first _ _ _ SC Hc0 row Hrow) as [-> | D];
      [apply descends_refl | exact D].
Qed.

Lemma report_extremes_witness :
  exists rep top,
    insights_of argsort_stable (clean_and_prepare_data small_day []) = Ok rep /\
    In top (regional_summary argsort_stable (clean_and_prepare_data small_day [])) /\
    Summary.index top = leading_region rep.
Proof.
  assert (E : exists rep, insights_of argsort_stable (clean_and_prepare_data small_day []) = Ok rep)
    by (eexists; vm_compute; reflexivity).
  destruct E as [rep E].
  destruct (report_extremes argsort_stable small_day [] rep
                            argsort_stable_spec E)
    as [(top & Hin & Hidx & _) _].
  exists rep, top. auto.
Defined.

(** ** How the report fails *)

Lemma strftime_none (f : Z -> Z -> Z) (l : list (option Z)) :
  (forall d, ~ In (Some d) l) -> strftime (fold_dates f l) = Err ValueError.
Proof.
  intros H. destruct (fold_dates f l) as [x|] eqn:E; [|reflexivity].
  assert (S : exists x, fold_dates f l = Some x) by eauto.
  apply fold_dates_some in S as [d Hd]. now apply H in Hd.
Qed.

Lemma index_at_short {A : Type} (l : list A) (i : nat) :
  (List.length l <= i)%nat -> index_at l i = Err IndexError.
Proof.
  intros H. unfold index_at. apply nth_error_None in H. now rewrite H.
Qed.

(** The outcome of the report, lookup after lookup. *)
Lemma report_failures
      (df : list prepared) (regional segments : list Summary.row)
      (top bottom : list Product.row) (margins : list Margins.row)
      (modes : list Channel.row) :
  let run := generate_insights_report df regional segments top bottom
                                      margins modes in
  let dated := exists d, In (Some d) (map (fun r => Order_Date (base r)) df) in
  let filled := (1 <= List.length regional)%nat /\
                (1 <= List.length segments)%nat /\
                (1 <= List.length margins)%nat in
  let online := In "Online" (map Channel.index modes) in
  let in_store := In "In-Store" (map Channel.index modes) in
  (~ dated -> run = Err ValueError) /\
  (dated -> ~ filled -> run = Err IndexError) /\
  (dated -> filled -> ~ online -> run = Err (KeyError "Online")) /\
  (dated -> filled -> online -> ~ in_store -> run = Err (KeyError "In-Store")) /\
  (dated -> filled -> online -> in_store ->
   (List.length regional < 2)%nat \/ (List.length margins < 2)%nat ->
   run = Err IndexError).
Proof.
  intros run dated filled online in_store.
  assert (D : dated ->
              exists d1 d2,
                strftime (fold_dates Z.min
                            (map (fun r => Order_Date (base r)) df)) = Ok d1 /\
                strftime (fold_dates Z.max
                            (map (fun r => Order_Date (base r)) df)) = Ok d2).
  { intros Hd.
    destruct (proj2 (strftime_ok Z.min _) Hd) as [d1 E1].
    destruct (proj2 (strftime_ok Z.max _) Hd) as [d2 E2]. eauto. }
  assert (I : forall (A : Type) (l : list A) i,
             (i < List.length l)%nat -> exists a, index_at l i = Ok a)
    by (intros A l i; apply index_at_ok).
  assert (IL : forall (A : Type) (l : list A),
             (0 < List.length l)%nat -> exists a, index_last l = Ok a)
    by (intros A l; apply index_last_ok).
  assert (N : forall label, ~ In label (map Channel.index modes) ->
                            loc label modes = Err (KeyError label)).
  { intros label Hn. apply loc_absent. intros r Hr E. apply Hn.
    rewrite <- E. now apply in_map. }
  unfold run, generate_insights_report.
  split; [|split; [|split; [|split]]].
  - intros Hn. rewrite strftime_none; [reflexivity|].
    intros d Hd. apply Hn. now exists d.
  - intros Hd Hf. destruct (D Hd) as (d1 & d2 & -> & ->). cbn [bind].
    destruct (Nat.eq_dec (List.length regional) 0) as [Z|NZ].
    { rewrite index_at_short by lia. reflexivity. }
    destruct (I _ regional 0%nat ltac:(lia)) as [r0 ->]. cbn [bind].
    destruct (Nat.eq_dec (List.length segments) 0) as [Z|NZ2].
    { rewrite index_at_short by lia. reflexivity. }
    destruct (I _ segments 0%nat ltac:(lia)) as [s0 ->]. cbn [bind].
    rewrite index_at_short; [reflexivity|].
    unfold filled in Hf. lia.
  - intros Hd (F1 & F2 & F3) Hn.
    destruct (D Hd) as (d1 & d2 & -> & ->). cbn [bind].
    destruct (I _ regional 0%nat ltac:(lia)) as [r0 ->].
    destruct (I _ segments 0%nat ltac:(lia)) as [s0 ->].
    destruct (I _ margins 0%nat ltac:(lia)) as [c0 ->]. cbn [bind].
    now rewrite (N _ Hn).
  - intros Hd (F1 & F2 & F3) Ho Hn.
    destruct (D Hd) as (d1 & d2 & -> & ->). cbn [bind].
    destruct (I _ regional 0%nat ltac:(lia)) as [r0 ->].
    destruct (I _ segments 0%nat ltac:(lia)) as [s0 ->].
    destruct (I _ margins 0%nat ltac:(lia)) as [c0 ->]. cbn [bind].
    destruct (proj2 (loc_ok _ _) Ho) as [on ->]. cbn [bind].
    now rewrite (N _ Hn).
  - intros Hd (F1 & F2 & F3) Ho Hi Hshort.
    destruct (D Hd) as (d1 & d2 & -> & ->). cbn [bind].
    destruct (I _ regional 0%nat ltac:(lia)) as [r0 ->].
    destruct (I _ segments 0%nat ltac:(lia)) as [s0 ->].
    destruct (I _ margins 0%nat ltac:(lia)) as [c0 ->]. cbn [bind].
    destruct (proj2 (loc_ok _ _) Ho) as [on ->].
    destruct (proj2 (loc_ok _ _) Hi) as [ins ->]. cbn [bind].
    destruct (Nat.eq_dec (List.length regional) 1) as [Z|NZ].
    { rewrite (index_at_short regional 1) by lia. reflexivity. }
    destruct (I _ regional 1%nat ltac:(lia)) as [r1 ->].
    destruct (IL _ regional ltac:(lia)) as [rl ->]. cbn [bind].
    rewrite (index_at_short margins 1) by lia. reflexivity.
Qed.

Lemma prepared_dates (sales : list sale) (stores : list store) :
  (exists d, In (Some d)
                (map (fun r => Order_Date (base r))
                     (clean_and_prepare_data sales stores))) <->
  has_date sales.
Proof.
  unfold has_date. split.
  - intros (d & Hd). apply in_map_iff in Hd as (r & E & Hr).
    apply in_clean_inv in Hr as (Hs & _). eauto.
  - intros (s & d & Hs & E).
    destruct (in_clean_intro sales stores s Hs) as (r & Hr & <-).
    exists d. rewrite <- E. now apply (in_map (fun r => Order_Date (base r))).
Qed.

Lemma prepared_channels (sales : list sale) (stores : list store) (label : string) :
  In label (map Channel.index
                (analyze_order_mode (clean_and_prepare_data sales stores))) <->
  has_channel label sales.
Proof.
  rewrite channel_index, sort_keys_In, unique_In, key_cells_In.
  unfold has_channel. split.
  - intros (r & Hr & E). apply in_clean_inv in Hr as (Hs & _). eauto.
  - intros (s & Hs & E).
    destruct (in_clean_intro sales stores s Hs) as (r & Hr & <-). eauto.
Qed.

Lemma summary_lengths (argsort : list num -> list nat) (df : list prepared) :
  argsort_spec argsort ->
  List.length (regional_summary argsort df)
  = List.length (labels Region_Final df) /\
  List.length (segment_summary argsort df)
  = List.length (labels (fun r => Some (Segment r)) df) /\
  List.length (analyze_categories_margins argsort df)
  = List.length (labels (fun r => Category (base r)) df).
Proof.
  intros H. unfold regional_summary, segment_summary, analyze_categories_margins.
  rewrite !(Permutation_length (sort_values_perm argsort H _ false _)).
  rewrite !length_map, !groupby_length. auto.
Qed.

Lemma segments_nonempty (df : list prepared) :
  df <> [] -> (1 <= List.length (labels (fun r => Some (Segment r)) df))%nat.
Proof.
  destruct df as [|r df]; [congruence|]. intros _.
  unfold labels. simpl. lia.
Qed.

Lemma dated_nonempty (sales : list sale) (stores : list store) :
  has_date sales -> clean_and_prepare_data sales stores <> [].
Proof.
  intros (s & d & Hs & _) E.
  destruct (in_clean_intro sales stores s Hs) as (r & Hr & _).
  now rewrite E in Hr.
Qed.

(** X14. A table with rows of which none has a date ends the report with a
    [ValueError], whatever else the table holds. *)
Theorem report_without_dates (argsort : list num -> list nat)
        (sales : list sale) (stores : list store) :
  sales <> [] ->
  (forall s, In s sales -> Order_Date s = None) ->
  insights_of argsort (clean_and_prepare_data sales stores) = Err ValueError.
Proof.
  intros _ H. unfold insights_of.
  apply report_failures. intros Hd.
  apply prepared_dates in Hd as (s & d & Hs & E).
  rewrite (H s Hs) in E. discriminate.
Qed.

(** The small day with its dates left out: regions, categories and both
    channels are there, and the report stops on the date range. *)
Lemma report_without_dates_witness :
  insights_of argsort_stable
              (clean_and_prepare_data (map undated small_day) [])
  = Err ValueError.
Proof.
  apply report_without_dates; [discriminate|].
  intros s [<- | [<- | [<- | [<- | []]]]]; reflexivity.
Defined.

(** X15. When the table has a date, a resolved region and a category, a
    missing channel ends the report with a [KeyError] that names it: "Online"
    when no row is an online order, and "In-Store" when there are online
    orders and no in-store order. *)
Theorem report_missing_channel (argsort : list num -> list nat)
        (sales : list sale) (stores : list store) :
  argsort_spec argsort ->
  let df := clean_and_prepare_data sales stores in
  has_date sales ->
  labels Region_Final df <> [] ->
  labels (fun r => Category (base r)) df <> [] ->
  (~ has_channel "Online" sales ->
   insights_of argsort (clean_and_prepare_data sales stores) = Err (KeyError "Online")) /\
  (has_channel "Online" sales -> ~ has_channel "In-Store" sales ->
   insights_of argsort (clean_and_prepare_data sales stores) = Err (KeyError "In-Store")).
Proof.
  intros H df Hd Hr Hc. unfold insights_of. fold df.
  destruct (summary_lengths argsort df H) as (L1 & L2 & L3).
  pose proof (segments_nonempty df (dated_nonempty sales stores Hd)) as Hs.
  assert (F : (1 <= List.length (regional_summary argsort df))%nat /\
              (1 <= List.length (segment_summary argsort df))%nat /\
              (1 <= List.length (analyze_categories_margins argsort df))%nat).
  { rewrite L1, L2, L3. repeat split; [|exact Hs|].
    - destruct (labels Region_Final df); [congruence | simpl; lia].
    - destruct (labels (fun r => Category (base r)) df);
        [congruence | simpl; lia]. }
  apply (proj2 (prepared_dates sales stores)) in Hd. fold df in Hd.
  pose proof (report_failures df (regional_summary argsort df)
                (segment_summary argsort df) (top_products argsort df)
                (bottom_products argsort df)
                (analyze_categories_margins argsort df)
                (analyze_order_mode df)) as (_ & _ & K1 & K2 & _).
  split.
  - intros Hn. apply (K1 Hd F). intros Ho. apply Hn.
    now apply (prepared_channels sales stores).
  - intros Ho Hn. apply (K2 Hd F).
    + now apply (prepared_channels sales stores).
    + intros Hi. apply Hn. now apply (prepared_channels sales stores).
Qed.

Lemma report_missing_channel_witness :
  insights_of argsort_stable (clean_and_prepare_data in_store_only []) = Err (KeyError "Online").
Proof.
  apply (proj1 (report_missing_channel argsort_stable in_store_only []
                                    argsort_stable_spec
                                    ltac:(exists leeds_order, 20250704%Z;
                                          split; [now left | reflexivity])
                                    ltac:(discriminate)
                                    ltac:(discriminate))).
  intros (s & [<- | [<- | []]] & E); discriminate.
Defined.

(** X16. When the table has a date, too few groups end the report with an
    [IndexError]: no resolved region or no category at all, or, with both
    channels present, fewer than two regions or fewer than two categories
    (the recommendations name the second of each). *)
Theorem report_too_few_groups (argsort : list num -> list nat)
        (sales : list sale) (stores : list store) :
  argsort_spec argsort ->
  let df := clean_and_prepare_data sales stores in
  let regions := labels Region_Final df in
  let categories := labels (fun r => Category (base r)) df in
  has_date sales ->
  (regions = [] \/ categories = [] ->
   insights_of argsort (clean_and_prepare_data sales stores) = Err IndexError) /\
  (has_channel "Online" sales -> has_channel "In-Store" sales ->
   (List.length regions < 2)%nat \/ (List.length categories < 2)%nat ->
   insights_of argsort (clean_and_prepare_data sales stores) = Err IndexError).
Proof.
  intros H df regions categories Hd. unfold insights_of. fold df.
  destruct (summary_lengths argsort df H) as (L1 & L2 & L3).
  fold regions in L1. fold categories in L3.
  pose proof (segments_nonempty df (dated_nonempty sales stores Hd)) as Hs.
  apply (proj2 (prepared_dates sales stores)) in Hd. fold df in Hd.
  pose proof (report_failures df (regional_summary argsort df)
                (segment_summary argsort df) (top_products argsort df)
                (bottom_products argsort df)
                (analyze_categories_margins argsort df)
                (analyze_order_mode df)) as (_ & K0 & _ & _ & K3).
  split.
  - intros Hempty. apply (K0 Hd). rewrite L1, L3.
    intros (F1 & _ & F3). destruct Hempty as [E | E]; rewrite E in *;
      simpl in *; lia.
  - intros Ho Hi Hshort.
    destruct (Nat.eq_dec (List.length regions) 0) as [Z|NZ].
    { apply (K0 Hd). rewrite L1. lia. }
    destruct (Nat.eq_dec (List.length categories) 0) as [Z|NZ2].
    { apply (K0 Hd). rewrite L3. lia. }
    apply (K3 Hd).
    + rewrite L1, L2, L3. lia.
    + now apply (prepared_channels sales stores).
    + now apply (prepared_channels sales stores).
    + rewrite L1, L3. exact Hshort.
Qed.

(** One region only, with both channels. *)
Lemma report_too_few_groups_witness :
  insights_of argsort_stable (clean_and_prepare_data tied_products []) = Err IndexError.
Proof.
  apply (proj2 (report_too_few_groups argsort_stable tied_products []
                                   argsort_stable_spec
                                   ltac:(eexists; eexists;
                                         split; [now left | reflexivity]))).
  - eexists. split; [right; now left | reflexivity].
  - eexists. split; [now left | reflexivity].
  - left. vm_compute. lia.
Defined.

(** X17. With a sorting order that meets the promise of [argsort], the
    report is produced exactly when the table has a dated row, at least two
    resolved regions, at least two categories, an online order and an
    in-store order. *)
Theorem report_succeeds_iff (argsort : list num -> list nat)
        (sales : list sale) (stores : list store) :
  argsort_spec argsort ->
  let df := clean_and_prepare_data sales stores in
  (exists rep, insights_of argsort (clean_and_prepare_data sales stores) = Ok rep) <->
  (has_date sales /\
   (2 <= List.length (labels Region_Final df))%nat /\
   (2 <= List.length (labels (fun r => Category (base r)) df))%nat /\
   has_channel "Online" sales /\ has_channel "In-Store" sales).
Proof.
  intros H df. unfold insights_of. fold df.
  rewrite report_ok_iff.
  destruct (summary_lengths argsort df H) as (L1 & L2 & L3).
  rewrite L1, L2, L3.
  unfold df at 1 5 6.
  rewrite prepared_dates, !prepared_channels.
  split.
  - intros (Hd & R & _ & C & O & I). auto.
  - intros (Hd & R & C & O & I). repeat split; try assumption.
    apply segments_nonempty, dated_nonempty, Hd.
Qed.

Lemma report_succeeds_iff_witness :
  exists rep, insights_of argsort_unstable (clean_and_prepare_data small_day []) = Ok rep.
Proof.
  apply (proj2 (report_succeeds_iff argsort_unstable small_day []
                                 argsort_unstable_spec)).
  split; [eexists; eexists; split; [now left | reflexivity]|].
  split; [vm_compute; lia|]. split; [vm_compute; lia|].
  split.
  - eexists. split; [now left | reflexivity].
  - eexists. split; [right; now left | reflexivity].
Defined.

(** ** The order of the labels *)

Lemma string_compare_trans (a b c : string) :
  String.compare a b <> Gt -> String.compare b c <> Gt ->
  String.compare a c <> Gt.
Proof.
  revert b c. induction a as [|x a IH]; intros [|y b] [|z c]; simpl;
    try congruence.
  unfold Ascii.compare.
  destruct (N.compare_spec (N_of_ascii x) (N_of_ascii y)) as [Exy | Lxy | Gxy];
    destruct (N.compare_spec (N_of_ascii y) (N_of_ascii z)) as [Eyz | Lyz | Gyz];
    try congruence.
  - rewrite Exy, Eyz, N.compare_refl. apply IH.
  - intros _ _. rewrite Exy. apply N.compare_lt_iff in Lyz. now rewrite Lyz.
  - intros _ _. rewrite <- Eyz. apply N.compare_lt_iff in Lxy. now rewrite Lxy.
  - intros _ _.
    assert (L : (N_of_ascii x < N_of_ascii z)%N) by (eapply N.lt_trans; eassumption).
    apply N.compare_lt_iff in L. now rewrite L.
Qed.

Lemma string_leb_trans (a b c : string) :
  String.leb a b = true -> String.leb b c = true -> String.leb a c = true.
Proof.
  unfold String.leb. intros H1 H2.
  pose proof (string_compare_trans a b c) as T.
  destruct (String.compare a b); try discriminate;
    destruct (String.compare b c); try discriminate;
    destruct (String.compare a c); try reflexivity;
    exfalso; apply T; congruence.
Qed.

Section SortedKeys.
Context {K : Type}.
Variable leb : K -> K -> bool.
Hypothesis leb_total : forall a b, leb a b = true \/ leb b a = true.
Hypothesis leb_trans :
  forall a b c, leb a b = true -> leb b c = true -> leb a c = true.

Lemma insert_key_sorted (k : K) (l : list K) :
  StronglySorted (fun a b => leb a b = true) l ->
  StronglySorted (fun a b => leb a b = true) (insert_key leb k l).
Proof using leb_total leb_trans.
  intros S. induction S as [|h t St IH Hh]; simpl.
  - repeat constructor.
  - destruct (leb k h) eqn:E.
    + constructor; [now constructor|]. constructor; [exact E|].
      eapply Forall_impl; [|exact Hh]. intros x Hx. now apply (leb_trans k h x).
    + constructor; [exact IH|].
      apply Forall_forall. intros x Hx. apply insert_key_In in Hx as [-> | Hx].
      * destruct (leb_total k h) as [L | L]; [congruence | exact L].
      * now apply (proj1 (Forall_forall _ _) Hh).
Qed.

Lemma sort_keys_sorted (l : list K) :
  StronglySorted (fun a b => leb a b = true) (sort_keys leb l).
Proof using leb_total leb_trans.
  induction l as [|k l IH]; simpl; [constructor|].
  now apply insert_key_sorted.
Qed.
End SortedKeys.

Lemma sorted_nodup_strict (l : list string) :
  StronglySorted (fun a b => String.leb a b = true) l -> NoDup l ->
  StronglySorted (fun a b => String.ltb a b = true) l.
Proof.
  intros S. induction S as [|h t St IH Hh]; intros N; constructor.
  - apply IH. now apply NoDup_cons_iff in N.
  - apply NoDup_cons_iff in N as [Hn _].
    apply Forall_forall. intros x Hx.
    pose proof (proj1 (Forall_forall _ _) Hh x Hx) as L.
    unfold String.leb in L. unfold String.ltb.
    destruct (String.compare h x) eqn:C; try reflexivity; try discriminate.
    apply String.compare_eq_iff in C. subst. contradiction.
Qed.

(** X18. The rows of the channel table, and so the wedges of the pie chart
    and the channel lines of the report, come in strictly increasing label
    order; an "In-Store" row always precedes an "Online" row. *)
Theorem channel_rows_in_label_order (df : list prepared) :
  StronglySorted (fun a b => String.ltb a b = true)
                 (map Channel.index (analyze_order_mode df)) /\
  (forall (argsort : list num -> list nat)
          (regional segments : list Summary.row) (margins : list Margins.row),
      map fst (order_mode_data
                 (create_visualizations argsort regional segments margins
                                        (analyze_order_mode df)))
      = map Channel.index (analyze_order_mode df)) /\
  String.ltb "In-Store" "Online" = true.
Proof.
  split; [|split; [|reflexivity]].
  - apply sorted_nodup_strict.
    + rewrite channel_index.
      apply sort_keys_sorted; [apply String.leb_total | apply string_leb_trans].
    + rewrite channel_index, <- groupby_keys.
      apply group_keys_NoDup, String.eqb_eq.
  - intros argsort regional segments margins.
    cbn [create_visualizations order_mode_data]. now rewrite map_map.
Qed.

(** ** Margins of the categories *)

Lemma group_rows_in_table {K : Type} (key : prepared -> option K)
      (eqb leb : K -> K -> bool) (df : list prepared)
      (g : K * list prepared) (r : prepared) :
  In g (groupby key eqb leb df) -> In r (snd g) -> In r df.
Proof.
  intros Hg Hr. apply groupby_In in Hg as [_ E]. rewrite E in Hr.
  now apply filter_In in Hr.
Qed.

Lemma profit_margin_range (s : sale) (a c : Q) :
  Sales s = Fin a -> Cost_Price s = Fin c -> 0 < a -> 0 <= c ->
  exists m, profit_margin_of s = Fin m /\ m <= 100.
Proof.
  intros Hs Hc Ha H0. unfold profit_margin_of, revenue_of.
  rewrite Hs, Hc. cbn [fsub fneg fadd fdiv].
  assert (Z : Qeq_bool a 0 = false).
  { destruct (Qeq_bool a 0) eqn:E; [|reflexivity].
    apply Qeq_bool_iff in E. lra. }
  rewrite Z. cbn [fmul]. eexists. split; [reflexivity|].
  set (t := (a + - c) / a).
  assert (Et : t * a == a - c) by (unfold t; field; lra).
  nra.
Qed.

Lemma total_bounded (b : Q) (qs : list Q) :
  (forall q, In q qs -> q <= b) ->
  Qsum qs <= inject_Z (Z.of_nat (List.length qs)) * b.
Proof.
  induction qs as [|q qs IH]; intros H.
  - change (0 <= 0 * b). lra.
  - cbn [Qsum fold_right List.length]. fold (Qsum qs).
    rewrite Nat2Z.inj_succ. unfold Z.succ. rewrite inject_Z_plus.
    change (inject_Z 1) with 1.
    pose proof (H q (or_introl eq_refl)).
    specialize (IH (fun x Hx => H x (or_intror Hx))). lra.
Qed.

Lemma col_mean_bounded (b : Q) (qs : list Q) :
  qs <> [] -> (forall q, In q qs -> q <= b) ->
  exists m, col_mean (map Fin qs) = Fin m /\ m <= b.
Proof.
  intros Hne Hb. unfold col_mean.
  assert (E : dropna (map Fin qs) = map Fin qs).
  { unfold dropna. clear. induction qs as [|q qs IH]; [reflexivity|].
    simpl. now rewrite IH. }
  rewrite E. destruct qs as [|q qs]; [congruence|].
  change (map Fin (q :: qs)) with (Fin q :: map Fin qs) at 1.
  cbn iota.
  change (Fin q :: map Fin qs) with (map Fin (q :: qs)).
  assert (T : forall l, total (map Fin l) = Fin (Qsum l)).
  { clear. induction l as [|x l IH]; [reflexivity|].
    simpl. fold (total (map Fin l)). now rewrite IH. }
  rewrite T, length_map.
  set (n := inject_Z (Z.of_nat (List.length (q :: qs)))).
  assert (Hn : 0 < n).
  { unfold n. rewrite <- (Zlt_Qlt 0). simpl List.length. lia. }
  cbn [fdiv]. destruct (Qeq_bool n 0) eqn:Zn.
  { apply Qeq_bool_iff in Zn. lra. }
  eexists. split; [reflexivity|].
  pose proof (total_bounded b (q :: qs) Hb) as B. fold n in B.
  apply Qle_shift_div_r; [exact Hn|]. lra.
Qed.

(** X19. When every price is positive and no cost is negative, no category
    of the margin summary shows a mean margin above 100 percent. *)
Theorem category_margin_at_most_100 (argsort : list num -> list nat)
        (sales : list sale) (stores : list store) (row : Margins.row) :
  (forall s, In s sales ->
             exists a c, Sales s = Fin a /\ Cost_Price s = Fin c /\
                         0 < a /\ 0 <= c) ->
  In row (analyze_categories_margins
            argsort (clean_and_prepare_data sales stores)) ->
  exists m, Margins.Profit_Margin row = Fin m /\ m <= 100.
Proof.
  intros Hs Hrow.
  apply sort_values_In, in_map_iff in Hrow as (g & <- & Hg).
  pose proof (groupby_nonempty _ _ _ String.eqb_eq g _ Hg) as Hne.
  assert (Hrows : forall r, In r (snd g) ->
            exists m, Profit_Margin r = Fin m /\ m <= 100).
  { intros r Hr.
    apply (group_rows_in_table _ _ _ _ g r Hg) in Hr.
    apply in_clean_inv in Hr as (Hin & _ & ->).
    destruct (Hs _ Hin) as (a & c & Ea & Ec & Pa & Pc).
    destruct (profit_margin_range (base r) a c Ea Ec Pa Pc) as (m & Em & Hm).
    exists m. cbn [Profit_Margin enrich]. auto. }
  assert (Q : exists qs, map Profit_Margin (snd g) = map Fin qs /\
                         qs <> [] /\ forall q, In q qs -> q <= 100).
  { clear Hg. induction (snd g) as [|r l IH]; [congruence|].
    destruct (Hrows r (or_introl eq_refl)) as (m & Em & Hm).
    destruct l as [|r' l'].
    - exists [m]. simpl. rewrite Em. split; [reflexivity|].
      split; [discriminate|]. intros q [<- | []]. exact Hm.
    - destruct IH as (qs & Eq & _ & Hq); [discriminate | |].
      + intros x Hx. apply Hrows. now right.
      + exists (m :: qs). cbn [map]. cbn [map] in Eq. rewrite Em, Eq.
        split; [reflexivity|]. split; [discriminate|].
        intros q [<- | Hin]; auto. }
  destruct Q as (qs & Eq & Hqne & Hq).
  cbn [margins_agg Margins.Profit_Margin]. rewrite Eq.
  destruct (col_mean_bounded 100 qs Hqne Hq) as (m & -> & Hm).
  cbn [round2]. eexists. split; [reflexivity|].
  apply Qround2_mono in Hm.
  assert (E : Qround2 100 == 100).
  { assert (E1 : (100 : Q) == inject_Z 10000 / 100) by reflexivity.
    rewrite (Qround2_comp _ _ E1). rewrite Qround2_hundredths. reflexivity. }
  lra.
Qed.

Lemma category_margin_at_most_100_witness :
  exists row m,
    In row (analyze_categories_margins
              argsort_stable (clean_and_prepare_data small_day [])) /\
    Margins.Profit_Margin row = Fin m /\ m <= 100.
Proof.
  assert (E : exists row,
             In row (analyze_categories_margins
                       argsort_stable (clean_and_prepare_data small_day [])))
    by (vm_compute; eexists; left; reflexivity).
  destruct E as [row Hrow].
  destruct (category_margin_at_most_100 argsort_stable small_day [] row)
    as (m & Em & Hm).
  - intros s [<- | [<- | [<- | [<- | []]]]];
      eexists _, _; (split; [reflexivity|]); (split; [reflexivity|]); lra.
  - exact Hrow.
  - exists row, m. auto.
Defined.

(** ** What the store table can change *)

Section GroupByMap.
Context {P R K : Type}.
Variable key : R -> option K.
Variable eqb : K -> K -> bool.
Variable leb : K -> K -> bool.

Lemma key_cells_mapped (h : P -> R) (ps : list P) :
  key_cells key (map h ps) = key_cells (fun p => key (h p)) ps.
Proof.
  unfold key_cells. induction ps as [|p ps IH]; [reflexivity|].
  simpl. now rewrite IH.
Qed.

Lemma has_key_map (h : P -> R) (k : K) (ps : list P) :
  filter (has_key key eqb k) (map h ps)
  = map h (filter (has_key (fun p => key (h p)) eqb k) ps).
Proof.
  induction ps as [|p ps IH]; [reflexivity|].
  cbn [map filter]. rewrite IH.
  change (has_key (fun p0 => key (h p0)) eqb k p) with (has_key key eqb k (h p)).
  now destruct (has_key key eqb k (h p)).
Qed.

Lemma groupby_map (h : P -> R) (ps : list P) :
  groupby key eqb leb (map h ps)
  = map (fun g => (fst g, map h (snd g)))
        (groupby (fun p => key (h p)) eqb leb ps).
Proof.
  unfold groupby. rewrite key_cells_mapped, map_map.
  apply map_ext. intros k. cbn [fst snd]. now rewrite has_key_map.
Qed.

Lemma groupby_ext (key1 key2 : P -> option K) (ps : list P) :
  (forall p, key1 p = key2 p) ->
  groupby key1 eqb leb ps = groupby key2 eqb leb ps.
Proof.
  intros H. unfold groupby.
  assert (E : key_cells key1 ps = key_cells key2 ps).
  { unfold key_cells. induction ps as [|p ps IH]; [reflexivity|].
    simpl. now rewrite IH, H. }
  rewrite E. apply map_ext. intros k. f_equal.
  apply filter_ext. intros p. unfold has_key. now rewrite H.
Qed.

Lemma table_map {T : Type} (agg : K * list R -> T) (h1 h2 : P -> R)
      (ps : list P) :
  (forall p, key (h1 p) = key (h2 p)) ->
  (forall k l, agg (k, map h1 l) = agg (k, map h2 l)) ->
  map agg (groupby key eqb leb (map h1 ps))
  = map agg (groupby key eqb leb (map h2 ps)).
Proof.
  intros Hk Ha. rewrite !groupby_map, !map_map.
  rewrite (groupby_ext _ _ ps Hk).
  apply map_ext. intros g. cbn [fst snd]. apply Ha.
Qed.
End GroupByMap.

Lemma clean_single (sales : list sale) (stores : list store) :
  (forall s, In s sales ->
             (List.length (filter (key_match s) stores) <= 1)%nat) ->
  clean_and_prepare_data sales stores
  = map (fun s => enrich s (hd None (merge_regions s stores))) sales.
Proof.
  intros U. unfold clean_and_prepare_data.
  induction sales as [|s sales IH]; [reflexivity|].
  cbn [flat_map map]. rewrite IH by (intros; apply U; now right).
  specialize (U s (or_introl eq_refl)). unfold merge_regions in *.
  destruct (filter (key_match s) stores) as [|m [|m' l]];
    [reflexivity | reflexivity | simpl in U; lia].
Qed.

Lemma clean_no_stores (sales : list sale) :
  clean_and_prepare_data sales [] = map (fun s => enrich s None) sales.
Proof.
  unfold clean_and_prepare_data.
  induction sales as [|s sales IH]; [reflexivity|].
  cbn [flat_map map]. now rewrite IH.
Qed.

(** X20. The store table matters to the regional summary only: when no
    transaction matches more than one store row, the headline figures and the
    segment, product, category, sunburst and channel tables are the ones
    that the transactions give without any store table. *)
Theorem store_table_only_moves_regions (argsort : list num -> list nat)
        (sales : list sale) (stores : list store) :
  (forall s, In s sales ->
             (List.length (filter (key_match s) stores) <= 1)%nat) ->
  let df := clean_and_prepare_data sales stores in
  let df0 := clean_and_prepare_data sales [] in
  exploratory_analysis df = exploratory_analysis df0 /\
  segment_summary argsort df = segment_summary argsort df0 /\
  analyze_products argsort df = analyze_products argsort df0 /\
  analyze_categories_margins argsort df = analyze_categories_margins argsort df0 /\
  category_revenue df = category_revenue df0 /\
  analyze_order_mode df = analyze_order_mode df0.
Proof.
  intros U df df0. subst df df0.
  rewrite (clean_single sales stores U), clean_no_stores.
  set (h1 := fun s => enrich s (hd None (merge_regions s stores))).
  set (h2 := fun s => enrich s None).
  assert (Ep : product_revenue (map h1 sales) = product_revenue (map h2 sales)).
  { unfold product_revenue. apply table_map; [reflexivity|].
    intros k l. unfold product_agg. cbn [fst snd]. now rewrite !map_map. }
  repeat split.
  - unfold exploratory_analysis. now rewrite !map_map, !length_map.
  - unfold segment_summary. f_equal. apply table_map; [reflexivity|].
    intros k l. unfold summary_agg. cbn [fst snd]. now rewrite !map_map.
  - unfold analyze_products, top_products, bottom_products. now rewrite Ep.
  - unfold analyze_categories_margins. f_equal. apply table_map; [reflexivity|].
    intros k l. unfold margins_agg. cbn [fst snd]. now rewrite !map_map.
  - unfold category_revenue. apply table_map; [reflexivity|].
    intros k l. cbn [fst snd]. now rewrite !map_map.
  - unfold analyze_order_mode.
    assert (E : map channel_agg
                  (groupby (fun r => Order_Mode (base r)) String.eqb String.leb
                           (map h1 sales))
                = map channel_agg
                    (groupby (fun r => Order_Mode (base r)) String.eqb String.leb
                             (map h2 sales))).
    { apply table_map; [reflexivity|].
      intros k l. unfold channel_agg. cbn [fst snd]. now rewrite !map_map. }
    cbv zeta. now rewrite E.
Qed.

Lemma store_table_only_moves_regions_witness :
  analyze_order_mode
    (clean_and_prepare_data [leeds_order; returned_item]
                            [shop "Leeds" "LS1" (Some "Yorkshire")])
  = analyze_order_mode (clean_and_prepare_data [leeds_order; returned_item] []).
Proof.
  apply (store_table_only_moves_regions
           argsort_stable [leeds_order; returned_item]
           [shop "Leeds" "LS1" (Some "Yorkshire")]).
  intros s [<- | [<- | []]]; vm_compute; lia.
Defined.
